(** * tf-pwa: kinematics and spin-algebra engine

    A shallow embedding of the helicity-angle calculator
    ([tf_pwa/cal_angle.py]), the Wigner rotation engine ([tf_pwa/dfun.py])
    and the spin utilities and Lorentz parameter derivation of
    [tf_pwa/cov_ten_ir.py], with the properties of the design document
    stated over it; then the Flatte line shape ([tf_pwa/amp/flatte.py])
    and the nested dictionaries of [tf_pwa/data.py].

    Tensors of floating-point numbers are modelled over the real numbers:
    a batch is a function from the event index, and every element-wise
    tensor operation acts event by event.  Where a property turns on an
    operation leaving its domain (the square root of a negative number, a
    division by zero, an arc cosine outside [[-1, 1]]), the entries are
    values that may be NaN ([Tensor.value]).  Python dictionaries are finite
    maps, Python exceptions are values of [pyexn]. *)

From Stdlib Require Import Reals Lqa Lra Lia ZArith QArith Qround List.
From Stdlib Require Import Qabs RNsatz.
From Stdlib Require Floats.
From stdpp Require Import gmap strings list.


(** ** Python results *)

Inductive pyexn : Set :=
| KeyError
| IndexError
| ValueError
| NameError
| StopIteration
| InvalidSpinError.

Inductive result (A : Type) : Type :=
| Ok (a : A)
| Raise (e : pyexn).
Arguments Ok {A} a.
Arguments Raise {A} e.

Definition rbind {A B : Type} (r : result A) (k : A -> result B) : result B :=
  match r with
  | Ok a => k a
  | Raise e => Raise e
  end.

#[global] Instance result_ret : MRet result := fun A a => Ok a.
#[global] Instance result_bind : MBind result :=
  fun A B k r => rbind r k.

(** [d[k]] on a dictionary. *)
Definition getitem `{Countable K} {V : Type} (d : gmap K V) (k : K) : result V :=
  match d !! k with
  | Some v => Ok v
  | None => Raise KeyError
  end.

(** [l[i]] on a list, for a non-negative literal index. *)
Definition index {A : Type} (l : list A) (i : nat) : result A :=
  match l !! i with
  | Some a => Ok a
  | None => Raise IndexError
  end.

(** A [for] loop whose body may raise. *)
Fixpoint for_each {A S : Type} (l : list A) (body : A -> S -> result S) (s : S)
  : result S :=
  match l with
  | [] => Ok s
  | a :: l' => s' ← body a s; for_each l' body s'
  end.

Lemma for_each_cons {A S : Type} (a : A) (l : list A)
    (body : A -> S -> result S) (s : S) :
  for_each (a :: l) body s = (s' ← body a s; for_each l body s').
Proof. reflexivity. Qed.

Lemma bind_Ok {A B : Type} (a : A) (k : A -> result B) : (Ok a ≫= k) = k a.
Proof. reflexivity. Qed.

Lemma bind_Raise {A B : Type} (e : pyexn) (k : A -> result B) :
  (Raise e ≫= k) = Raise e.
Proof. reflexivity. Qed.

Lemma getitem_Some `{Countable K} {V : Type} (d : gmap K V) (k : K) (v : V) :
  d !! k = Some v -> getitem d k = Ok v.
Proof. intros Hk. unfold getitem. by rewrite Hk. Qed.

(** A loop whose body keeps an invariant and cannot raise under it
    completes; it keeps the invariant, moves the state along [Rel], and
    what each iteration establishes still holds at the end when [Rel]
    preserves it. *)
Lemma for_each_invariant {A S : Type} (I : S -> Prop) (Rel : S -> S -> Prop)
    (Q : A -> S -> Prop) (l : list A) (body : A -> S -> result S) :
  (forall s, Rel s s) ->
  (forall s1 s2 s3, Rel s1 s2 -> Rel s2 s3 -> Rel s1 s3) ->
  (forall a s s', Rel s s' -> Q a s -> Q a s') ->
  (forall a s, a ∈ l -> I s ->
     exists s', body a s = Ok s' /\ I s' /\ Rel s s' /\ Q a s') ->
  forall s, I s ->
    exists s', for_each l body s = Ok s' /\ I s' /\ Rel s s'
               /\ forall a, a ∈ l -> Q a s'.
Proof.
  intros Hrefl Htrans Hstable. induction l as [|a l IH]; intros Hbody s HI.
  - exists s. repeat split; try done. intros a Ha. by apply elem_of_nil in Ha.
  - destruct (Hbody a s) as (s1 & Hrun & HI1 & HR1 & HQ1); [left|done|].
    destruct (IH (fun a' s' Ha' => Hbody a' s' (list_elem_of_further _ _ _ Ha'))
                 s1 HI1) as (s2 & Hrun2 & HI2 & HR2 & HQ2).
    exists s2. rewrite for_each_cons, Hrun, bind_Ok.
    split; [done|]. split; [done|]. split; [by eauto|].
    intros a' [->|Ha']%elem_of_cons; [by eapply Hstable|by apply HQ2].
Qed.

(** A plain [for] loop. *)
Definition for_pure {A S : Type} (l : list A) (body : A -> S -> S) (s : S) : S :=
  foldl (fun s a => body a s) s l.

Lemma for_pure_cons {A S : Type} (a : A) (l : list A) (body : A -> S -> S) (s : S) :
  for_pure (a :: l) body s = for_pure l body (body a s).
Proof. reflexivity. Qed.

Lemma for_pure_invariant {A S : Type} (I : S -> Prop) (l : list A)
    (body : A -> S -> S) :
  (forall a s, a ∈ l -> I s -> I (body a s)) ->
  forall s, I s -> I (for_pure l body s).
Proof.
  induction l as [|a l IH]; intros Hbody s Hs; [done|].
  rewrite for_pure_cons. apply IH.
  - intros a' s' Ha'. apply Hbody. by right.
  - apply Hbody; [by left|done].
Qed.

Lemma for_pure_app {A S : Type} (l1 l2 : list A) (body : A -> S -> S) (s : S) :
  for_pure (l1 ++ l2) body s = for_pure l2 body (for_pure l1 body s).
Proof. unfold for_pure. apply foldl_app. Qed.

(** ** Decay topology *)

Section Topology.
Context {Particle : Type} `{Countable Particle}.

(** [BaseDecay]: a core particle and its ordered outgoing particles. *)
Record Decay : Type := mkDecay { core : Particle; outs : list Particle }.

#[global] Instance Decay_eq_dec : EqDecision Decay.
Proof. solve_decision. Defined.

#[global] Instance Decay_countable : Countable Decay.
Proof.
  apply (inj_countable' (fun d => (core d, outs d))
                        (fun t => mkDecay t.1 t.2)).
  by intros [].
Defined.

End Topology.
Arguments Decay Particle : clear implicits.

(** ** Scalar kinematics: [Getp] and [get_relative_momentum] *)

Section RelativeMomentum.
Context {event : Type}.
Context {Particle : Type} `{Countable Particle}.

(** A batch of real numbers, one per event. *)
Definition batch : Type := event -> R.

Definition Getp (M_0 M_1 M_2 : batch) : batch := fun ev =>
  let M12S := (M_1 ev + M_2 ev)%R in
  let M12D := (M_1 ev - M_2 ev)%R in
  let p := ((M_0 ev - M12S) * (M_0 ev + M12S)
            * (M_0 ev - M12D) * (M_0 ev + M12D))%R in
  let q := ((p + Rabs p) / 2)%R in
  (sqrt q / (2 * M_0 ev))%R.

(** The product whose sign tells whether the decay is above threshold. *)
Definition threshold_product (M_0 M_1 M_2 : batch) : batch := fun ev =>
  ((M_0 ev - (M_1 ev + M_2 ev)) * (M_0 ev + (M_1 ev + M_2 ev))
   * (M_0 ev - (M_1 ev - M_2 ev)) * (M_0 ev + (M_1 ev - M_2 ev)))%R.

(** The per-particle dictionary [{"p": ..., "m": ...}] with the momentum
    type left open. *)
Record ParticleData (Mom : Type) : Type :=
  mkPD { pd_p : option Mom; pd_m : option batch }.
Arguments mkPD {Mom} _ _.
Arguments pd_p {Mom} _.
Arguments pd_m {Mom} _.

Definition get_m {Mom : Type} (d : ParticleData Mom) : result batch :=
  match pd_m d with
  | Some m => Ok m
  | None => Raise KeyError
  end.

Definition get_p {Mom : Type} (d : ParticleData Mom) : result Mom :=
  match pd_p d with
  | Some p => Ok p
  | None => Raise KeyError
  end.

(** The record [get_relative_momentum] builds: string keys at the top,
    decays below, then the [|q|] entry. *)
Definition qrecord : Type :=
  gmap string (gmap (Decay Particle) (gmap string batch)).

Definition get_relative_momentum_body {Mom : Type}
    (data : gmap Particle (ParticleData Mom))
    (decay : Decay Particle) (ret : qrecord) : result qrecord :=
  m0 ← (d ← getitem data (core decay); get_m d);
  m1 ← (o ← index (outs decay) 0; d ← getitem data o; get_m d);
  m2 ← (o ← index (outs decay) 1; d ← getitem data o; get_m d);
  let p := Getp m0 m1 m2 in
  (* ret["decay"][decay] = {} *)
  inner ← getitem ret "decay";
  let ret := <["decay" := <[decay := ∅]> inner]> ret in
  (* ret["decay"][decay]["|q|"] = p *)
  inner ← getitem ret "decay";
  entry ← getitem inner decay;
  Ok (<["decay" := <[decay := <["|q|" := p]> entry]> inner]> ret).

Definition get_relative_momentum {Mom : Type}
    (data : gmap Particle (ParticleData Mom))
    (decay_chain : list (Decay Particle)) : result qrecord :=
  for_each decay_chain (get_relative_momentum_body data) ∅.

(** *** Properties of [Getp] *)

Lemma Getp_unfold (M_0 M_1 M_2 : batch) (ev : event) :
  Getp M_0 M_1 M_2 ev =
  (sqrt ((threshold_product M_0 M_1 M_2 ev
          + Rabs (threshold_product M_0 M_1 M_2 ev)) / 2) / (2 * M_0 ev))%R.
Proof. reflexivity. Qed.

Lemma masked_negative (p : R) : (p < 0 -> (p + Rabs p) / 2 = 0)%R.
Proof. intros Hp. rewrite Rabs_left by exact Hp. lra. Qed.

Lemma masked_nonnegative (p : R) : (0 <= p -> (p + Rabs p) / 2 = p)%R.
Proof. intros Hp. rewrite Rabs_pos_eq by exact Hp. lra. Qed.

(** *** Properties of [get_relative_momentum] *)

Lemma getitem_empty_decay :
  getitem (∅ : qrecord) "decay" = Raise KeyError.
Proof. reflexivity. Qed.

(** Reading [data[x]["m"]] either succeeds or raises [KeyError]. *)
Lemma lookup_m_cases {Mom : Type}
    (data : gmap Particle (ParticleData Mom)) (x : Particle) :
  (exists m, (d ← getitem data x; get_m d) = Ok m)
  \/ (d ← getitem data x; get_m d) = Raise KeyError.
Proof.
  unfold getitem. destruct (data !! x) as [d|]; [|right; reflexivity].
  simpl. unfold get_m. destruct (pd_m d) as [m|]; [left; eauto|right; reflexivity].
Qed.

Lemma body_on_empty_record {Mom : Type}
    (data : gmap Particle (ParticleData Mom)) (decay : Decay Particle) :
  2 <= length (outs decay) ->
  get_relative_momentum_body data decay ∅ = Raise KeyError.
Proof.
  intros Hlen. unfold get_relative_momentum_body.
  destruct (outs decay) as [|o1 [|o2 os]] eqn:Houts; simpl in Hlen; try lia.
  destruct (lookup_m_cases data (core decay)) as [[m0 ->]| ->]; [|reflexivity].
  unfold index; simpl.
  destruct (lookup_m_cases data o1) as [[m1 ->]| ->]; [|reflexivity].
  destruct (lookup_m_cases data o2) as [[m2 ->]| ->]; reflexivity.
Qed.

(** C10: on a chain with at least one decay (a vertex with two or more
    outgoing particles), [get_relative_momentum] raises [KeyError] for
    every data record: it reads [ret["decay"]] in a record that never
    receives that key, so no record with [|q|] entries is returned. *)
Theorem get_relative_momentum_raises {Mom : Type}
    (data : gmap Particle (ParticleData Mom))
    (decay : Decay Particle) (rest : list (Decay Particle)) :
  2 <= length (outs decay) ->
  get_relative_momentum data (decay :: rest) = Raise KeyError.
Proof.
  intros Hlen. unfold get_relative_momentum. simpl.
  rewrite body_on_empty_record by exact Hlen. reflexivity.
Qed.

End RelativeMomentum.
Arguments mkPD {event Mom} _ _.
Arguments pd_p {event Mom} _.
Arguments pd_m {event Mom} _.

(** C10, at the chain [0 -> 1 + 2] and the empty record. *)
Lemma get_relative_momentum_raises_witness :
  get_relative_momentum (event := unit) (Mom := unit)
    (∅ : gmap nat (ParticleData unit)) [mkDecay 0 [1; 2]]
  = Raise KeyError.
Proof.
  apply (get_relative_momentum_raises (event := unit) (Mom := unit) ∅
           (mkDecay 0 [1; 2]) []).
  simpl. lia.
Defined.

(** ** Spin utilities of [cov_ten_ir.py] *)

Module Spin.
#[local] Open Scope Q_scope.

(** Python's [round] on a number: nearest integer, ties to the even one. *)
Definition py_round (x : Q) : Z :=
  let f := Qfloor x in
  match Qcompare (x - inject_Z f) (1 # 2) with
  | Lt => f
  | Gt => (f + 1)%Z
  | Eq => if Z.even f then f else (f + 1)%Z
  end.

Definition _half2 (s : Q) : Z := py_round (s * 2).

Definition _size (s : Q) : Z := (_half2 s + 1)%Z.

(** [range(n)] *)
Definition py_range (n : Z) : list Z := map Z.of_nat (seq 0 (Z.to_nat n)).

Definition _srange (s : Q) : list Q :=
  map (fun i => inject_Z i - s) (py_range (_size s)).

Definition _srange_inv (s : Q) : list Q :=
  map (fun i => - (inject_Z i - s)) (py_range (_size s)).

(** [S(_half2(s)) / 2], an exact rational. *)
Definition _S (s : Q) : Q := Qmake (_half2 s) 2.

Definition _dim (l r : Q) : Z :=
  if Qeq_bool l r then (_size l ^ 2)%Z else (2 * _size l * _size r)%Z.

(** A spin is a multiple of 1/2 when its double is an integer. *)
Definition half_integral (s : Q) : Prop := exists n : Z, s * 2 == inject_Z n.

Section ClebschGordan.
(** The value [float(CG(j1, m1, j2, m2, j3, m3).doit().evalf())] of the
    computer-algebra library, a parameter of the model. *)
Variable CG : Q -> Q -> Q -> Q -> Q -> Q -> R.

(** [np.zeros(shape)] refuses a negative dimension. *)
Definition zeros_shape (shape : list Z) : result unit :=
  if forallb (fun n => (0 <=? n)%Z) shape then Ok tt else Raise ValueError.

(** [CGlrs]: every entry of the zero tensor is assigned in the loops, then
    the three axes are reversed. *)
Definition CGlrs (l r s : Q) : result (list (list (list R))) :=
  _ ← zeros_shape [_size l; _size r; _size s];
  let ret :=
    map (fun li =>
      map (fun ri =>
        map (fun si => CG (_S l) (_S li) (_S r) (_S ri) (_S s) (_S si))
            (_srange s))
          (_srange r))
        (_srange l) in
  Ok (rev (map (fun plane => rev (map (@rev R) plane)) ret)).

End ClebschGordan.

(** *** Rounding *)

Lemma py_round_integer (n : Z) : py_round (inject_Z n) = n.
Proof.
  unfold py_round. rewrite Qfloor_Z.
  replace (Qcompare (inject_Z n - inject_Z n) (1 # 2)) with Lt; [reflexivity|].
  symmetry. apply Qlt_alt.
  assert (E : inject_Z n - inject_Z n == 0) by ring.
  rewrite E. reflexivity.
Qed.

#[global] Instance py_round_proper : Proper (Qeq ==> eq) py_round.
Proof.
  intros x y Hxy. unfold py_round.
  assert (Hf : Qfloor x = Qfloor y) by (apply Qfloor_comp; exact Hxy).
  rewrite Hf.
  assert (Hc : Qcompare (x - inject_Z (Qfloor y)) (1 # 2)
             = Qcompare (y - inject_Z (Qfloor y)) (1 # 2)).
  { apply Qcompare_comp; [rewrite Hxy|]; reflexivity. }
  rewrite Hc. reflexivity.
Qed.

(** The rounded value is within one half of the argument. *)
Lemma py_round_near (x : Q) :
  inject_Z (py_round x) - (1 # 2) <= x /\ x <= inject_Z (py_round x) + (1 # 2).
Proof.
  unfold py_round.
  pose proof (Qfloor_le x) as Hlo. pose proof (Qlt_floor x) as Hhi.
  assert (Hplus : inject_Z (Qfloor x + 1) == inject_Z (Qfloor x) + 1).
  { rewrite inject_Z_plus. reflexivity. }
  rewrite Hplus in Hhi.
  destruct (Qcompare (x - inject_Z (Qfloor x)) (1 # 2)) eqn:Hc.
  - apply Qeq_alt in Hc.
    destruct (Z.even (Qfloor x)); [|rewrite Hplus]; split; Lqa.lra.
  - apply Qlt_alt in Hc. split; Lqa.lra.
  - apply Qgt_alt in Hc. rewrite Hplus. split; Lqa.lra.
Qed.

Lemma _half2_near (s : Q) :
  inject_Z (_half2 s) - (1 # 2) <= s * 2 /\ s * 2 <= inject_Z (_half2 s) + (1 # 2).
Proof. apply py_round_near. Qed.

Lemma _half2_half_integer (n : Z) : _half2 (Qmake n 2) = n.
Proof.
  unfold _half2.
  assert (E : Qmake n 2 * 2 == inject_Z n).
  { unfold Qeq, inject_Z, Qmult. simpl. lia. }
  rewrite E. apply py_round_integer.
Qed.

Lemma zeros_shape_raise (shape : list Z) (e : pyexn) :
  zeros_shape shape = Raise e -> e = ValueError.
Proof.
  unfold zeros_shape. destruct (forallb _ shape); congruence.
Qed.

Lemma CGlrs_raise CG (l r s : Q) (e : pyexn) :
  CGlrs CG l r s = Raise e -> e = ValueError.
Proof.
  unfold CGlrs.
  destruct (zeros_shape [_size l; _size r; _size s]) as [[]|e'] eqn:Hz; simpl.
  - discriminate.
  - intros [= <-]. eapply zeros_shape_raise, Hz.
Qed.

(** C6 (as the code has it): the spin utilities do not reject a spin that
    is not a multiple of 1/2.  [_half2] rounds twice the spin to a nearest
    integer, so the spin is coerced to a multiple of 1/2 at distance at most
    1/4, a multiple of 1/2 is kept as it is, and [CGlrs] never raises
    [InvalidSpinError]. *)
Theorem spin_silently_coerced CG (l r s : Q) (n : Z) :
  (inject_Z (_half2 s) - (1 # 2) <= s * 2
   /\ s * 2 <= inject_Z (_half2 s) + (1 # 2))
  /\ _half2 (Qmake n 2) = n
  /\ _size s = (_half2 s + 1)%Z
  /\ CGlrs CG l r s <> Raise InvalidSpinError.
Proof.
  split; [apply _half2_near|].
  split; [apply _half2_half_integer|].
  split; [reflexivity|].
  intros Hr. apply CGlrs_raise in Hr. discriminate.
Qed.

Lemma quarter_not_half_integral : ~ half_integral (1 # 4).
Proof.
  intros [n Hn]. unfold Qeq, inject_Z, Qmult in Hn. simpl in Hn. lia.
Qed.

(** C6 (as stated) fails: spin 1/4 is not a multiple of 1/2, yet [CGlrs]
    returns the 1x1x1 tensor it returns for spin 0. *)
Lemma spin_quarter_accepted :
  ~ (forall CG (l r s : Q),
       ~ half_integral s -> CGlrs CG l r s = Raise InvalidSpinError).
Proof.
  intros Hclaim.
  specialize (Hclaim (fun _ _ _ _ _ _ => 0%R) 0 0 (1 # 4)
                     quarter_not_half_integral).
  vm_compute in Hclaim. discriminate.
Qed.

End Spin.

(** ** Tensor entries that are not numbers *)

Module Tensor.
#[local] Open Scope R_scope.

(** An entry of a floating-point tensor: a real number, or [None] when the
    entry is not a finite number (NaN, or an infinity).  Arithmetic on
    numbers is exact.  In the code modelled with these operations an
    infinity comes from a division by zero only, and everything computed
    from it afterwards is NaN, whichever way the masks fall, so the two
    need not be told apart. *)
Definition value : Type := option R.
Definition num (x : R) : value := Some x.
Definition NaN : value := None.

Definition lift1 (f : R -> R) (a : value) : value :=
  match a with
  | Some x => num (f x)
  | None => NaN
  end.

Definition lift2 (f : R -> R -> R) (a b : value) : value :=
  match a, b with
  | Some x, Some y => num (f x y)
  | _, _ => NaN
  end.

Definition tf_add : value -> value -> value := lift2 Rplus.
Definition tf_sub : value -> value -> value := lift2 Rminus.
Definition tf_mul : value -> value -> value := lift2 Rmult.
Definition tf_pow (a : value) (n : nat) : value := lift1 (fun x => x ^ n) a.

(** [a / b]: not a number when [b] is zero. *)
Definition tf_div (a b : value) : value :=
  match a, b with
  | Some x, Some y => if Req_dec_T y 0 then NaN else num (x / y)
  | _, _ => NaN
  end.

(** [tf.sqrt]: NaN on a negative number. *)
Definition tf_sqrt (a : value) : value :=
  match a with
  | Some x => if Rlt_dec x 0 then NaN else num (sqrt x)
  | None => NaN
  end.

(** [tf.math.acos]: NaN outside [[-1, 1]]. *)
Definition tf_acos (a : value) : value :=
  match a with
  | Some x =>
      if Rle_dec (-1) x then if Rle_dec x 1 then num (acos x) else NaN
      else NaN
  | None => NaN
  end.


(** Comparisons, as boolean masks: false when a side is not a number. *)
Definition compare (test : R -> R -> bool) (a b : value) : bool :=
  match a, b with
  | Some x, Some y => test x y
  | _, _ => false
  end.

Definition tf_eq : value -> value -> bool :=
  compare (fun x y => if Req_dec_T x y then true else false).
Definition tf_ge : value -> value -> bool :=
  compare (fun x y => if Rge_dec x y then true else false).

(** [tf.where] / [np.where] on one event. *)
Definition tf_where (mask : bool) (a b : value) : value :=
  if mask then a else b.

Lemma tf_sqrt_num (x : R) : 0 <= x -> tf_sqrt (num x) = num (sqrt x).
Proof. intros Hx. simpl. destruct (Rlt_dec x 0); [lra|reflexivity]. Qed.

Lemma tf_sqrt_negative (x : R) : x < 0 -> tf_sqrt (num x) = NaN.
Proof. intros Hx. simpl. destruct (Rlt_dec x 0); [reflexivity|lra]. Qed.

Lemma tf_div_num (x y : R) : y <> 0 -> tf_div (num x) (num y) = num (x / y).
Proof. intros Hy. simpl. destruct (Req_dec_T y 0); [done|reflexivity]. Qed.

Lemma tf_div_zero (x : R) : tf_div (num x) (num 0) = NaN.
Proof. simpl. destruct (Req_dec_T 0 0); [reflexivity|done]. Qed.


Lemma tf_acos_above (x : R) : 1 < x -> tf_acos (num x) = NaN.
Proof.
  intros Hx. simpl. destruct (Rle_dec (-1) x); [|reflexivity].
  destruct (Rle_dec x 1); [lra|reflexivity].
Qed.




Section Threshold.
Context {event : Type}.

(** The real-valued [Getp] of the section on scalar kinematics. *)
#[local] Abbreviation Getp_of_reals := Getp.

(** [Getp], entry by entry, with what [tf.sqrt] and the division make of
    an argument outside their domain. *)
Definition Getp (M_0 M_1 M_2 : batch (event := event)) : event -> value :=
  fun ev =>
  let M12S := M_1 ev + M_2 ev in
  let M12D := M_1 ev - M_2 ev in
  let p := (M_0 ev - M12S) * (M_0 ev + M12S)
           * (M_0 ev - M12D) * (M_0 ev + M12D) in
  let q := (p + Rabs p) / 2 in
  tf_div (tf_sqrt (num q)) (num (2 * M_0 ev)).

Lemma Getp_unfold_value (M_0 M_1 M_2 : batch) (ev : event) :
  Getp M_0 M_1 M_2 ev
  = tf_div (tf_sqrt (num ((threshold_product M_0 M_1 M_2 ev
                           + Rabs (threshold_product M_0 M_1 M_2 ev)) / 2)))
           (num (2 * M_0 ev)).
Proof. reflexivity. Qed.

Lemma substituted_nonnegative (p : R) : 0 <= (p + Rabs p) / 2.
Proof.
  destruct (Rlt_dec p 0) as [Hp|Hp].
  - rewrite masked_negative by exact Hp. lra.
  - rewrite masked_nonnegative by lra. lra.
Qed.

(** On its domain the value is the number of the real-valued [Getp]; with
    a parent mass of zero it is not a number. *)
Lemma Getp_number (M_0 M_1 M_2 : batch) (ev : event) :
  M_0 ev <> 0 ->
  Getp M_0 M_1 M_2 ev = num (Getp_of_reals M_0 M_1 M_2 ev).
Proof.
  intros HM. rewrite Getp_unfold_value, Getp_unfold.
  rewrite tf_sqrt_num by apply substituted_nonnegative.
  apply tf_div_num. lra.
Qed.

Lemma Getp_zero_mass (M_0 M_1 M_2 : batch) (ev : event) :
  M_0 ev = 0 -> Getp M_0 M_1 M_2 ev = NaN.
Proof.
  intros HM. rewrite Getp_unfold_value.
  rewrite tf_sqrt_num by apply substituted_nonnegative.
  rewrite HM, Rmult_0_r. apply tf_div_zero.
Qed.

(** C7: below threshold the product under the square root is negative and
    its square root is NaN; [Getp] puts [(p + |p|) / 2], which is 0
    there, in its place and returns the number 0.  On every other event
    it returns the square root of the product over [2 * M_0].  The parent
    mass is not zero. *)
Theorem Getp_below_threshold (M_0 M_1 M_2 : batch) (ev : event) :
  M_0 ev <> 0 ->
  (threshold_product M_0 M_1 M_2 ev < 0 ->
     tf_sqrt (num (threshold_product M_0 M_1 M_2 ev)) = NaN
     /\ Getp M_0 M_1 M_2 ev = num 0)
  /\ (0 <= threshold_product M_0 M_1 M_2 ev ->
        Getp M_0 M_1 M_2 ev
        = num (sqrt (threshold_product M_0 M_1 M_2 ev) / (2 * M_0 ev))).
Proof.
  intros HM. rewrite Getp_unfold_value. split; intros Hp.
  - split; [by apply tf_sqrt_negative|].
    rewrite masked_negative by exact Hp.
    rewrite tf_sqrt_num, sqrt_0 by lra.
    rewrite tf_div_num by lra. f_equal. unfold Rdiv. apply Rmult_0_l.
  - rewrite masked_nonnegative by exact Hp.
    rewrite tf_sqrt_num by exact Hp. apply tf_div_num. lra.
Qed.

End Threshold.

(** C7, at a concrete below-threshold event: masses 1 -> 1 + 1. *)
Lemma Getp_below_threshold_witness :
  tf_sqrt (num (threshold_product (fun _ : unit => 1) (fun _ => 1)
                                  (fun _ => 1) tt)) = NaN
  /\ Getp (fun _ : unit => 1) (fun _ => 1) (fun _ => 1) tt = num 0.
Proof.
  apply (Getp_below_threshold (fun _ : unit => 1) (fun _ => 1) (fun _ => 1) tt).
  - lra.
  - unfold threshold_product. lra.
Defined.

End Tensor.

(** ** Lorentz parameters derived from a four-momentum ([cov_ten_ir.py]) *)

Module Lorentz.
Import Tensor.
#[local] Open Scope R_scope.

(** One event of a four-vector batch, components [p[..., 0]] to
    [p[..., 3]]. *)
Record vec4 : Type := mkVec4 { c0 : R; c1 : R; c2 : R; c3 : R }.

(** Element-wise comparisons of numbers, as boolean masks. *)
Definition eq_mask (a b : R) : bool := if Req_dec_T a b then true else false.
Definition lt_mask (a b : R) : bool := if Rlt_dec a b then true else false.
Definition ge_mask (a b : R) : bool := if Rge_dec a b then true else false.
Definition gt_mask (a b : R) : bool := if Rgt_dec a b then true else false.

(** The parameters handed to [LorentzRotationSC] / [LorentzBoostSC]. *)
Record params : Type :=
  mkParams { CurlyTheta : value; Theta : value; Phi : value }.


(** [p_Mu / d] for a number [d]. *)
Definition scale (p : vec4) (d : R) : vec4 :=
  mkVec4 (c0 p / d) (c1 p / d) (c2 p / d) (c3 p / d).

(** The components [x[..., 0]] to [x[..., 3]] of [x = p_Mu / d], where the
    divisor may be zero or not a number. *)
Definition normalised (p : vec4) (d : value) : value * value * value * value :=
  (tf_div (num (c0 p)) d, tf_div (num (c1 p)) d,
   tf_div (num (c2 p)) d, tf_div (num (c3 p)) d).


Section Batched.
Context {event : Type}.

(** The angles computed in [LorentzInvSC_m_zero] before the rotation is
    built from them. *)
Definition LorentzInvSC_m_zero_params (p_Mu : event -> vec4) : event -> params :=
  fun ev =>
  let '(x0, x1, x2, x3) := normalised (p_Mu ev) (num (c0 (p_Mu ev))) in
  let zeros := num 0 in
  let CurlyTheta := zeros in
  let Theta :=
    tf_where (tf_eq x1 (num 0) && tf_eq x2 (num 0)) zeros (tf_acos x3) in
  let Phi :=
    tf_where (tf_eq x1 (num 0) && tf_eq x2 (num 0)) zeros
      (tf_where (tf_ge x2 (num 0))
         (tf_acos (tf_div x1 (tf_sqrt (tf_sub (num 1) (tf_pow x3 2)))))
         (tf_sub (num (2 * PI))
            (tf_acos (tf_div x1 (tf_sqrt (tf_sub (num 1) (tf_pow x3 2))))))) in
  mkParams CurlyTheta Theta Phi.


End Batched.

(** *** Masks *)







(** *** Zero transverse momentum *)

Section ZeroTransverse.
Context {event : Type}.
Variable p_Mu : event -> vec4.
Variable ev : event.
Hypothesis Hx : c1 (p_Mu ev) = 0.
Hypothesis Hy : c2 (p_Mu ev) = 0.




(** The exact test does not catch a vanishing energy: the components are
    [0 / 0], the masks are false and the angles are not numbers. *)
Lemma m_zero_at_zero_energy :
  c0 (p_Mu ev) = 0 ->
  Theta (LorentzInvSC_m_zero_params p_Mu ev) = NaN
  /\ Phi (LorentzInvSC_m_zero_params p_Mu ev) = NaN.
Proof.
  intros H0. unfold LorentzInvSC_m_zero_params, normalised. cbv zeta.
  rewrite H0, !tf_div_zero. by split.
Qed.






End ZeroTransverse.








End Lorentz.

(** *** The polar angle of a moving particle in binary64 *)

Module Binary64.
Import Stdlib.Floats.Floats.

(** The argument [x3 / tf.sqrt(x0**2 - 1)] of [tf.math.acos] in the massive
    branch with every operation rounded to binary64: the squares as
    rounded products, the four terms of the sum added in index order (on
    the momenta below two of them vanish, so that any order gives the same
    sum). *)
Definition polar_argument64 (p0 p1 p2 p3 : float) : float :=
  let pp := (p0 * p0 * 1 + p1 * p1 * -1 + p2 * p2 * -1 + p3 * p3 * -1)%float in
  let m := PrimFloat.sqrt pp in
  let x0 := (p0 / m)%float in
  let x3 := (p3 / m)%float in
  (x3 / PrimFloat.sqrt (x0 * x0 - 1))%float.

(** Over the reals the argument is 1 for a particle moving forward and -1
    for one moving backward.  In binary64 it exceeds 1 for the momentum
    (3, 0, 0, 1), where [tf.math.acos] returns NaN, and falls short of 1
    for (2, 0, 0, 1), where the polar angle is not 0; for the backward
    momentum (5/4, 0, 0, -3/4) it is -1. *)
Lemma polar_argument64_rounding :
  (1 <? polar_argument64 3 0 0 1)%float = true
  /\ (polar_argument64 2 0 0 1 <? 1)%float = true
  /\ (polar_argument64 1.25 0 0 (-0.75) =? -1)%float = true.
Proof. repeat split; vm_compute; reflexivity. Qed.

End Binary64.

(** ** Momentum inference ([cal_angle.infer_momentum]) *)

Module Momentum.
Import Lorentz.











Section Infer.
Context {event : Type}.
Context {Particle : Type} `{Countable Particle}.

(** A batch of four-momenta, shape [N, 4]. *)
Definition Mom : Type := event -> vec4.


Abbreviation record := (gmap Particle (ParticleData (event := event) Mom)).








(** *** Reading rows *)





(** *** The loop *)





(** *** The sorted table of a chain *)










End Infer.

(** *** Concrete records *)

#[local] Open Scope R_scope.


Definition at_rest (E : R) : Mom (event := unit) := fun _ => mkVec4 E 0 0 0.

Definition entry (E : R) : ParticleData (event := unit) Mom :=
  mkPD (Some (at_rest E)) None.

(** The chain [0 -> 1 + 2], with a record that already holds particle 0
    with a momentum that is not the sum of its daughters'. *)
Definition preset_chain : list (Decay nat) := [mkDecay 0%nat [1%nat; 2%nat]].










End Momentum.

(** ** Helicity angles ([cal_angle.cal_helicity_angle]) *)

Module Helicity.

Section Chain.
Context {Particle : Type} `{Countable Particle}.

(** A decay chain: its top particle and its decays in iteration order. *)
Record DecayChain : Type := mkChain { top : Particle; chain : list (Decay Particle) }.

#[global] Instance DecayChain_eq_dec : EqDecision DecayChain.
Proof. solve_decision. Defined.

#[global] Instance DecayChain_countable : Countable DecayChain.
Proof.
  apply (inj_countable' (fun c => (top c, chain c))
                        (fun t => mkChain t.1 t.2)).
  by intros [].
Defined.

End Chain.
Arguments DecayChain Particle : clear implicits.

(** The dictionary [{"alpha": ..., "beta": ..., "gamma": ...}]. *)
Record EulerAngle {event : Type} : Type :=
  mkAngle { alpha : batch (event := event);
            beta : batch (event := event);
            gamma : batch (event := event) }.
Arguments EulerAngle event : clear implicits.
Arguments mkAngle {event} _ _ _.
Arguments alpha {event} _.
Arguments beta {event} _.
Arguments gamma {event} _.

(** The module [tf_pwa.angle] as [cal_angle.py] uses it: four-momentum
    batches [Mom], three-vector batches [Vec] and the group elements [Mat]
    of [SU2M], with the operations called on them. *)
Class AngleLib (event Mom Vec Mat : Type) : Type := {
  rest_vector : Mom -> Mom -> Mom;
  vect : Mom -> Vec;
  angle_zx_z_getx : Vec -> Vec -> Vec -> EulerAngle event * Vec;
  angle_zx_zzz_getx : Vec -> Vec -> list Vec -> EulerAngle event * list Vec;
  angle_zx_zx : Vec -> Vec -> Vec -> Vec -> EulerAngle event;
  Boost_z_from_p : Mom -> Mat;
  Rotation_y : batch (event := event) -> Mat;
  Rotation_z : batch (event := event) -> Mat;
  mat_mul : Mat -> Mat -> Mat;
  mat_inv : Mat -> Mat;
  mat_copy : Mat -> Mat;
  get_euler_angle : Mat -> EulerAngle event;
  (* the base z axis derived from the top momentum, [random_z] given *)
  global_z : bool -> Mom -> Vec;
  (* [np.array([[1.0, 0.0, 0.0]])], the default [base_x] *)
  unit_x : Vec
}.

Section Calculator.
Context {event Mom Vec Mat : Type} `{AngleLib event Mom Vec Mat}.
Context {Particle : Type} `{Countable Particle}.

Infix "*m" := mat_mul (at level 40, left associativity).

(** [ret[i][j]]: the entries a particle of a decay may hold. *)
Record PartEntry : Type := mkPart {
  ang : option (EulerAngle event);
  x : option Vec;
  z : option Vec;
  aligned_angle : option (EulerAngle event)
}.

Definition empty_part : PartEntry := mkPart None None None None.

(** [ret[i]]: the particles of a decay, and the joint angle of a
    three-body decay under the key ["ang"]. *)
Record DecayEntry : Type := mkEntry {
  parts : gmap Particle PartEntry;
  joint_ang : option (EulerAngle event)
}.

Definition empty_entry : DecayEntry := mkEntry ∅ None.

(** What [cal_helicity_angle] returns: the decays, and ["r_matrix"]. *)
Record ChainData : Type := mkChainData {
  decays : gmap (Decay Particle) DecayEntry;
  r_matrix : gmap Particle Mat
}.

(** The local variables of the [while] loop. *)
Record HState : Type := mkHState {
  set_x : gmap Particle Vec;
  set_z : gmap Particle Vec;
  rmat : gmap Particle Mat;
  ret : gmap (Decay Particle) DecayEntry;
  ang_var : option (EulerAngle event)
}.

Abbreviation record := (gmap Particle (ParticleData (event := event) Mom)).

(** First loop: every outgoing momentum in the rest frame of its core. *)
Definition rest_frame_body (data : record) (i : Decay Particle)
    (part_data : gmap (Decay Particle) (gmap Particle Mom))
  : result (gmap (Decay Particle) (gmap Particle Mom)) :=
  p_rest ← (d ← getitem data (core i); get_p d);
  rest_p ← for_each (outs i)
    (fun j rest_p =>
       pj ← (d ← getitem data j; get_p d);
       Ok (<[j := rest_vector p_rest pj]> rest_p)) ∅;
  Ok (<[i := rest_p]> part_data).

(** [r_matrix[j] = r * r_matrix[i.core]] when the core has one, else [r]. *)
Definition accumulate (i : Decay Particle) (j : Particle) (r : Mat)
    (rm : gmap Particle Mat) : gmap Particle Mat :=
  match rm !! core i with
  | Some rc => <[j := r *m rc]> rm
  | None => <[j := r]> rm
  end.

(** [ret[i][j] = entry] *)
Definition set_part (i : Decay Particle) (j : Particle) (e : PartEntry)
    (ret : gmap (Decay Particle) DecayEntry)
  : result (gmap (Decay Particle) DecayEntry) :=
  ei ← getitem ret i;
  Ok (<[i := mkEntry (<[j := e]> (parts ei)) (joint_ang ei)]> ret).

(** The body of [for j in i.outs]. *)
Definition two_body_step (part_data : gmap (Decay Particle) (gmap Particle Mom))
    (i : Decay Particle) (j : Particle) (s : HState) : result HState :=
  p_rest ← (rp ← getitem part_data i; getitem rp j);
  let z2 := vect p_rest in
  zc ← getitem (set_z s) (core i);
  xc ← getitem (set_x s) (core i);
  let ang_x := angle_zx_z_getx zc xc z2 in
  let a := ang_x.1 in
  let x1 := ang_x.2 in
  ret' ← set_part i j (mkPart (Some a) (Some x1) (Some z2) None) (ret s);
  let Bp := Boost_z_from_p p_rest in
  let r := Bp *m Rotation_y (beta a) *m Rotation_z (alpha a) in
  Ok (mkHState (<[j := x1]> (set_x s)) (<[j := z2]> (set_z s))
               (accumulate i j r (rmat s)) ret' (Some a)).

(** [zip(i.outs, xi, zi, p_rest)] *)
Fixpoint zip4 {A B C D : Type} (la : list A) (lb : list B) (lc : list C)
    (ld : list D) : list (A * B * C * D) :=
  match la, lb, lc, ld with
  | a :: la', b :: lb', c :: lc', d :: ld' => (a, b, c, d) :: zip4 la' lb' lc' ld'
  | _, _, _, _ => []
  end.

(** The body of the second loop of a three-body decay.  It reads the
    variable [ang], which the loop itself never assigns. *)
Definition three_body_step (i : Decay Particle)
    (t : Particle * Vec * Vec * Mom) (s : HState) : result HState :=
  let '(j, x1, z1, p_rest_i) := t in
  ret' ← set_part i j (mkPart None (Some x1) (Some z1) None) (ret s);
  let Bp := Boost_z_from_p p_rest_i in
  a ← match ang_var s with Some a => Ok a | None => Raise NameError end;
  let r := Bp *m Rotation_y (beta a) *m Rotation_z (alpha a) in
  Ok (mkHState (set_x s) (set_z s) (accumulate i j r (rmat s)) ret'
               (ang_var s)).

(** [[part_data[i]["rest_p"][j] for j in i.outs]] *)
Fixpoint rest_momenta (rp : gmap Particle Mom) (js : list Particle)
  : result (list Mom) :=
  match js with
  | [] => Ok []
  | j :: js' => p ← getitem rp j; ps ← rest_momenta rp js'; Ok (p :: ps)
  end.

Definition three_body_block (part_data : gmap (Decay Particle) (gmap Particle Mom))
    (i : Decay Particle) (s : HState) : result HState :=
  rp ← getitem part_data i;
  p_rest ← rest_momenta rp (outs i);
  let zi := map vect p_rest in
  zc ← getitem (set_z s) (core i);
  xc ← getitem (set_x s) (core i);
  let ang_xi := angle_zx_zzz_getx zc xc zi in
  let ja := ang_xi.1 in
  let xi := ang_xi.2 in
  ei ← getitem (ret s) i;
  let s := mkHState (set_x s) (set_z s) (rmat s)
             (<[i := mkEntry (parts ei) (Some ja)]> (ret s)) (ang_var s) in
  for_each (zip4 (outs i) xi zi p_rest) (three_body_step i) s.

(** The branch [if i.core in set_x] of the scan over [set_decay]. *)
Definition process_decay (part_data : gmap (Decay Particle) (gmap Particle Mom))
    (i : Decay Particle) (s : HState) : result HState :=
  let s := mkHState (set_x s) (set_z s) (rmat s)
             (<[i := empty_entry]> (ret s)) (ang_var s) in
  s ← for_each (outs i) (two_body_step part_data i) s;
  if decide (length (outs i) = 3) then three_body_block part_data i s
  else Ok s.

(** One pass [for i in set_decay]: the state, and [extra_decay]. *)
Fixpoint scan (part_data : gmap (Decay Particle) (gmap Particle Mom))
    (set_decay : list (Decay Particle)) (s : HState)
  : result (HState * list (Decay Particle)) :=
  match set_decay with
  | [] => Ok (s, [])
  | i :: rest =>
      match set_x s !! core i with
      | Some _ =>
          s' ← process_decay part_data i s;
          scan part_data rest s'
      | None =>
          r ← scan part_data rest s;
          Ok (r.1, i :: r.2)
      end
  end.

(** [while set_decay:], at most [fuel] passes; [None] when the passes are
    used up with decays left. *)
Fixpoint passes (fuel : nat)
    (part_data : gmap (Decay Particle) (gmap Particle Mom))
    (set_decay : list (Decay Particle)) (s : HState)
  : option (result HState) :=
  match set_decay with
  | [] => Some (Ok s)
  | _ :: _ =>
      match fuel with
      | O => None
      | S fuel' =>
          match scan part_data set_decay s with
          | Ok (s', extra_decay) => passes fuel' part_data extra_decay s'
          | Raise e => Some (Raise e)
          end
      end
  end.

Definition cal_helicity_angle_fuel (fuel : nat) (data : record)
    (decay_chain : DecayChain Particle) (base_z base_x : Vec)
  : option (result ChainData) :=
  match for_each (chain decay_chain) (rest_frame_body data) ∅ with
  | Raise e => Some (Raise e)
  | Ok part_data =>
      let s0 := mkHState {[top decay_chain := base_x]}
                         {[top decay_chain := base_z]} ∅ ∅ None in
      match passes fuel part_data (chain decay_chain) s0 with
      | None => None
      | Some (Raise e) => Some (Raise e)
      | Some (Ok s) => Some (Ok (mkChainData (ret s) (rmat s)))
      end
  end.

(** A pass that processes no decay repeats for ever; otherwise each pass
    removes a decay, so as many passes as decays are enough. *)
Definition cal_helicity_angle (data : record)
    (decay_chain : DecayChain Particle) (base_z base_x : Vec)
  : option (result ChainData) :=
  cal_helicity_angle_fuel (length (chain decay_chain)) data decay_chain
                          base_z base_x.

(** *** Alignment angles ([cal_angle_from_particle]) *)

(** A decay group: its top particle, its final-state particles and its
    chains in iteration order. *)
Record DecayGroup : Type := mkGroup {
  g_top : Particle;
  g_outs : list Particle;
  g_chains : list (DecayChain Particle)
}.

(** [decay_group.topology_structure()], from [particle.py]. *)
Variable topology_structure : DecayGroup -> list (DecayChain Particle).

Definition chain_struct (using_topology : bool) (decay_group : DecayGroup)
  : list (DecayChain Particle) :=
  if using_topology then topology_structure decay_group
  else g_chains decay_group.

Abbreviation decay_data_t := (gmap (DecayChain Particle) ChainData).

(** [for i in decay_chain_struct: decay_data[i] = cal_helicity_angle(...)] *)
Fixpoint helicity_all (data : record) (struct : list (DecayChain Particle))
    (base_z : Vec) (decay_data : decay_data_t)
  : option (result decay_data_t) :=
  match struct with
  | [] => Some (Ok decay_data)
  | i :: rest =>
      match cal_helicity_angle data i base_z unit_x with
      | None => None
      | Some (Raise e) => Some (Raise e)
      | Some (Ok data_i) =>
          helicity_all data rest base_z (<[i := data_i]> decay_data)
      end
  end.

(** The dictionaries [set_x] and [ref_matrix] of the reference particles. *)
Record RefState : Type := mkRef {
  ref_x : gmap Particle (DecayChain Particle * Decay Particle);
  ref_matrix : gmap Particle (DecayChain Particle)
}.

Definition set_ref (i : Particle) (decay_chain : DecayChain Particle)
    (decay : Decay Particle) (r : RefState) : RefState :=
  mkRef (<[i := (decay_chain, decay)]> (ref_x r))
        (<[i := decay_chain]> (ref_matrix r)).

(** References taken from the decays of the top particle: the body of
    each of the three nested loops. *)
Definition top_ref_out (decay_group : DecayGroup)
    (decay_chain : DecayChain Particle) (decay : Decay Particle)
    (i : Particle) (r : RefState) : RefState :=
  if decide (ref_x r !! i = None /\ i ∈ g_outs decay_group)
  then set_ref i decay_chain decay r else r.

Definition top_ref_decay (decay_group : DecayGroup)
    (decay_chain : DecayChain Particle) (decay : Decay Particle)
    (r : RefState) : RefState :=
  if decide (core decay = g_top decay_group)
  then for_pure (outs decay) (top_ref_out decay_group decay_chain decay) r
  else r.

Definition top_ref_chain (decay_group : DecayGroup)
    (decay_chain : DecayChain Particle) (r : RefState) : RefState :=
  for_pure (chain decay_chain) (top_ref_decay decay_group decay_chain) r.

Definition top_references (decay_group : DecayGroup)
    (struct : list (DecayChain Particle)) (r : RefState) : RefState :=
  for_pure struct (top_ref_chain decay_group) r.

(** [next(iter(decay_chain_struct))] *)
Definition first_chain (struct : list (DecayChain Particle))
  : result (DecayChain Particle) :=
  match struct with
  | c :: _ => Ok c
  | [] => Raise StopIteration
  end.

(** References of the remaining particles, taken from the first chain. *)
Definition fallback_out (i : Particle) (decay_chain : DecayChain Particle)
    (decay : Decay Particle) (j : Particle) (r : RefState) : RefState :=
  if decide (i = j) then set_ref i decay_chain decay r else r.

Definition fallback_chain (i : Particle) (decay_chain : DecayChain Particle)
    (r : RefState) : RefState :=
  for_pure (chain decay_chain) (fun decay =>
    for_pure (outs decay) (fallback_out i decay_chain decay)) r.

Definition fallback_particle (struct : list (DecayChain Particle))
    (i : Particle) (r : RefState) : result RefState :=
  match ref_x r !! i with
  | Some _ => Ok r
  | None =>
      decay_chain ← first_chain struct;
      Ok (fallback_chain i decay_chain r)
  end.

Definition first_chain_references (decay_group : DecayGroup)
    (struct : list (DecayChain Particle)) (r : RefState) : result RefState :=
  for_each (g_outs decay_group) (fallback_particle struct) r.

(** [decay_data[c][d][i]["aligned_angle"] = a] *)
Definition set_aligned (c : DecayChain Particle) (d : Decay Particle)
    (i : Particle) (a : EulerAngle event) (dd : decay_data_t)
  : result decay_data_t :=
  cd ← getitem dd c;
  e ← getitem (decays cd) d;
  pe ← getitem (parts e) i;
  let pe' := mkPart (ang pe) (x pe) (z pe) (Some a) in
  Ok (<[c := mkChainData
          (<[d := mkEntry (<[i := pe']> (parts e)) (joint_ang e)]> (decays cd))
          (r_matrix cd)]> dd).

Definition field {A : Type} (o : option A) : result A :=
  match o with
  | Some a => Ok a
  | None => Raise KeyError
  end.

(** The alignment angle of particle [i] in [decay_chain] against its
    reference. *)
Definition alignment (r_boost : bool) (r : RefState)
    (decay_chain : DecayChain Particle) (decay : Decay Particle)
    (i : Particle) (dd : decay_data_t) : result (EulerAngle event) :=
  ref ← getitem (ref_x r) i;
  let '(idx2, decay2) := ref in
  part_data2 ← (cd ← getitem dd idx2; getitem (decays cd) decay2);
  if r_boost then
    rm ← (cd ← getitem dd decay_chain; getitem (r_matrix cd) i);
    rc ← getitem (ref_matrix r) i;
    rm_ref ← (cd ← getitem dd rc; getitem (r_matrix cd) i);
    Ok (get_euler_angle (mat_copy rm_ref *m mat_inv rm))
  else
    part_data ← (cd ← getitem dd decay_chain; getitem (decays cd) decay);
    x1 ← (pe ← getitem (parts part_data) i; field (x pe));
    x2 ← (pe ← getitem (parts part_data2) i; field (x pe));
    z1 ← (pe ← getitem (parts part_data) i; field (z pe));
    z2 ← (pe ← getitem (parts part_data2) i; field (z pe));
    Ok (angle_zx_zx z1 x1 z2 x2).

(** The body of the innermost loop of the last loop nest. *)
Definition align_particle (r_boost : bool) (decay_group : DecayGroup)
    (r : RefState) (decay_chain : DecayChain Particle) (decay : Decay Particle)
    (i : Particle) (dd : decay_data_t) : result decay_data_t :=
  if decide (i ∈ g_outs decay_group) then
    ref ← getitem (ref_x r) i;
    if decide (decay_chain <> ref.1) then
      a ← alignment r_boost r decay_chain decay i dd;
      set_aligned decay_chain decay i a dd
    else Ok dd
  else Ok dd.

Definition align_all (r_boost : bool) (decay_group : DecayGroup)
    (struct : list (DecayChain Particle)) (r : RefState) (dd : decay_data_t)
  : result decay_data_t :=
  for_each struct (fun decay_chain dd =>
    for_each (chain decay_chain) (fun decay dd =>
      (* part_data = decay_data[decay_chain][decay] *)
      _ ← (cd ← getitem dd decay_chain; getitem (decays cd) decay);
      for_each (outs decay)
        (align_particle r_boost decay_group r decay_chain decay) dd) dd) dd.

Definition cal_angle_from_particle (data : record) (decay_group : DecayGroup)
    (using_topology random_z r_boost : bool) : option (result decay_data_t) :=
  let decay_chain_struct := chain_struct using_topology decay_group in
  match (d ← getitem data (g_top decay_group); get_p d) with
  | Raise e => Some (Raise e)
  | Ok p4 =>
      let base_z := global_z random_z p4 in
      match helicity_all data decay_chain_struct base_z ∅ with
      | None => None
      | Some (Raise e) => Some (Raise e)
      | Some (Ok decay_data) =>
          let r := top_references decay_group decay_chain_struct (mkRef ∅ ∅) in
          Some (r ← first_chain_references decay_group decay_chain_struct r;
                align_all r_boost decay_group decay_chain_struct r decay_data)
      end
  end.

(** *** Completeness of [cal_helicity_angle] on a rooted chain *)

Section Completeness.
Variable data : record.
Variable c : DecayChain Particle.

(** A particle is reached from the top through the decays of the chain. *)
Inductive reach : Particle -> Prop :=
| reach_top : reach (top c)
| reach_out d j : d ∈ chain c -> reach (core d) -> j ∈ outs d -> reach j.

(** Every decay of the chain hangs below the top particle. *)
Definition rooted : Prop := forall d, d ∈ chain c -> reach (core d).

(** The record holds a momentum for every particle of the chain. *)
Definition has_momenta : Prop :=
  forall d, d ∈ chain c ->
    is_Some (data !! core d ≫= pd_p)
    /\ forall j, j ∈ outs d -> is_Some (data !! j ≫= pd_p).

Definition complete_part (e : DecayEntry) (j : Particle) : Prop :=
  exists pe, parts e !! j = Some pe
             /\ is_Some (x pe) /\ is_Some (z pe) /\ aligned_angle pe = None.

(** What the returned record holds for a decay of the chain. *)
Definition complete_decay (cd : ChainData) (d : Decay Particle) : Prop :=
  (exists e, decays cd !! d = Some e /\ forall j, j ∈ outs d -> complete_part e j)
  /\ forall j, j ∈ outs d -> is_Some (r_matrix cd !! j).

Definition complete (cd : ChainData) : Prop :=
  forall d, d ∈ chain c -> complete_decay cd d.

(** The rest-frame table has every decay of the chain, with all of its
    outgoing particles. *)
Definition rest_frames_ok (pd : gmap (Decay Particle) (gmap Particle Mom)) : Prop :=
  forall d, d ∈ chain c ->
    exists rp, pd !! d = Some rp /\ forall j, j ∈ outs d -> is_Some (rp !! j).

Lemma read_momentum (k : Particle) :
  is_Some (data !! k ≫= pd_p) ->
  exists p, (d ← getitem data k; get_p d) = Ok p.
Proof.
  intros [p Hp]. exists p. unfold getitem.
  destruct (data !! k) as [d|]; [|discriminate]. simpl in *.
  unfold get_p. by rewrite Hp.
Qed.

Lemma rest_frame_outs (p_rest : Mom) (js : list Particle) :
  (forall j, j ∈ js -> is_Some (data !! j ≫= pd_p)) ->
  forall rp0 : gmap Particle Mom,
  exists rp,
    for_each js (fun j rest_p =>
       pj ← (d ← getitem data j; get_p d);
       Ok (<[j := rest_vector p_rest pj]> rest_p)) rp0 = Ok rp
    /\ (forall k, is_Some (rp0 !! k) -> is_Some (rp !! k))
    /\ forall j, j ∈ js -> is_Some (rp !! j).
Proof.
  induction js as [|j js IH]; intros Hjs rp0.
  - exists rp0. repeat split; [done|]. intros j Hj. by apply elem_of_nil in Hj.
  - destruct (read_momentum j) as [pj Hpj]; [apply Hjs; left|].
    destruct (IH (fun j' Hj' => Hjs j' (list_elem_of_further _ _ _ Hj'))
                 (<[j := rest_vector p_rest pj]> rp0)) as (rp & Hrun & Hmono & Hin).
    exists rp. rewrite for_each_cons, Hpj, !bind_Ok, Hrun.
    repeat split.
    + intros k Hk. apply Hmono. destruct (decide (j = k)) as [->|Hne].
      * rewrite lookup_insert_eq. eauto.
      * by rewrite lookup_insert_ne.
    + intros j' [->|Hj']%elem_of_cons; [|by apply Hin].
      apply Hmono. rewrite lookup_insert_eq. eauto.
Qed.

Lemma rest_frame_body_ok (d : Decay Particle) (p_rest : Mom)
    (rp : gmap Particle Mom) pd0 :
  (d ← getitem data (core d); get_p d) = Ok p_rest ->
  for_each (outs d) (fun j rest_p =>
       pj ← (d ← getitem data j; get_p d);
       Ok (<[j := rest_vector p_rest pj]> rest_p)) ∅ = Ok rp ->
  rest_frame_body data d pd0 = Ok (<[d := rp]> pd0).
Proof.
  intros Hp Hrp. unfold rest_frame_body. by rewrite Hp, bind_Ok, Hrp.
Qed.

Lemma rest_frames_complete :
  has_momenta ->
  exists pd, for_each (chain c) (rest_frame_body data) ∅ = Ok pd
             /\ rest_frames_ok pd.
Proof.
  intros Hdata.
  assert (Hgen : forall l pd0, (forall d, d ∈ l -> d ∈ chain c) ->
    exists pd, for_each l (rest_frame_body data) pd0 = Ok pd
      /\ (forall d, d ∈ l \/ (exists rp, pd0 !! d = Some rp
                                /\ forall j, j ∈ outs d -> is_Some (rp !! j)) ->
           exists rp, pd !! d = Some rp
                      /\ forall j, j ∈ outs d -> is_Some (rp !! j))).
  { induction l as [|d l IH]; intros pd0 Hl.
    - exists pd0. split; [done|]. intros d [Hd|Hd]; [by apply elem_of_nil in Hd|done].
    - destruct (Hdata d) as [Hcore Houts]; [apply Hl; left|].
      destruct (read_momentum _ Hcore) as [p_rest Hp].
      destruct (rest_frame_outs p_rest (outs d) Houts ∅) as (rp & Hrp & _ & Hin).
      destruct (IH (<[d := rp]> pd0)) as (pd & Hrun & Hpd).
      { intros d' Hd'. apply Hl. by right. }
      exists pd. rewrite for_each_cons.
      rewrite (rest_frame_body_ok d p_rest rp pd0 Hp Hrp), bind_Ok, Hrun.
      split; [done|].
      intros d' Hd'. apply Hpd.
      destruct (decide (d = d')) as [->|Hne].
      + right. exists rp. by rewrite lookup_insert_eq.
      + destruct Hd' as [[->|Hd']%elem_of_cons|Hd']; [done|by left|].
        right. by rewrite lookup_insert_ne. }
  destruct (Hgen (chain c) ∅) as (pd & Hrun & Hpd); [done|].
  exists pd. split; [done|]. intros d Hd. apply Hpd. by left.
Qed.

(** **** One decay *)

Variable pd : gmap (Decay Particle) (gmap Particle Mom).

(** Both axes are stored together. *)
Definition xz (s : HState) : Prop :=
  forall k, is_Some (set_x s !! k) -> is_Some (set_z s !! k).

Definition grows (s s' : HState) : Prop :=
  (forall k, is_Some (set_x s !! k) -> is_Some (set_x s' !! k))
  /\ (forall k, is_Some (set_z s !! k) -> is_Some (set_z s' !! k))
  /\ (forall k, is_Some (rmat s !! k) -> is_Some (rmat s' !! k)).

(** How the loops over the outgoing particles of decay [i] move the
    state. *)
Definition step_rel (i : Decay Particle) (s s' : HState) : Prop :=
  grows s s'
  /\ (forall d, d <> i -> ret s' !! d = ret s !! d)
  /\ (forall e, ret s !! i = Some e ->
        exists e', ret s' !! i = Some e'
                   /\ forall j, complete_part e j -> complete_part e' j)
  /\ (is_Some (ang_var s) -> is_Some (ang_var s'))
  /\ (xz s -> xz s').

Definition done_at (i : Decay Particle) (j : Particle) (s : HState) : Prop :=
  (exists e, ret s !! i = Some e /\ complete_part e j)
  /\ is_Some (rmat s !! j) /\ is_Some (set_x s !! j) /\ is_Some (set_z s !! j).

Lemma grows_refl s : grows s s.
Proof. by repeat split. Qed.

Lemma grows_trans s1 s2 s3 : grows s1 s2 -> grows s2 s3 -> grows s1 s3.
Proof.
  intros (Hx1 & Hz1 & Hr1) (Hx2 & Hz2 & Hr2). repeat split; eauto.
Qed.

Lemma step_rel_refl i s : step_rel i s s.
Proof.
  split; [apply grows_refl|]. repeat split; eauto.
Qed.

Lemma step_rel_trans i s1 s2 s3 :
  step_rel i s1 s2 -> step_rel i s2 s3 -> step_rel i s1 s3.
Proof.
  intros (Hg1 & Ho1 & He1 & Ha1 & Hxz1) (Hg2 & Ho2 & He2 & Ha2 & Hxz2).
  split; [by eapply grows_trans|]. repeat split; eauto.
  - intros d Hd. by rewrite Ho2, Ho1.
  - intros e He. destruct (He1 e He) as (e' & He' & Hc').
    destruct (He2 e' He') as (e'' & He'' & Hc''). eauto.
Qed.

Lemma done_at_mono i j s s' : step_rel i s s' -> done_at i j s -> done_at i j s'.
Proof.
  intros ((Hx & Hz & Hr) & _ & He & _) ((e & Hret & Hc) & Hrm & Hsx & Hsz).
  destruct (He e Hret) as (e' & He' & Hc').
  repeat split; eauto.
Qed.

Lemma set_part_ok (i : Decay Particle) (j : Particle) (pe : PartEntry)
    (ret0 : gmap (Decay Particle) DecayEntry) (e : DecayEntry) :
  ret0 !! i = Some e ->
  set_part i j pe ret0
  = Ok (<[i := mkEntry (<[j := pe]> (parts e)) (joint_ang e)]> ret0).
Proof. intros He. unfold set_part. by rewrite (getitem_Some _ _ _ He). Qed.

Lemma accumulate_new i j r rm : is_Some (accumulate i j r rm !! j).
Proof.
  unfold accumulate. destruct (rm !! core i); rewrite lookup_insert_eq; eauto.
Qed.

Lemma accumulate_old i j r rm k :
  is_Some (rm !! k) -> is_Some (accumulate i j r rm !! k).
Proof.
  intros Hk. unfold accumulate.
  destruct (rm !! core i); (destruct (decide (j = k)) as [->|Hne];
    [rewrite lookup_insert_eq; eauto|by rewrite lookup_insert_ne]).
Qed.

Lemma insert_keeps `{Countable K} {V : Type} (m : gmap K V) (j k : K) (v : V) :
  is_Some (m !! k) -> is_Some (<[j := v]> m !! k).
Proof.
  intros Hk. destruct (decide (j = k)) as [->|Hne];
    [rewrite lookup_insert_eq; eauto|by rewrite lookup_insert_ne].
Qed.

(** Storing a part with both axes keeps what the entry had and makes the
    part complete. *)
Lemma complete_part_insert (e : DecayEntry) (j : Particle) (pe : PartEntry) ja :
  is_Some (x pe) -> is_Some (z pe) -> aligned_angle pe = None ->
  complete_part (mkEntry (<[j := pe]> (parts e)) ja) j
  /\ forall j', complete_part e j' ->
                 complete_part (mkEntry (<[j := pe]> (parts e)) ja) j'.
Proof.
  intros Hx Hz Ha. split.
  - exists pe. simpl. by rewrite lookup_insert_eq.
  - intros j' (pe' & Hpe' & Hc). destruct (decide (j = j')) as [->|Hne].
    + exists pe. simpl. by rewrite lookup_insert_eq.
    + exists pe'. simpl. by rewrite lookup_insert_ne.
Qed.

Ltac read H := rewrite (getitem_Some _ _ _ H), bind_Ok; cbv beta zeta.

Lemma two_body_step_ok (i : Decay Particle) (rp : gmap Particle Mom)
    (j : Particle) (s : HState) :
  pd !! i = Some rp -> is_Some (rp !! j) ->
  is_Some (set_x s !! core i) -> is_Some (set_z s !! core i) ->
  is_Some (ret s !! i) ->
  exists s', two_body_step pd i j s = Ok s'
             /\ step_rel i s s' /\ done_at i j s' /\ is_Some (ang_var s').
Proof.
  intros Hpd [p Hp] [xc Hxc] [zc Hzc] [e He].
  unfold two_body_step. read Hpd. read Hp. read Hzc. read Hxc.
  rewrite (set_part_ok _ _ _ _ _ He), bind_Ok. cbv beta zeta.
  eexists. split; [reflexivity|].
  set (pe := mkPart _ _ _ _).
  destruct (complete_part_insert e j pe (joint_ang e)) as [Hnew Hold];
    [by eexists..|done|].
  split; [|split].
  - split; [|split; [|split; [|split]]]; simpl.
    + repeat split; intros k Hk; simpl;
        [by apply insert_keeps..|by apply accumulate_old].
    + intros d Hd. by rewrite lookup_insert_ne.
    + intros e0 He0. rewrite He in He0. injection He0 as <-.
      eexists. rewrite lookup_insert_eq. eauto.
    + eauto.
    + intros Hxz k. simpl. destruct (decide (j = k)) as [->|Hne].
      * rewrite !lookup_insert_eq. eauto.
      * rewrite !lookup_insert_ne by done. apply Hxz.
  - repeat split; simpl.
    + eexists. rewrite lookup_insert_eq. eauto.
    + apply accumulate_new.
    + rewrite lookup_insert_eq. eauto.
    + rewrite lookup_insert_eq. eauto.
  - simpl. eauto.
Qed.

Definition ready (i : Decay Particle) (s : HState) : Prop :=
  is_Some (set_x s !! core i) /\ is_Some (set_z s !! core i)
  /\ is_Some (ret s !! i).

Lemma ready_mono i s s' : step_rel i s s' -> ready i s -> ready i s'.
Proof.
  intros ((Hx & Hz & _) & _ & He & _) (Hsx & Hsz & [e Hret]).
  destruct (He e Hret) as (e' & He' & _). repeat split; eauto.
Qed.

Lemma two_body_loop (i : Decay Particle) (rp : gmap Particle Mom) :
  pd !! i = Some rp ->
  forall js s,
    (forall j, j ∈ js -> is_Some (rp !! j)) -> ready i s ->
    exists s', for_each js (two_body_step pd i) s = Ok s'
               /\ step_rel i s s'
               /\ (forall j, j ∈ js -> done_at i j s')
               /\ (js <> [] -> is_Some (ang_var s')).
Proof.
  intros Hpd. induction js as [|j js IH]; intros s Hjs Hready.
  - exists s. split; [done|]. split; [apply step_rel_refl|].
    split; [|done]. intros j Hj. by apply elem_of_nil in Hj.
  - destruct Hready as (Hsx & Hsz & Hret).
    destruct (two_body_step_ok i rp j s) as (s1 & Hrun1 & Hrel1 & Hdone1 & Hang1);
      [done|apply Hjs; left|done..|].
    destruct (IH s1) as (s2 & Hrun2 & Hrel2 & Hdone2 & _).
    { intros j' Hj'. apply Hjs. by right. }
    { eapply ready_mono; [exact Hrel1|done]. }
    exists s2. rewrite for_each_cons, Hrun1, bind_Ok.
    split; [done|]. split; [by eapply step_rel_trans|]. split.
    + intros j' [->|Hj']%elem_of_cons; [|by apply Hdone2].
      by eapply done_at_mono.
    + intros _. destruct Hrel2 as (_ & _ & _ & Hang & _). by apply Hang.
Qed.

Lemma three_body_step_ok (i : Decay Particle)
    (t : Particle * Vec * Vec * Mom) (s : HState) :
  is_Some (ret s !! i) -> is_Some (ang_var s) ->
  exists s', three_body_step i t s = Ok s' /\ step_rel i s s'.
Proof.
  intros [e He] [a Ha]. destruct t as [[[j x1] z1] p].
  unfold three_body_step.
  rewrite (set_part_ok _ _ _ _ _ He), bind_Ok, Ha, bind_Ok. cbv beta zeta.
  eexists. split; [reflexivity|].
  set (pe := mkPart _ _ _ _).
  destruct (complete_part_insert e j pe (joint_ang e)) as [Hnew Hold];
    [by eexists..|done|].
  split; [|split; [|split; [|split]]]; simpl.
  - repeat split; intros k Hk; simpl; [done..|by apply accumulate_old].
  - intros d Hd. by rewrite lookup_insert_ne.
  - intros e0 He0. rewrite He in He0. injection He0 as <-.
    eexists. rewrite lookup_insert_eq. eauto.
  - rewrite Ha. eauto.
  - done.
Qed.

Lemma three_body_loop (i : Decay Particle) :
  forall ts s,
    is_Some (ret s !! i) -> is_Some (ang_var s) ->
    exists s', for_each ts (three_body_step i) s = Ok s' /\ step_rel i s s'.
Proof.
  induction ts as [|t ts IH]; intros s Hret Hang.
  - exists s. split; [done|apply step_rel_refl].
  - destruct (three_body_step_ok i t s Hret Hang) as (s1 & Hrun1 & Hrel1).
    destruct (IH s1) as (s2 & Hrun2 & Hrel2).
    { destruct Hret as [e He].
      destruct Hrel1 as (_ & _ & Hent & _). destruct (Hent e He) as (e' & ? & _).
      eauto. }
    { destruct Hrel1 as (_ & _ & _ & Hang1 & _). by apply Hang1. }
    exists s2. rewrite for_each_cons, Hrun1, bind_Ok.
    split; [done|by eapply step_rel_trans].
Qed.

Lemma rest_momenta_ok (rp : gmap Particle Mom) (js : list Particle) :
  (forall j, j ∈ js -> is_Some (rp !! j)) ->
  exists ps, rest_momenta rp js = Ok ps.
Proof.
  induction js as [|j js IH]; intros Hjs; [by eexists|].
  destruct (Hjs j) as [p Hp]; [left|].
  destruct IH as [ps Hps]; [intros j' Hj'; apply Hjs; by right|].
  exists (p :: ps). simpl. by rewrite (getitem_Some _ _ _ Hp), bind_Ok, Hps.
Qed.

Lemma three_body_block_ok (i : Decay Particle) (rp : gmap Particle Mom)
    (s : HState) :
  pd !! i = Some rp -> (forall j, j ∈ outs i -> is_Some (rp !! j)) ->
  ready i s -> is_Some (ang_var s) ->
  exists s', three_body_block pd i s = Ok s' /\ step_rel i s s'.
Proof.
  intros Hpd Hrp ([xc Hxc] & [zc Hzc] & [e He]) Hang.
  destruct (rest_momenta_ok rp (outs i) Hrp) as [ps Hps].
  unfold three_body_block. read Hpd. rewrite Hps, bind_Ok. cbv beta zeta.
  read Hzc. read Hxc. read He.
  set (s1 := mkHState _ _ _ _ _).
  assert (Hrel1 : step_rel i s s1).
  { split; [by repeat split|]. split; [|split; [|split]]; simpl.
    - intros d Hd. by rewrite lookup_insert_ne.
    - intros e0 He0. rewrite He in He0. injection He0 as <-.
      eexists. rewrite lookup_insert_eq. split; [done|].
      intros j (pe & Hpe & Hc). by exists pe.
    - done.
    - done. }
  destruct (three_body_loop i
              (zip4 (outs i) (angle_zx_zzz_getx zc xc (map vect ps)).2
                    (map vect ps) ps) s1) as (s2 & Hrun & Hrel2).
  { simpl. rewrite lookup_insert_eq. eauto. }
  { done. }
  exists s2. split; [done|by eapply step_rel_trans].
Qed.

(** Processing a decay whose core has its axes completes it and leaves the
    other decays as they are. *)
Lemma process_decay_ok (i : Decay Particle) (rp : gmap Particle Mom)
    (s : HState) :
  pd !! i = Some rp -> (forall j, j ∈ outs i -> is_Some (rp !! j)) ->
  is_Some (set_x s !! core i) -> xz s ->
  exists s', process_decay pd i s = Ok s'
             /\ grows s s' /\ xz s'
             /\ (forall d, d <> i -> ret s' !! d = ret s !! d)
             /\ is_Some (ret s' !! i)
             /\ (forall j, j ∈ outs i -> done_at i j s').
Proof.
  intros Hpd Hrp Hsx Hxz. unfold process_decay.
  set (s0 := mkHState _ _ _ _ _).
  assert (Hready0 : ready i s0).
  { repeat split; simpl; [done|by apply Hxz|].
    rewrite lookup_insert_eq. eauto. }
  destruct (two_body_loop i rp Hpd (outs i) s0 Hrp Hready0)
    as (s1 & Hrun1 & Hrel1 & Hdone1 & Hang1).
  rewrite Hrun1, bind_Ok.
  assert (Hfrom : forall s', step_rel i s0 s' ->
            grows s s' /\ xz s'
            /\ (forall d, d <> i -> ret s' !! d = ret s !! d)
            /\ is_Some (ret s' !! i)).
  { intros s' Hrel. pose proof (ready_mono _ _ _ Hrel Hready0) as (_ & _ & Hret).
    destruct Hrel as (Hg & Ho & _ & _ & Hxz').
    split; [exact Hg|]. split; [by apply Hxz'|]. split; [|done].
    intros d Hd. rewrite (Ho d Hd). simpl. by rewrite lookup_insert_ne. }
  destruct (decide (length (outs i) = 3)) as [Hlen|Hlen].
  - destruct (three_body_block_ok i rp s1 Hpd Hrp) as (s2 & Hrun2 & Hrel2).
    { by eapply ready_mono. }
    { apply Hang1. intros E. by rewrite E in Hlen. }
    exists s2. split; [done|].
    destruct (Hfrom s2) as (? & ? & ? & ?); [by eapply step_rel_trans|].
    do 4 (split; [done|]).
    intros j Hj. eapply done_at_mono; [exact Hrel2|by apply Hdone1].
  - exists s1. split; [done|].
    destruct (Hfrom s1 Hrel1) as (? & ? & ? & ?).
    do 4 (split; [done|]). exact Hdone1.
Qed.

(** **** The passes over the chain *)

Definition covered (s : HState) (d : Decay Particle) : Prop :=
  is_Some (ret s !! d) /\ forall j, j ∈ outs d -> done_at d j s.

Definition in_rest_frames (d : Decay Particle) : Prop :=
  exists rp, pd !! d = Some rp /\ forall j, j ∈ outs d -> is_Some (rp !! j).

Lemma covered_keep (s s' : HState) (d : Decay Particle) :
  grows s s' -> ret s' !! d = ret s !! d -> covered s d -> covered s' d.
Proof.
  intros (Hx & Hz & Hr) Hret [Hsome Hdone]. split; [by rewrite Hret|].
  intros j Hj. destruct (Hdone j Hj) as ((e & He & Hc) & ? & ? & ?).
  repeat split; eauto. exists e. by rewrite Hret.
Qed.

Lemma process_decay_covers (i : Decay Particle) (s : HState) :
  in_rest_frames i -> is_Some (set_x s !! core i) -> xz s ->
  exists s', process_decay pd i s = Ok s'
             /\ grows s s' /\ xz s'
             /\ (forall d, covered s d -> covered s' d)
             /\ covered s' i.
Proof.
  intros (rp & Hpd & Hrp) Hsx Hxz.
  destruct (process_decay_ok i rp s Hpd Hrp Hsx Hxz)
    as (s' & Hrun & Hg & Hxz' & Hother & Hret & Hdone).
  exists s'. do 3 (split; [done|]). split; [|by split].
  intros d Hd. destruct (decide (d = i)) as [->|Hne]; [by split|].
  eapply covered_keep; [done|by apply Hother|done].
Qed.

Lemma scan_ok (l : list (Decay Particle)) :
  (forall d, d ∈ l -> in_rest_frames d) ->
  forall s, xz s ->
  exists s' extra,
    scan pd l s = Ok (s', extra)
    /\ grows s s' /\ xz s'
    /\ (forall d, covered s d -> covered s' d)
    /\ (forall d, d ∈ l -> d ∈ extra \/ covered s' d)
    /\ (forall d, d ∈ extra -> d ∈ l)
    /\ length extra <= length l
    /\ ((exists d, d ∈ l /\ is_Some (set_x s !! core d)) ->
        length extra < length l).
Proof.
  induction l as [|i l IH]; intros Hl s Hxz.
  - exists s, []. split; [done|]. split; [apply grows_refl|].
    split; [done|]. split; [done|].
    split; [intros d Hd; by apply elem_of_nil in Hd|].
    split; [done|]. split; [done|].
    intros (d & Hd & _). by apply elem_of_nil in Hd.
  - assert (Hl' : forall d, d ∈ l -> in_rest_frames d)
      by (intros d Hd; apply Hl; by right).
    simpl. destruct (set_x s !! core i) as [xc|] eqn:Hcore.
    + destruct (process_decay_covers i s) as (s1 & Hrun1 & Hg1 & Hxz1 & Hkeep1 & Hcov1);
        [apply Hl; left|by rewrite Hcore|done|].
      destruct (IH Hl' s1 Hxz1)
        as (s2 & extra & Hrun2 & Hg2 & Hxz2 & Hkeep2 & Hin2 & Hsub2 & Hlen2 & _).
      exists s2, extra. rewrite Hrun1, bind_Ok, Hrun2.
      split; [done|]. split; [by eapply grows_trans|]. split; [done|].
      split; [by auto|]. split; [|split; [|split]].
      * intros d [->|Hd]%elem_of_cons; [right; by apply Hkeep2|by apply Hin2].
      * intros d Hd. right. by apply Hsub2.
      * simpl. lia.
      * intros _. simpl. lia.
    + destruct (IH Hl' s Hxz)
        as (s2 & extra & Hrun2 & Hg2 & Hxz2 & Hkeep2 & Hin2 & Hsub2 & Hlen2 & Hprog2).
      exists s2, (i :: extra). rewrite Hrun2, bind_Ok. simpl.
      split; [done|]. split; [done|]. split; [done|]. split; [done|].
      split; [|split; [|split]].
      * intros d [->|Hd]%elem_of_cons; [left; by left|].
        destruct (Hin2 d Hd) as [?|?]; [left; by right|by right].
      * intros d [->|Hd]%elem_of_cons; [by left|right; by apply Hsub2].
      * simpl. lia.
      * intros (d & [->|Hd]%elem_of_cons & Hsome).
        -- rewrite Hcore in Hsome. by destruct Hsome.
        -- simpl. assert (length extra < length l) by (apply Hprog2; eauto). lia.
Qed.

(** While a decay is left, one of the decays left has a core with axes. *)
Lemma progress (l : list (Decay Particle)) (s : HState) :
  rooted -> is_Some (set_x s !! top c) ->
  (forall d, d ∈ chain c -> d ∈ l \/ covered s d) ->
  (forall d, d ∈ l -> d ∈ chain c) ->
  l <> [] ->
  exists d, d ∈ l /\ is_Some (set_x s !! core d).
Proof.
  intros Hrooted Htop Hsplit Hsub Hne.
  destruct (decide (Exists (fun d => is_Some (set_x s !! core d)) l))
    as [Hex|Hnone].
  { apply Exists_exists in Hex. destruct Hex as (d & Hd & Hsome).
    by exists d. }
  exfalso.
  assert (Hall : forall p, reach p -> is_Some (set_x s !! p)).
  { intros p Hp. induction Hp as [|d j Hd _ IH Hj]; [done|].
    destruct (Hsplit d Hd) as [Hleft|[_ Hdone]].
    - exfalso. apply Hnone, Exists_exists. by exists d.
    - by destruct (Hdone j Hj) as (_ & _ & ? & _). }
  destruct l as [|d0 l]; [done|].
  apply Hnone, Exists_exists. exists d0. split; [by left|].
  apply Hall, Hrooted, Hsub. by left.
Qed.

Lemma passes_ok :
  rooted -> (forall d, d ∈ chain c -> in_rest_frames d) ->
  forall fuel l s,
    length l <= fuel -> (forall d, d ∈ l -> d ∈ chain c) ->
    xz s -> is_Some (set_x s !! top c) ->
    (forall d, d ∈ chain c -> d ∈ l \/ covered s d) ->
    exists s', passes fuel pd l s = Some (Ok s')
               /\ forall d, d ∈ chain c -> covered s' d.
Proof.
  intros Hrooted Hpd. induction fuel as [|fuel IH]; intros l s Hlen Hsub Hxz Htop Hsplit.
  - destruct l; [|simpl in Hlen; lia].
    exists s. split; [done|]. intros d Hd.
    destruct (Hsplit d Hd) as [Hnil|?]; [by apply elem_of_nil in Hnil|done].
  - destruct l as [|d0 l].
    { exists s. split; [done|]. intros d Hd.
      destruct (Hsplit d Hd) as [Hnil|?]; [by apply elem_of_nil in Hnil|done]. }
    destruct (scan_ok (d0 :: l)) with (s := s)
      as (s1 & extra & Hrun & Hg & Hxz1 & Hkeep & Hin & Hsubx & _ & Hprog);
      [by auto|done|].
    assert (Hshort : length extra < length (d0 :: l)).
    { apply Hprog, progress; try done. }
    destruct (IH extra s1) as (s2 & Hrun2 & Hall).
    { simpl in *. lia. }
    { by auto. }
    { done. }
    { destruct Hg as (Hx & _). by apply Hx. }
    { intros d Hd. destruct (Hsplit d Hd) as [Hl|Hc]; [by apply Hin|].
      right. by apply Hkeep. }
    exists s2. split; [|done].
    change (passes (S fuel) pd (d0 :: l) s)
      with (match scan pd (d0 :: l) s with
            | Ok (s', extra_decay) => passes fuel pd extra_decay s'
            | Raise e => Some (Raise e)
            end).
    by rewrite Hrun.
Qed.

End Completeness.

(** On a rooted chain with all momenta, [cal_helicity_angle] returns, and
    the record it returns is complete: an entry for every decay and every
    outgoing particle, with both axes and no alignment angle yet, and an
    accumulated operator for every outgoing particle. *)
Lemma cal_helicity_angle_complete (data : record) (c : DecayChain Particle)
    (base_z base_x : Vec) :
  has_momenta data c -> rooted c ->
  exists cd, cal_helicity_angle data c base_z base_x = Some (Ok cd)
             /\ complete c cd.
Proof.
  intros Hdata Hrooted.
  destruct (rest_frames_complete data c Hdata) as (pd & Hpd & Hframes).
  unfold cal_helicity_angle, cal_helicity_angle_fuel. rewrite Hpd.
  set (s0 := mkHState _ _ _ _ _).
  destruct (passes_ok c pd Hrooted Hframes (length (chain c)) (chain c) s0)
    as (s' & Hrun & Hcov).
  - done.
  - done.
  - intros k. simpl. destruct (decide (top c = k)) as [->|Hne].
    + rewrite !lookup_singleton_eq. eauto.
    + rewrite !lookup_singleton_ne by done. by intros [? ?].
  - simpl. rewrite lookup_singleton_eq. eauto.
  - intros d Hd. by left.
  - rewrite Hrun. eexists. split; [reflexivity|].
    intros d Hd. destruct (Hcov d Hd) as [[e He] Hdone]. split; simpl.
    + exists e. split; [done|]. intros j Hj.
      destruct (Hdone j Hj) as ((e' & He' & Hc) & _). congruence.
    + intros j Hj. by destruct (Hdone j Hj) as (_ & ? & _).
Qed.

(** *** A decay that hangs below no decay of the chain *)

Section Unreachable.
Variable c : DecayChain Particle.
Variable pd : gmap (Decay Particle) (gmap Particle Mom).

(** Only particles reached from the top get axes. *)
Definition axes_reached (s : HState) : Prop :=
  forall k, is_Some (set_x s !! k) -> reach c k.

Lemma bind_Ok_inv {A B : Type} (r : result A) (k : A -> result B) (b : B) :
  (r ≫= k) = Ok b -> exists a, r = Ok a /\ k a = Ok b.
Proof. destruct r as [a|e]; [by exists a|done]. Qed.

(** What holds before a loop and is kept by every iteration that
    completes holds after the loop, if it completes. *)
Lemma for_each_kept {A St : Type} (I : St -> Prop) (l : list A)
    (body : A -> St -> result St) :
  (forall a s s', a ∈ l -> I s -> body a s = Ok s' -> I s') ->
  forall s s', I s -> for_each l body s = Ok s' -> I s'.
Proof.
  induction l as [|a l IH]; intros Hbody s s' Hs Hrun.
  - by injection Hrun as <-.
  - rewrite for_each_cons in Hrun.
    apply bind_Ok_inv in Hrun as (s1 & H1 & Hrun).
    apply (IH (fun a' s0 s0' Ha' => Hbody a' s0 s0' (list_elem_of_further _ _ _ Ha'))
              s1 s'); [|done].
    apply (Hbody a s s1); [by left|done|done].
Qed.

Lemma two_body_step_set_x (i : Decay Particle) (j : Particle) (s s' : HState) :
  two_body_step pd i j s = Ok s' ->
  forall k, is_Some (set_x s' !! k) -> k = j \/ is_Some (set_x s !! k).
Proof.
  unfold two_body_step. intros Hrun k.
  apply bind_Ok_inv in Hrun as (p_rest & _ & Hrun).
  apply bind_Ok_inv in Hrun as (zc & _ & Hrun).
  apply bind_Ok_inv in Hrun as (xc & _ & Hrun).
  cbv zeta in Hrun.
  apply bind_Ok_inv in Hrun as (ret' & _ & Hrun).
  injection Hrun as <-. simpl.
  destruct (decide (j = k)) as [->|Hne]; [by left|].
  rewrite lookup_insert_ne by done. by right.
Qed.

Lemma three_body_step_set_x (i : Decay Particle)
    (t : Particle * Vec * Vec * Mom) (s s' : HState) :
  three_body_step i t s = Ok s' -> set_x s' = set_x s.
Proof.
  destruct t as [[[j x1] z1] p_rest_i]. unfold three_body_step. intros Hrun.
  apply bind_Ok_inv in Hrun as (ret' & _ & Hrun).
  cbv zeta in Hrun.
  apply bind_Ok_inv in Hrun as (a & _ & Hrun).
  by injection Hrun as <-.
Qed.

Lemma three_body_block_set_x (i : Decay Particle) (s s' : HState) :
  three_body_block pd i s = Ok s' -> set_x s' = set_x s.
Proof.
  unfold three_body_block. intros Hrun.
  apply bind_Ok_inv in Hrun as (rp & _ & Hrun).
  apply bind_Ok_inv in Hrun as (p_rest & _ & Hrun).
  cbv zeta in Hrun.
  apply bind_Ok_inv in Hrun as (zc & _ & Hrun).
  apply bind_Ok_inv in Hrun as (xc & _ & Hrun).
  apply bind_Ok_inv in Hrun as (ei & _ & Hrun).
  revert Hrun. apply (for_each_kept (fun s1 => set_x s1 = set_x s)); [|done].
  intros t s1 s2 _ Hs1 Hstep. by rewrite (three_body_step_set_x _ _ _ _ Hstep).
Qed.

Lemma process_decay_reached (i : Decay Particle) (s s' : HState) :
  i ∈ chain c -> reach c (core i) -> axes_reached s ->
  process_decay pd i s = Ok s' -> axes_reached s'.
Proof.
  intros Hi Hcore Hs. unfold process_decay. cbv zeta. intros Hrun.
  apply bind_Ok_inv in Hrun as (s1 & Hloop & Hrun).
  assert (H1 : axes_reached s1).
  { revert Hloop. apply (for_each_kept axes_reached); [|exact Hs].
    intros j s2 s3 Hj Hs2 Hstep k Hk.
    destruct (two_body_step_set_x _ _ _ _ Hstep k Hk) as [->|Hold].
    - by apply (reach_out c i).
    - by apply Hs2. }
  destruct (decide (length (outs i) = 3)); [|by injection Hrun as <-].
  intros k Hk. apply H1. by rewrite <- (three_body_block_set_x _ _ _ Hrun).
Qed.

(** A pass keeps every decay whose core is not reached. *)
Lemma scan_reached (l : list (Decay Particle)) :
  (forall d, d ∈ l -> d ∈ chain c) ->
  forall s s' extra,
    axes_reached s -> scan pd l s = Ok (s', extra) ->
    axes_reached s'
    /\ forall d, d ∈ l -> ~ reach c (core d) -> d ∈ extra.
Proof.
  induction l as [|i l IH]; intros Hl s s' extra Hs Hrun.
  - injection Hrun as <- <-. split; [done|].
    intros d Hd. by apply elem_of_nil in Hd.
  - assert (Hl' : forall d, d ∈ l -> d ∈ chain c)
      by (intros d Hd; apply Hl; by right).
    cbn [scan] in Hrun. destruct (set_x s !! core i) as [xc|] eqn:Hcore.
    + apply bind_Ok_inv in Hrun as (s1 & H1 & Hrun).
      assert (Hreach : reach c (core i)) by (apply Hs; by rewrite Hcore).
      destruct (IH Hl' s1 s' extra) as [Hs' Hkeep]; [|done|].
      { apply (process_decay_reached i s); [apply Hl; by left|done..]. }
      split; [done|].
      intros d [->|Hd]%elem_of_cons Hno; [done|by apply Hkeep].
    + apply bind_Ok_inv in Hrun as ([s1 extra1] & H1 & Hrun).
      injection Hrun as <- <-.
      destruct (IH Hl' s s1 extra1 Hs H1) as [Hs' Hkeep].
      split; [done|].
      intros d [->|Hd]%elem_of_cons Hno; [by left|right; by apply Hkeep].
Qed.

(** With such a decay among those left, the loop never ends. *)
Lemma passes_unreachable (fuel : nat) :
  forall l s,
    (forall d, d ∈ l -> d ∈ chain c) ->
    (forall d, d ∈ l -> in_rest_frames pd d) ->
    xz s -> axes_reached s ->
    (exists d, d ∈ l /\ ~ reach c (core d)) ->
    passes fuel pd l s = None.
Proof.
  induction fuel as [|fuel IH]; intros l s Hl Hpd Hxz Hs (d & Hd & Hno).
  - destruct l; [by apply elem_of_nil in Hd|done].
  - destruct l as [|d0 l]; [by apply elem_of_nil in Hd|].
    destruct (scan_ok pd (d0 :: l) Hpd s Hxz)
      as (s1 & extra & Hrun & _ & Hxz1 & _ & _ & Hsub & _).
    destruct (scan_reached (d0 :: l) Hl s s1 extra Hs Hrun) as [Hs1 Hkeep].
    change (passes (S fuel) pd (d0 :: l) s)
      with (match scan pd (d0 :: l) s with
            | Ok (s', extra_decay) => passes fuel pd extra_decay s'
            | Raise e => Some (Raise e)
            end).
    rewrite Hrun. apply IH; try done.
    + intros d' Hd'. by apply Hl, Hsub.
    + intros d' Hd'. by apply Hpd, Hsub.
    + exists d. split; [by apply Hkeep|done].
Qed.

End Unreachable.

(** With all momenta given, a chain with a decay whose core is not reached
    from the top particle keeps [cal_helicity_angle] in its [while] loop
    for ever: no number of passes is enough. *)
Theorem cal_helicity_angle_unreachable (data : record)
    (c : DecayChain Particle) (base_z base_x : Vec) (d : Decay Particle) :
  has_momenta data c -> d ∈ chain c -> ~ reach c (core d) ->
  forall fuel, cal_helicity_angle_fuel fuel data c base_z base_x = None.
Proof.
  intros Hdata Hd Hno fuel.
  destruct (rest_frames_complete data c Hdata) as (pd & Hpd & Hframes).
  unfold cal_helicity_angle_fuel. rewrite Hpd.
  rewrite (passes_unreachable c pd fuel); [done|done| | | |].
  - intros d' Hd'. by apply Hframes.
  - intros k. simpl. destruct (decide (top c = k)) as [->|Hne].
    + rewrite !lookup_singleton_eq. eauto.
    + rewrite !lookup_singleton_ne by done. by intros [? ?].
  - intros k. simpl. destruct (decide (top c = k)) as [<-|Hne].
    + intros _. apply reach_top.
    + rewrite lookup_singleton_ne by done. by intros [? ?].
  - by exists d.
Qed.

(** *** The reference chain of a final-state particle *)

(** The first [Some] of a list. *)
Fixpoint first_some {V : Type} (l : list (option V)) : option V :=
  match l with
  | [] => None
  | Some v :: _ => Some v
  | None :: l' => first_some l'
  end.

Section Reference.
Variable g : DecayGroup.

(** In a decay of the top particle, [p] is an outgoing particle. *)
Definition top_daughter (p : Particle) (d : Decay Particle) : Prop :=
  core d = g_top g /\ p ∈ outs d.

Definition has_top_daughter (p : Particle) (c : DecayChain Particle) : Prop :=
  Exists (top_daughter p) (chain c).

(** The chain has [p] among the outgoing particles of its decays. *)
Definition contains (p : Particle) (c : DecayChain Particle) : Prop :=
  Exists (fun d => p ∈ outs d) (chain c).

#[local] Instance top_daughter_dec p d : Decision (top_daughter p d).
Proof. unfold top_daughter. apply _. Defined.

#[local] Instance has_top_daughter_dec p c : Decision (has_top_daughter p c).
Proof. unfold has_top_daughter. apply _. Defined.

#[local] Instance contains_dec p c : Decision (contains p c).
Proof. unfold contains. apply _. Defined.

(** The reference chain as the design states it: the first chain in which
    [p] is a daughter of the top particle, else the first chain that
    contains [p]. *)
Definition reference_chain (struct : list (DecayChain Particle)) (p : Particle)
  : option (DecayChain Particle) :=
  match list_find (has_top_daughter p) struct with
  | Some kc => Some kc.2
  | None => snd <$> list_find (contains p) struct
  end.

(** [ref_matrix] holds the chain of every entry of [set_x]. *)
Definition consistent (r : RefState) : Prop :=
  ref_matrix r = fst <$> ref_x r.

Lemma set_ref_consistent i c d r : consistent r -> consistent (set_ref i c d r).
Proof.
  unfold consistent, set_ref. simpl. intros ->. by rewrite fmap_insert.
Qed.

(** A loop whose steps write a key only when it is free keeps the first
    value offered for each key. *)
Lemma first_wins {A : Type} (step : A -> RefState -> RefState)
    (f : A -> Particle -> option (DecayChain Particle * Decay Particle)) :
  (forall a r p, ref_x (step a r) !! p
                 = match ref_x r !! p with Some v => Some v | None => f a p end) ->
  forall l r p,
    ref_x (for_pure l step r) !! p
    = match ref_x r !! p with
      | Some v => Some v
      | None => first_some (map (fun a => f a p) l)
      end.
Proof.
  intros Hstep. induction l as [|a l IH]; intros r p.
  - simpl. by destruct (ref_x r !! p).
  - rewrite for_pure_cons, IH, Hstep. simpl.
    destruct (ref_x r !! p); [done|]. by destruct (f a p).
Qed.

Lemma first_some_Some {V : Type} (l : list (option V)) (v : V) :
  first_some l = Some v -> Some v ∈ l.
Proof.
  induction l as [|[w|] l IH]; simpl; intros Hv; [done| |].
  - injection Hv as ->. by left.
  - right. by apply IH.
Qed.

Lemma first_some_None {V : Type} (l : list (option V)) :
  first_some l = None -> forall o, o ∈ l -> o = None.
Proof.
  induction l as [|[w|] l IH]; simpl; intros Hv o Ho.
  - by apply elem_of_nil in Ho.
  - done.
  - apply elem_of_cons in Ho as [->|Ho]; [done|by apply IH].
Qed.

(** What each level of the first loop nest offers for [p]. *)
Definition offer_out (c : DecayChain Particle) (d : Decay Particle)
    (i p : Particle) : option (DecayChain Particle * Decay Particle) :=
  if decide (i = p /\ p ∈ g_outs g) then Some (c, d) else None.

Definition offer_decay (c : DecayChain Particle) (d : Decay Particle)
    (p : Particle) : option (DecayChain Particle * Decay Particle) :=
  if decide (core d = g_top g)
  then first_some (map (fun i => offer_out c d i p) (outs d)) else None.

Definition offer_chain (c : DecayChain Particle) (p : Particle)
  : option (DecayChain Particle * Decay Particle) :=
  first_some (map (fun d => offer_decay c d p) (chain c)).

Lemma top_ref_out_lookup c d i r p :
  ref_x (top_ref_out g c d i r) !! p
  = match ref_x r !! p with Some v => Some v | None => offer_out c d i p end.
Proof.
  unfold top_ref_out, offer_out.
  destruct (decide (ref_x r !! i = None /\ i ∈ g_outs g)) as [[Hnone Hin]|Hno].
  - simpl. destruct (decide (i = p)) as [->|Hne].
    + rewrite lookup_insert_eq, Hnone. by rewrite decide_True.
    + rewrite lookup_insert_ne by done.
      destruct (ref_x r !! p); [done|]. rewrite decide_False; [done|tauto].
  - destruct (ref_x r !! p) eqn:Hp; [done|].
    rewrite decide_False; [done|]. intros [-> ?]. apply Hno. by split.
Qed.

Lemma top_ref_decay_lookup c d r p :
  ref_x (top_ref_decay g c d r) !! p
  = match ref_x r !! p with Some v => Some v | None => offer_decay c d p end.
Proof.
  unfold top_ref_decay, offer_decay.
  destruct (decide (core d = g_top g)).
  - apply (first_wins _ _ (top_ref_out_lookup c d)).
  - by destruct (ref_x r !! p).
Qed.

Lemma top_ref_chain_lookup c r p :
  ref_x (top_ref_chain g c r) !! p
  = match ref_x r !! p with Some v => Some v | None => offer_chain c p end.
Proof. apply (first_wins _ _ (top_ref_decay_lookup c)). Qed.

Lemma top_references_lookup struct p :
  ref_x (top_references g struct (mkRef ∅ ∅)) !! p
  = first_some (map (fun c => offer_chain c p) struct).
Proof.
  unfold top_references.
  rewrite (first_wins _ _ top_ref_chain_lookup). simpl.
  by rewrite lookup_empty.
Qed.

Lemma offer_chain_Some c p v :
  offer_chain c p = Some v ->
  v.1 = c /\ v.2 ∈ chain c /\ p ∈ outs v.2 /\ p ∈ g_outs g
  /\ has_top_daughter p c.
Proof.
  intros Hv. apply first_some_Some, list_elem_of_fmap in Hv as (d & Hd & Hin).
  unfold offer_decay in Hd. destruct (decide (core d = g_top g)) as [Hcore|]; [|done].
  symmetry in Hd. apply first_some_Some, list_elem_of_fmap in Hd as (i & Hi & Hiin).
  unfold offer_out in Hi. destruct (decide (i = p /\ p ∈ g_outs g)) as [[-> Hp]|]; [|done].
  injection Hi as ->. simpl. repeat split; try done.
  apply Exists_exists. exists d. by repeat split.
Qed.

Lemma offer_chain_None c p :
  offer_chain c p = None -> p ∈ g_outs g -> ~ has_top_daughter p c.
Proof.
  intros Hnone Hp Hex. apply Exists_exists in Hex as (d & Hd & Hcore & Hin).
  assert (Hmem : offer_decay c d p ∈ map (fun d => offer_decay c d p) (chain c))
    by (apply list_elem_of_fmap; by exists d).
  pose proof (first_some_None _ Hnone _ Hmem) as Hoff.
  unfold offer_decay in Hoff. rewrite decide_True in Hoff by done.
  assert (Hmem' : offer_out c d p p ∈ map (fun i => offer_out c d i p) (outs d))
    by (apply list_elem_of_fmap; by exists p).
  pose proof (first_some_None _ Hoff _ Hmem') as Hp'.
  unfold offer_out in Hp'. rewrite decide_True in Hp' by done.
  discriminate Hp'.
Qed.

(** After the first loop nest a final-state particle refers to the first
    chain in which it is a daughter of the top particle, if there is one. *)
Lemma top_references_first struct p :
  p ∈ g_outs g ->
  fst <$> (ref_x (top_references g struct (mkRef ∅ ∅)) !! p)
  = snd <$> list_find (has_top_daughter p) struct.
Proof.
  intros Hp. rewrite top_references_lookup.
  induction struct as [|c struct IH]; [done|].
  simpl. destruct (decide (has_top_daughter p c)) as [Hyes|Hno].
  - destruct (offer_chain c p) as [v|] eqn:Hoff.
    + simpl. by destruct (offer_chain_Some c p v Hoff) as (-> & _).
    + by destruct (offer_chain_None c p Hoff Hp).
  - destruct (offer_chain c p) as [v|] eqn:Hoff.
    + by destruct (offer_chain_Some c p v Hoff) as (_ & _ & _ & _ & ?).
    + rewrite IH. by destruct (list_find (has_top_daughter p) struct) as [[? ?]|].
Qed.

Lemma top_references_member struct p c d :
  ref_x (top_references g struct (mkRef ∅ ∅)) !! p = Some (c, d) ->
  c ∈ struct /\ d ∈ chain c /\ p ∈ outs d.
Proof.
  rewrite top_references_lookup. intros Hv.
  apply first_some_Some, list_elem_of_fmap in Hv as (c' & Hc' & Hin).
  symmetry in Hc'. destruct (offer_chain_Some c' p _ Hc') as (Hfst & Hd & Hp & _).
  simpl in *. by subst.
Qed.

Lemma top_references_consistent struct :
  consistent (top_references g struct (mkRef ∅ ∅)).
Proof.
  unfold top_references. apply for_pure_invariant.
  - intros c r _ Hr. unfold top_ref_chain. apply for_pure_invariant; [|done].
    intros d r' _ Hr'. unfold top_ref_decay. destruct (decide _); [|done].
    apply for_pure_invariant; [|done].
    intros i r'' _ Hr''. unfold top_ref_out. destruct (decide _); [|done].
    by apply set_ref_consistent.
  - unfold consistent. simpl. by rewrite fmap_empty.
Qed.

(** **** The fallback to the first chain *)

Lemma fallback_outs_spec (i : Particle) (c : DecayChain Particle)
    (d : Decay Particle) :
  forall js r,
    let r' := for_pure js (fallback_out i c d) r in
    (forall p, p <> i -> ref_x r' !! p = ref_x r !! p)
    /\ (i ∈ js \/ ref_x r !! i = Some (c, d) -> ref_x r' !! i = Some (c, d))
    /\ (i ∉ js -> ref_x r' !! i = ref_x r !! i)
    /\ (consistent r -> consistent r').
Proof.
  induction js as [|j js IH]; intros r; cbv zeta.
  - simpl. repeat split; try done. intros [Hin|?]; [by apply elem_of_nil in Hin|done].
  - rewrite for_pure_cons.
    destruct (IH (fallback_out i c d j r)) as (Hother & Hset & Hkeep & Hcons).
    cbv zeta in *.
    unfold fallback_out in *. destruct (decide (i = j)) as [<-|Hne].
    + split; [|split; [|split]].
      * intros p Hp. rewrite Hother by done. simpl. by rewrite lookup_insert_ne.
      * intros _. apply Hset. right. simpl. by rewrite lookup_insert_eq.
      * intros Hnot. exfalso. apply Hnot. by left.
      * intros Hr. by apply Hcons, set_ref_consistent.
    + split; [done|]. split; [|split; [|done]].
      * intros [[->|Hin]%elem_of_cons|Hr]; [done|apply Hset; by left|apply Hset; by right].
      * intros Hnot. apply Hkeep. intros Hin. apply Hnot. by right.
Qed.

Lemma fallback_decays_spec (i : Particle) (c : DecayChain Particle) :
  forall ds r,
    (forall d, d ∈ ds -> d ∈ chain c) ->
    let r' := for_pure ds (fun decay =>
                for_pure (outs decay) (fallback_out i c decay)) r in
    (forall p, p <> i -> ref_x r' !! p = ref_x r !! p)
    /\ (Exists (fun d => i ∈ outs d) ds
        \/ (exists d, ref_x r !! i = Some (c, d) /\ d ∈ chain c /\ i ∈ outs d) ->
        exists d, ref_x r' !! i = Some (c, d) /\ d ∈ chain c /\ i ∈ outs d)
    /\ (consistent r -> consistent r').
Proof.
  induction ds as [|d ds IH]; intros r Hsub; cbv zeta.
  - simpl. repeat split; try done. intros [Hex|?]; [by apply Exists_nil in Hex|done].
  - rewrite for_pure_cons.
    destruct (fallback_outs_spec i c d (outs d) r) as (Hother1 & Hset1 & Hkeep1 & Hcons1).
    destruct (IH (for_pure (outs d) (fallback_out i c d) r))
      as (Hother & Hset & Hcons).
    { intros d' Hd'. apply Hsub. by right. }
    cbv zeta in *.
    split; [|split].
    + intros p Hp. by rewrite Hother, Hother1.
    + intros Hcase. apply Hset.
      destruct (decide (i ∈ outs d)) as [Hin|Hnot].
      * right. exists d. split; [apply Hset1; by left|]. split; [apply Hsub; by left|done].
      * destruct Hcase as [[?|Hex]%Exists_cons|(d' & Hd' & ? & ?)]; [done|by left|].
        right. exists d'. by rewrite Hkeep1.
    + intros Hr. by apply Hcons, Hcons1.
Qed.

Lemma fallback_particle_spec (c0 : DecayChain Particle)
    (rest : list (DecayChain Particle)) (i : Particle) (r : RefState) :
  contains i c0 ->
  exists r', fallback_particle (c0 :: rest) i r = Ok r'
    /\ (forall p v, ref_x r !! p = Some v -> ref_x r' !! p = Some v)
    /\ (forall p, p <> i -> ref_x r' !! p = ref_x r !! p)
    /\ (ref_x r !! i = None ->
        exists d, ref_x r' !! i = Some (c0, d) /\ d ∈ chain c0 /\ i ∈ outs d)
    /\ (consistent r -> consistent r').
Proof.
  intros Hcont. unfold fallback_particle.
  destruct (ref_x r !! i) as [v|] eqn:Hi.
  - exists r. repeat split; try done.
  - simpl. eexists. split; [reflexivity|].
    destruct (fallback_decays_spec i c0 (chain c0) r) as (Hother & Hset & Hcons);
      [done|].
    fold (fallback_chain i c0 r) in Hother, Hset, Hcons.
    split; [|split; [done|split; [|done]]].
    + intros p v Hp. rewrite Hother; [done|]. intros ->. congruence.
    + intros _. apply Hset. by left.
Qed.

Lemma first_chain_references_spec (c0 : DecayChain Particle)
    (rest : list (DecayChain Particle)) :
  (forall p, p ∈ g_outs g -> contains p c0) ->
  forall r,
  exists r', first_chain_references g (c0 :: rest) r = Ok r'
    /\ (forall p v, ref_x r !! p = Some v -> ref_x r' !! p = Some v)
    /\ (forall p, p ∈ g_outs g -> ref_x r !! p = None ->
        exists d, ref_x r' !! p = Some (c0, d) /\ d ∈ chain c0 /\ p ∈ outs d)
    /\ (consistent r -> consistent r').
Proof.
  intros Hcont. unfold first_chain_references.
  assert (Hgen : forall l, (forall p, p ∈ l -> p ∈ g_outs g) -> forall r,
    exists r', for_each l (fallback_particle (c0 :: rest)) r = Ok r'
      /\ (forall p v, ref_x r !! p = Some v -> ref_x r' !! p = Some v)
      /\ (forall p, p ∈ l -> ref_x r !! p = None ->
          exists d, ref_x r' !! p = Some (c0, d) /\ d ∈ chain c0 /\ p ∈ outs d)
      /\ (consistent r -> consistent r')).
  { induction l as [|i l IH]; intros Hl r.
    - exists r. repeat split; try done. intros p Hp. by apply elem_of_nil in Hp.
    - destruct (fallback_particle_spec c0 rest i r) as (r1 & Hrun1 & Hkeep1 & Hother1 & Hset1 & Hcons1).
      { apply Hcont, Hl. by left. }
      destruct (IH (fun p Hp => Hl p (list_elem_of_further _ _ _ Hp)) r1)
        as (r2 & Hrun2 & Hkeep2 & Hset2 & Hcons2).
      exists r2. rewrite for_each_cons, Hrun1, bind_Ok.
      split; [done|]. split; [by eauto|]. split; [|by eauto].
      intros p Hp Hnone. destruct (decide (p = i)) as [->|Hne].
      + destruct (Hset1 Hnone) as (d & Hd & ? & ?). exists d. eauto.
      + apply elem_of_cons in Hp as [?|Hp]; [done|].
        apply Hset2; [done|]. by rewrite Hother1. }
  intros r. by apply Hgen.
Qed.

(** Both loops together: every final-state particle gets the reference
    chain of the design, with a decay of that chain that has the particle
    among its outgoing particles. *)
Lemma references_spec (struct : list (DecayChain Particle)) :
  struct <> [] ->
  (forall p c, p ∈ g_outs g -> c ∈ struct -> contains p c) ->
  exists r,
    first_chain_references g struct (top_references g struct (mkRef ∅ ∅)) = Ok r
    /\ consistent r
    /\ forall p, p ∈ g_outs g ->
        exists c d, ref_x r !! p = Some (c, d)
                    /\ reference_chain struct p = Some c
                    /\ c ∈ struct /\ d ∈ chain c /\ p ∈ outs d.
Proof.
  intros Hne Hcont. destruct struct as [|c0 rest]; [done|].
  set (r2 := top_references g (c0 :: rest) (mkRef ∅ ∅)).
  destruct (first_chain_references_spec c0 rest) with (r := r2)
    as (r3 & Hrun & Hkeep & Hset & Hcons).
  { intros p Hp. apply Hcont; [done|by left]. }
  exists r3. split; [done|]. split; [apply Hcons, top_references_consistent|].
  intros p Hp. pose proof (top_references_first (c0 :: rest) p Hp) as Hfirst.
  fold r2 in Hfirst. unfold reference_chain.
  destruct (ref_x r2 !! p) as [[c d]|] eqn:Hr2.
  - destruct (top_references_member (c0 :: rest) p c d Hr2) as (? & ? & ?).
    exists c, d. split; [by apply Hkeep|].
    destruct (list_find (has_top_daughter p) (c0 :: rest)) as [[k c']|];
      simpl in Hfirst; [|done].
    injection Hfirst as ->. by repeat split.
  - destruct (Hset p Hp Hr2) as (d & Hd & ? & ?).
    exists c0, d. split; [done|].
    destruct (list_find (has_top_daughter p) (c0 :: rest)) as [[k c']|];
      simpl in Hfirst; [done|].
    split; [|repeat split; [by left|done..]].
    simpl. rewrite decide_True; [done|]. apply Hcont; [done|by left].
Qed.

End Reference.

(** *** The alignment loop *)

(** The alignment angle stored for particle [i] of decay [d] in chain [c]. *)
Definition aligned_at (dd : decay_data_t) (c : DecayChain Particle)
    (d : Decay Particle) (i : Particle) : option (EulerAngle event) :=
  cd ← dd !! c; e ← decays cd !! d; pe ← parts e !! i; aligned_angle pe.

Lemma aligned_at_lookup (dd : decay_data_t) c cd d e i pe :
  dd !! c = Some cd -> decays cd !! d = Some e -> parts e !! i = Some pe ->
  aligned_at dd c d i = aligned_angle pe.
Proof.
  intros Hc Hd Hi. unfold aligned_at.
  rewrite Hc. simpl. rewrite Hd. simpl. by rewrite Hi.
Qed.

Section Alignment.
Variable g : DecayGroup.
Variable struct : list (DecayChain Particle).
Variable r : RefState.
Variable r_boost : bool.

Definition part_ok (e : DecayEntry) (j : Particle) : Prop :=
  exists pe, parts e !! j = Some pe /\ is_Some (x pe) /\ is_Some (z pe).

Definition shaped_chain (c : DecayChain Particle) (cd : ChainData) : Prop :=
  forall d, d ∈ chain c ->
    (exists e, decays cd !! d = Some e /\ forall j, j ∈ outs d -> part_ok e j)
    /\ forall j, j ∈ outs d -> is_Some (r_matrix cd !! j).

(** Every chain has its record, with all decays and particles. *)
Definition shaped (dd : decay_data_t) : Prop :=
  forall c, c ∈ struct -> exists cd, dd !! c = Some cd /\ shaped_chain c cd.

(** The references handed to the loop point into the chains. *)
Definition refs_ok : Prop :=
  consistent r
  /\ forall p, p ∈ g_outs g ->
       exists c d, ref_x r !! p = Some (c, d)
                   /\ c ∈ struct /\ d ∈ chain c /\ p ∈ outs d.

(** Particle [i] is a final-state particle whose reference is another
    chain than [c]. *)
Definition misaligned (c : DecayChain Particle) (i : Particle) : Prop :=
  i ∈ g_outs g /\ exists v, ref_x r !! i = Some v /\ c <> v.1.

(** Alignment angles are only added, and only where [misaligned] holds. *)
Definition adds (dd dd' : decay_data_t) : Prop :=
  (forall c d i, is_Some (aligned_at dd c d i) -> is_Some (aligned_at dd' c d i))
  /\ (forall c d i, is_Some (aligned_at dd' c d i) ->
        is_Some (aligned_at dd c d i) \/ misaligned c i).

Lemma adds_refl dd : adds dd dd.
Proof. split; intros c d i Hs; [done|by left]. Qed.

Lemma adds_trans dd1 dd2 dd3 : adds dd1 dd2 -> adds dd2 dd3 -> adds dd1 dd3.
Proof.
  intros [Hup1 Hdown1] [Hup2 Hdown2]. split; intros c d i Hs.
  - by apply Hup2, Hup1.
  - destruct (Hdown2 c d i Hs) as [Hs2|?]; [|by right]. by apply Hdown1.
Qed.

Lemma set_aligned_ok (c : DecayChain Particle) (d : Decay Particle)
    (i : Particle) (a : EulerAngle event) (dd : decay_data_t) :
  shaped dd -> c ∈ struct -> d ∈ chain c -> i ∈ outs d ->
  exists dd', set_aligned c d i a dd = Ok dd'
    /\ shaped dd'
    /\ is_Some (aligned_at dd' c d i)
    /\ (forall c' d' i', (c', d', i') <> (c, d, i) ->
        aligned_at dd' c' d' i' = aligned_at dd c' d' i').
Proof.
  intros Hshaped Hc Hd Hi.
  destruct (Hshaped c Hc) as (cd & Hcd & Hchain).
  destruct (Hchain d Hd) as ((e & He & Hparts) & Hrm).
  destruct (Hparts i Hi) as (pe & Hpe & Hx & Hz).
  unfold set_aligned.
  rewrite (getitem_Some _ _ _ Hcd), bind_Ok, (getitem_Some _ _ _ He), bind_Ok,
    (getitem_Some _ _ _ Hpe), bind_Ok. cbv beta zeta.
  eexists. split; [reflexivity|]. split; [|split].
  - intros c' Hc'. destruct (decide (c = c')) as [<-|Hne].
    + eexists. rewrite lookup_insert_eq. split; [done|].
      intros d' Hd'. simpl. destruct (Hchain d' Hd') as ((e' & He' & Hparts') & Hrm').
      split; [|done]. destruct (decide (d = d')) as [<-|Hned].
      * eexists. rewrite lookup_insert_eq. split; [done|].
        intros j Hj. unfold part_ok. simpl.
        destruct (decide (i = j)) as [<-|Hnej].
        -- eexists. rewrite lookup_insert_eq. by repeat split.
        -- destruct (Hparts j Hj) as (pe' & ? & ? & ?).
           exists pe'. by rewrite lookup_insert_ne.
      * exists e'. by rewrite lookup_insert_ne.
    + destruct (Hshaped c' Hc') as (cd' & ? & ?).
      exists cd'. by rewrite lookup_insert_ne.
  - erewrite aligned_at_lookup;
      [|apply lookup_insert_eq|simpl; apply lookup_insert_eq
       |simpl; apply lookup_insert_eq].
    simpl. eauto.
  - intros c' d' i' Hne. unfold aligned_at.
    destruct (decide (c = c')) as [<-|Hnec]; [|by rewrite lookup_insert_ne].
    rewrite lookup_insert_eq, Hcd. simpl.
    destruct (decide (d = d')) as [<-|Hned]; [|by rewrite lookup_insert_ne].
    rewrite lookup_insert_eq, He. simpl.
    destruct (decide (i = i')) as [<-|Hnei]; [done|by rewrite lookup_insert_ne].
Qed.

Lemma alignment_ok (c : DecayChain Particle) (d : Decay Particle)
    (i : Particle) (dd : decay_data_t) :
  shaped dd -> refs_ok -> c ∈ struct -> d ∈ chain c -> i ∈ outs d ->
  i ∈ g_outs g ->
  exists a, alignment r_boost r c d i dd = Ok a.
Proof.
  intros Hshaped [Hcons Hrefs] Hc Hd Hi Hout.
  destruct (Hrefs i Hout) as (c2 & d2 & Hr & Hc2 & Hd2 & Hi2).
  destruct (Hshaped c Hc) as (cd & Hcd & Hchain).
  destruct (Hchain d Hd) as ((e & He & Hparts) & Hrm).
  destruct (Hparts i Hi) as (pe & Hpe & [x1 Hx] & [z1 Hz]).
  destruct (Hrm i Hi) as [rm Hrmi].
  destruct (Hshaped c2 Hc2) as (cd2 & Hcd2 & Hchain2).
  destruct (Hchain2 d2 Hd2) as ((e2 & He2 & Hparts2) & Hrm2).
  destruct (Hparts2 i Hi2) as (pe2 & Hpe2 & [x2 Hx2] & [z2 Hz2]).
  destruct (Hrm2 i Hi2) as [rm2 Hrmi2].
  assert (Hrc : ref_matrix r !! i = Some c2).
  { rewrite Hcons, lookup_fmap, Hr. done. }
  unfold alignment.
  rewrite (getitem_Some _ _ _ Hr), bind_Ok. cbv beta zeta iota.
  rewrite (getitem_Some _ _ _ Hcd2), bind_Ok, (getitem_Some _ _ _ He2), bind_Ok.
  destruct r_boost.
  - rewrite (getitem_Some _ _ _ Hcd), bind_Ok, (getitem_Some _ _ _ Hrmi), bind_Ok,
      (getitem_Some _ _ _ Hrc), bind_Ok, (getitem_Some _ _ _ Hcd2), bind_Ok,
      (getitem_Some _ _ _ Hrmi2), bind_Ok.
    eauto.
  - rewrite (getitem_Some _ _ _ Hcd), bind_Ok, (getitem_Some _ _ _ He), bind_Ok.
    rewrite !(getitem_Some _ _ _ Hpe), !(getitem_Some _ _ _ Hpe2), !bind_Ok.
    rewrite Hx, Hx2, Hz, Hz2. simpl. eauto.
Qed.

Lemma align_particle_ok (c : DecayChain Particle) (d : Decay Particle)
    (i : Particle) (dd : decay_data_t) :
  refs_ok -> c ∈ struct -> d ∈ chain c -> i ∈ outs d -> shaped dd ->
  exists dd', align_particle r_boost g r c d i dd = Ok dd'
    /\ shaped dd' /\ adds dd dd'
    /\ (misaligned c i -> is_Some (aligned_at dd' c d i)).
Proof.
  intros Hrefs Hc Hd Hi Hshaped. unfold align_particle.
  destruct (decide (i ∈ g_outs g)) as [Hout|Hnot].
  - destruct Hrefs as [Hcons Hr]. destruct (Hr i Hout) as (c2 & d2 & Hri & _).
    rewrite (getitem_Some _ _ _ Hri), bind_Ok. simpl.
    destruct (decide (c <> c2)) as [Hne|Heq].
    + destruct (alignment_ok c d i dd Hshaped (conj Hcons Hr) Hc Hd Hi Hout)
        as [a Ha].
      destruct (set_aligned_ok c d i a dd Hshaped Hc Hd Hi)
        as (dd' & Hrun & Hshaped' & Hnew & Hother).
      exists dd'. rewrite Ha, bind_Ok. split; [done|]. split; [done|].
      split; [|done]. split; intros c' d' i' Hs.
      * destruct (decide ((c', d', i') = (c, d, i))) as [[= -> -> ->]|Hneq];
          [done|by rewrite Hother].
      * destruct (decide ((c', d', i') = (c, d, i))) as [[= -> -> ->]|Hneq].
        -- right. split; [done|]. by exists (c2, d2).
        -- left. by rewrite <- Hother.
    + exists dd. split; [done|]. split; [done|]. split; [apply adds_refl|].
      intros (_ & v & Hv & Hne). rewrite Hri in Hv. injection Hv as <-.
      simpl in Hne. exfalso. apply Heq. done.
  - exists dd. split; [done|]. split; [done|]. split; [apply adds_refl|].
    by intros [? _].
Qed.

Definition chain_aligned (c : DecayChain Particle) (dd : decay_data_t) : Prop :=
  forall d i, d ∈ chain c -> i ∈ outs d -> misaligned c i ->
              is_Some (aligned_at dd c d i).

Lemma align_all_ok (dd : decay_data_t) :
  refs_ok -> shaped dd ->
  exists dd', align_all r_boost g struct r dd = Ok dd'
    /\ shaped dd' /\ adds dd dd'
    /\ forall c, c ∈ struct -> chain_aligned c dd'.
Proof.
  intros Hrefs Hshaped. unfold align_all.
  apply (for_each_invariant shaped adds chain_aligned);
    [apply adds_refl|apply adds_trans| | |done].
  { intros c dd1 dd2 [Hup _] Hal d i Hd Hi Hm. by apply Hup, Hal. }
  intros c dd1 Hc Hshaped1.
  destruct (for_each_invariant shaped adds
    (fun d dd => forall i, i ∈ outs d -> misaligned c i ->
                           is_Some (aligned_at dd c d i))
    (chain c)
    (fun decay dd =>
       _ ← (cd ← getitem dd c; getitem (decays cd) decay);
       for_each (outs decay) (align_particle r_boost g r c decay) dd))
    with (s := dd1) as (dd2 & Hrun & Hshaped2 & Hadds & Hq);
    [apply adds_refl|apply adds_trans| | |done|].
  { intros d dda ddb [Hup _] Hal i Hi Hm. by apply Hup, Hal. }
  { intros d dda Hd Hshapeda.
    destruct (Hshapeda c Hc) as (cd & Hcd & Hchain).
    destruct (Hchain d Hd) as ((e & He & _) & _).
    rewrite (getitem_Some _ _ _ Hcd), bind_Ok, (getitem_Some _ _ _ He), bind_Ok.
    apply (for_each_invariant shaped adds
             (fun i dd => misaligned c i -> is_Some (aligned_at dd c d i)));
      [apply adds_refl|apply adds_trans| | |done].
    - intros i ddx ddy [Hup _] Hal Hm. by apply Hup, Hal.
    - intros i ddx Hi Hshapedx. by apply align_particle_ok. }
  exists dd2. split; [done|]. split; [done|]. split; [done|].
  intros d i Hd Hi. by apply Hq.
Qed.

End Alignment.

(** The first loop: one complete record per chain. *)
Lemma helicity_all_ok (data : record) (base_z : Vec) :
  forall (l : list (DecayChain Particle)) (dd : decay_data_t),
    (forall c, c ∈ l -> has_momenta data c /\ rooted c) ->
    exists dd', helicity_all data l base_z dd = Some (Ok dd')
      /\ forall c, c ∈ l \/ (exists cd, dd !! c = Some cd /\ complete c cd) ->
                    exists cd, dd' !! c = Some cd /\ complete c cd.
Proof.
  induction l as [|c l IH]; intros dd Hl.
  - exists dd. split; [done|]. intros c [Hc|?]; [by apply elem_of_nil in Hc|done].
  - destruct (Hl c) as [Hdata Hrooted]; [by left|].
    destruct (cal_helicity_angle_complete data c base_z unit_x Hdata Hrooted)
      as (cd & Hrun & Hcomplete).
    destruct (IH (<[c := cd]> dd)) as (dd' & Hrun' & Hdd').
    { intros c' Hc'. apply Hl. by right. }
    exists dd'. simpl. rewrite Hrun. split; [done|].
    intros c' Hc'. apply Hdd'.
    destruct (decide (c = c')) as [<-|Hne].
    + right. exists cd. by rewrite lookup_insert_eq.
    + destruct Hc' as [[->|?]%elem_of_cons|?]; [done|by left|].
      right. by rewrite lookup_insert_ne.
Qed.

(** C4: on a group whose chains are rooted, have their momenta and all
    contain every final-state particle, [cal_angle_from_particle] returns,
    and for every final-state particle [p] the chain stored in [set_x] and
    [ref_matrix] is the reference chain of the design -- the first chain
    in which [p] is a daughter of the top particle, else the first chain
    containing [p] -- and [p] has an alignment angle in a chain exactly
    when that chain is not the reference. *)
Theorem reference_chain_alignment (data : record) (g : DecayGroup)
    (using_topology random_z r_boost : bool) :
  chain_struct using_topology g <> [] ->
  is_Some (data !! g_top g ≫= pd_p) ->
  (forall c, c ∈ chain_struct using_topology g ->
             has_momenta data c /\ rooted c) ->
  (forall p c, p ∈ g_outs g -> c ∈ chain_struct using_topology g ->
               contains p c) ->
  exists dd r,
    cal_angle_from_particle data g using_topology random_z r_boost
    = Some (Ok dd)
    /\ first_chain_references g (chain_struct using_topology g)
         (top_references g (chain_struct using_topology g) (mkRef ∅ ∅))
       = Ok r
    /\ forall p, p ∈ g_outs g ->
        exists ref,
          reference_chain g (chain_struct using_topology g) p = Some ref
          /\ fst <$> ref_x r !! p = Some ref
          /\ ref_matrix r !! p = Some ref
          /\ ref ∈ chain_struct using_topology g
          /\ forall c d, c ∈ chain_struct using_topology g ->
                d ∈ chain c -> p ∈ outs d ->
                (is_Some (aligned_at dd c d p) <-> c <> ref).
Proof.
  intros Hne Htop Hchains Hcont.
  set (struct := chain_struct using_topology g) in *.
  destruct (read_momentum data _ Htop) as [p4 Hp4].
  destruct (helicity_all_ok data (global_z random_z p4) struct ∅ Hchains)
    as (dd0 & Hrun0 & Hdd0).
  destruct (references_spec g struct Hne Hcont) as (r & Hrefs & Hcons & Hr).
  assert (Hrefs_ok : refs_ok g struct r).
  { split; [done|]. intros p Hp.
    destruct (Hr p Hp) as (c & d & ? & _ & ? & ? & ?). by exists c, d. }
  assert (Hshaped : shaped struct dd0).
  { intros c Hc. destruct (Hdd0 c) as (cd & Hcd & Hcomplete); [by left|].
    exists cd. split; [done|]. intros d Hd.
    destruct (Hcomplete d Hd) as ((e & He & Hparts) & Hrm).
    split; [|done]. exists e. split; [done|]. intros j Hj.
    destruct (Hparts j Hj) as (pe & ? & ? & ? & _). by exists pe. }
  assert (Hnone : forall c d i, c ∈ struct -> d ∈ chain c -> i ∈ outs d ->
                                aligned_at dd0 c d i = None).
  { intros c d i Hc Hd Hi. destruct (Hdd0 c) as (cd & Hcd & Hcomplete); [by left|].
    destruct (Hcomplete d Hd) as ((e & He & Hparts) & _).
    destruct (Hparts i Hi) as (pe & Hpe & _ & _ & Ha).
    by rewrite (aligned_at_lookup dd0 c cd d e i pe). }
  destruct (align_all_ok g struct r r_boost dd0 Hrefs_ok Hshaped)
    as (dd & Hrun & _ & [_ Hdown] & Haligned).
  exists dd, r. split; [|split; [done|]].
  - unfold cal_angle_from_particle. fold struct. rewrite Hp4, Hrun0.
    by rewrite Hrefs, bind_Ok, Hrun.
  - intros p Hp. destruct (Hr p Hp) as (ref & dref & Hrp & Href & Hin & _).
    exists ref. split; [done|]. split; [by rewrite Hrp|].
    split; [by rewrite Hcons, lookup_fmap, Hrp|]. split; [done|].
    intros c d Hc Hd Hi. split.
    + intros Hs. destruct (Hdown c d p Hs) as [Hold|(_ & v & Hv & Hneq)].
      * rewrite Hnone in Hold by done. by destruct Hold.
      * rewrite Hrp in Hv. by injection Hv as <-.
    + intros Hneq. apply (Haligned c Hc d p Hd Hi).
      split; [done|]. by exists (ref, dref).
Qed.

End Calculator.

(** *** A single vertex below the top particle *)

Section SingleVertex.
Context {event Mom Vec Mat : Type}.

(** The operations of the angle library, the joint routine returning the
    three x axes of a three-body vertex. *)
Variable lib_rest_vector : Mom -> Mom -> Mom.
Variable lib_vect : Mom -> Vec.
Variable lib_angle_zx_z_getx : Vec -> Vec -> Vec -> EulerAngle event * Vec.
Variable lib_joint : Vec -> Vec -> list Vec -> EulerAngle event * (Vec * Vec * Vec).
Variable lib_angle_zx_zx : Vec -> Vec -> Vec -> Vec -> EulerAngle event.
Variable lib_Boost_z_from_p : Mom -> Mat.
Variable lib_Rotation_y : batch (event := event) -> Mat.
Variable lib_Rotation_z : batch (event := event) -> Mat.
Variable lib_mul : Mat -> Mat -> Mat.
Variable lib_inv : Mat -> Mat.
Variable lib_copy : Mat -> Mat.
Variable lib_get_euler_angle : Mat -> EulerAngle event.
Variable lib_global_z : bool -> Mom -> Vec.
Variable lib_unit_x : Vec.

#[local] Instance lib : AngleLib event Mom Vec Mat := {|
  rest_vector := lib_rest_vector;
  vect := lib_vect;
  angle_zx_z_getx := lib_angle_zx_z_getx;
  angle_zx_zzz_getx := fun zc xc zs =>
    let r := lib_joint zc xc zs in (r.1, [r.2.1.1; r.2.1.2; r.2.2]);
  angle_zx_zx := lib_angle_zx_zx;
  Boost_z_from_p := lib_Boost_z_from_p;
  Rotation_y := lib_Rotation_y;
  Rotation_z := lib_Rotation_z;
  mat_mul := lib_mul;
  mat_inv := lib_inv;
  mat_copy := lib_copy;
  get_euler_angle := lib_get_euler_angle;
  global_z := lib_global_z;
  unit_x := lib_unit_x
|}.

Infix "*m" := lib_mul (at level 40, left associativity).

Variables p0 p1 p2 p3 : Mom.
Variables base_z base_x : Vec.

Definition with_momentum (p : Mom) : ParticleData (event := event) Mom :=
  mkPD (Some p) None.

(** Particle 0 decays; particles 1, 2, 3 are its daughters. *)
Definition vertex_data : gmap nat (ParticleData (event := event) Mom) :=
  <[0 := with_momentum p0]> (<[1 := with_momentum p1]>
    (<[2 := with_momentum p2]> (<[3 := with_momentum p3]> ∅))).

Definition two_body_chain : DecayChain nat := mkChain 0 [mkDecay 0 [1; 2]].
Definition three_body_chain : DecayChain nat := mkChain 0 [mkDecay 0 [1; 2; 3]].

(** The helicity angle of a daughter with momentum [p], from the axes of
    the top particle. *)
Definition own_angle (p : Mom) : EulerAngle event :=
  (lib_angle_zx_z_getx base_z base_x (lib_vect (lib_rest_vector p0 p))).1.

(** The operator with the boost of the daughter of momentum [p] and the
    helicity angles of the daughter of momentum [q]. *)
Definition mixed_operator (p q : Mom) : Mat :=
  lib_Boost_z_from_p (lib_rest_vector p0 p)
  *m lib_Rotation_y (beta (own_angle q)) *m lib_Rotation_z (alpha (own_angle q)).

(** The operator the design gives a daughter of the top particle: its own
    boost and its own angles. *)
Definition own_operator (p : Mom) : Mat := mixed_operator p p.

(** On a two-body vertex each daughter gets its own operator. *)
Lemma two_body_r_matrix :
  exists cd,
    cal_helicity_angle vertex_data two_body_chain base_z base_x = Some (Ok cd)
    /\ r_matrix cd !! 1 = Some (own_operator p1)
    /\ r_matrix cd !! 2 = Some (own_operator p2).
Proof.
  eexists. split; [vm_compute; reflexivity|].
  split; vm_compute; reflexivity.
Qed.

(** C2 on a three-body vertex, for every angle library: the second loop
    overwrites the operator of each daughter with its own boost and the
    Euler angles of the last daughter, so only the last daughter keeps the
    operator of the design. *)
Theorem three_body_r_matrix :
  exists cd,
    cal_helicity_angle vertex_data three_body_chain base_z base_x = Some (Ok cd)
    /\ r_matrix cd !! 1 = Some (mixed_operator p1 p3)
    /\ r_matrix cd !! 2 = Some (mixed_operator p2 p3)
    /\ r_matrix cd !! 3 = Some (own_operator p3).
Proof.
  eexists. split; [vm_compute; reflexivity|].
  repeat split; vm_compute; reflexivity.
Qed.

End SingleVertex.

(** *** A symbolic angle library *)

(** Group elements as words over their factors, so that two operators are
    equal only when they are built from the same factors. *)
#[local] Unset Elimination Schemes.
Inductive factor : Type :=
| FBoost (p : R)
| FRotY (b : R)
| FRotZ (a : R)
| FInv (w : list factor)
| FCopy (w : list factor).
#[local] Set Elimination Schemes.

Definition const_angle (a b c : R) : EulerAngle unit :=
  mkAngle (fun _ => a) (fun _ => b) (fun _ => c).

(** Momenta and axes are labelled by one number; a daughter of label [q]
    has helicity angles [alpha = q], [beta = 10 * q]. *)
Definition symbolic_angle (zc xc z2 : R) : EulerAngle unit * R :=
  (const_angle z2 (10 * z2)%R 0%R, (z2 + 1)%R).

Definition symbolic_joint (zc xc : R) (zs : list R)
  : EulerAngle unit * (R * R * R) :=
  (const_angle 0%R 0%R 0%R, (0, 0, 0)%R).

Definition symbolic_lib : AngleLib unit R R (list factor) :=
  lib (fun _ q => q) (fun q => q) symbolic_angle symbolic_joint
      (fun _ _ _ _ => const_angle 0%R 0%R 0%R)
      (fun p => [FBoost p]) (fun b => [FRotY (b tt)])
      (fun a => [FRotZ (a tt)]) (@app factor)
      (fun w => [FInv w]) (fun w => [FCopy w])
      (fun _ => const_angle 0%R 0%R 0%R) (fun _ q => q) 1%R.

(** C2 at the vertex [0 -> 1 + 2 + 3] with daughters labelled 1, 2, 3 in
    the symbolic library: the operator stored for daughter 1 carries the
    angles of daughter 3 and differs from the one built from its own. *)
Lemma three_body_first_daughter_differs :
  let run := cal_helicity_angle (H := symbolic_lib)
      (vertex_data 0%R 1%R 2%R 3%R) three_body_chain 0%R 1%R in
  exists cd,
    run = Some (Ok cd)
    /\ r_matrix cd !! 1 = Some [FBoost 1%R; FRotY (10 * 3)%R; FRotZ 3%R]
    /\ r_matrix cd !! 1 <> Some [FBoost 1%R; FRotY (10 * 1)%R; FRotZ 1%R].
Proof.
  eexists. split; [vm_compute; reflexivity|].
  split; [vm_compute; reflexivity|].
  vm_compute. intros [= E _]. lra.
Qed.

(** *** A group of three chains *)

(** The final state 1, 2, 3 below the top particle 0, reached through the
    intermediate particle 4 = (1, 2), 5 = (1, 3) or 6 = (2, 3). *)
Definition chain12 : DecayChain nat :=
  mkChain 0 [mkDecay 0 [4; 3]; mkDecay 4 [1; 2]].
Definition chain13 : DecayChain nat :=
  mkChain 0 [mkDecay 0 [5; 2]; mkDecay 5 [1; 3]].
Definition chain23 : DecayChain nat :=
  mkChain 0 [mkDecay 0 [6; 1]; mkDecay 6 [2; 3]].

Definition three_chains : DecayGroup (Particle := nat) :=
  mkGroup 0 [1; 2; 3] [chain12; chain13; chain23].

Definition three_chains_data : gmap nat (ParticleData (event := unit) R) :=
  list_to_map (map (fun k => (k, with_momentum (INR k))) (seq 0 7)).

Ltac in_list :=
  repeat match goal with
    | H : _ ∈ _ :: _ |- _ => apply elem_of_cons in H; destruct H as [H|H]
    | H : _ ∈ [] |- _ => by apply elem_of_nil in H
    end;
  subst.

Lemma three_chains_momenta (c : DecayChain nat) :
  c ∈ g_chains three_chains -> has_momenta three_chains_data c /\ rooted c.
Proof.
  intros Hc. simpl in Hc. in_list.
  all: split;
    [intros d Hd; simpl in Hd; in_list;
       (split; [vm_compute; eauto|]); intros j Hj; simpl in Hj; in_list;
       vm_compute; eauto
    |intros d Hd; simpl in Hd; in_list; simpl; [apply reach_top|]].
  - apply (reach_out chain12 (mkDecay 0 [4; 3]));
      [by left|apply reach_top|by left].
  - apply (reach_out chain13 (mkDecay 0 [5; 2]));
      [by left|apply reach_top|by left].
  - apply (reach_out chain23 (mkDecay 0 [6; 1]));
      [by left|apply reach_top|by left].
Qed.

Lemma three_chains_contain (p : nat) (c : DecayChain nat) :
  p ∈ g_outs three_chains -> c ∈ g_chains three_chains -> contains p c.
Proof.
  intros Hp Hc. simpl in Hp, Hc. unfold contains. in_list; simpl.
  all: apply (bool_decide_unpack _); by vm_compute.
Qed.

(** C4 on the three chains, with the chains of the group as its topology
    structure. *)
Lemma reference_chain_alignment_witness :
  exists dd r,
    cal_angle_from_particle (H := symbolic_lib) g_chains three_chains_data
      three_chains true true true = Some (Ok dd)
    /\ first_chain_references three_chains
         (chain_struct g_chains true three_chains)
         (top_references three_chains
            (chain_struct g_chains true three_chains) (mkRef ∅ ∅))
       = Ok r
    /\ forall p, p ∈ g_outs three_chains ->
        exists ref,
          reference_chain three_chains (chain_struct g_chains true three_chains) p
          = Some ref
          /\ fst <$> ref_x r !! p = Some ref
          /\ ref_matrix r !! p = Some ref
          /\ ref ∈ chain_struct g_chains true three_chains
          /\ forall c d, c ∈ chain_struct g_chains true three_chains ->
                d ∈ chain c -> p ∈ outs d ->
                (is_Some (aligned_at (event := unit) (Vec := R)
                            (Mat := list factor) dd c d p) <-> c <> ref).
Proof.
  apply (reference_chain_alignment (H := symbolic_lib) g_chains
           three_chains_data three_chains true true true).
  - discriminate.
  - vm_compute. eauto.
  - exact three_chains_momenta.
  - exact three_chains_contain.
Defined.

(** The references of the three final-state particles. *)
Example three_chains_references :
  map (reference_chain three_chains (g_chains three_chains)) [1; 2; 3]
  = [Some chain23; Some chain13; Some chain12].
Proof. vm_compute. reflexivity. Qed.

(** *** A chain with a stray decay *)

(** The decay of particle 7, which no decay of the chain produces. *)
Definition stray_chain : DecayChain nat :=
  mkChain 0 [mkDecay 0 [1; 2]; mkDecay 7 [3; 4]].

Definition stray_data : gmap nat (ParticleData (event := unit) R) :=
  list_to_map (map (fun k => (k, with_momentum (INR k))) (seq 0 8)).

Lemma stray_momenta : has_momenta stray_data stray_chain.
Proof.
  intros d Hd. simpl in Hd. in_list.
  all: (split; [vm_compute; eauto|]); intros j Hj; simpl in Hj; in_list;
    vm_compute; eauto.
Qed.

Lemma stray_unreached : ~ reach stray_chain 7.
Proof.
  intros Hr. inversion Hr as [Htop|d j Hd Hcore Hj]; try done.
  simpl in Hd. in_list; simpl in Hj; apply (bool_decide_pack _) in Hj;
    by vm_compute in Hj.
Qed.

Lemma cal_helicity_angle_unreachable_witness :
  cal_helicity_angle_fuel (H := symbolic_lib) 1000 stray_data stray_chain
                          0%R 1%R = None.
Proof.
  apply (cal_helicity_angle_unreachable (H := symbolic_lib)
           stray_data stray_chain 0%R 1%R (mkDecay 7 [3; 4])).
  - exact stray_momenta.
  - simpl. right. by left.
  - exact stray_unreached.
Defined.

End Helicity.

(** ** The Wigner rotation engine ([dfun.py]) *)

Module Wigner.
#[local] Open Scope R_scope.

(** *** Complex numbers and tensors *)

(** A complex number, real and imaginary part. *)
Definition C : Type := (R * R)%type.

Definition Cadd (u v : C) : C := (u.1 + v.1, u.2 + v.2).
Definition Cmul (u v : C) : C := (u.1 * v.1 - u.2 * v.2, u.1 * v.2 + u.2 * v.1).
Definition Cconj (u : C) : C := (u.1, - u.2).

(** [tf.exp] on a complex number. *)
Definition Cexp (u : C) : C := (exp u.1 * cos u.2, exp u.1 * sin u.2).

(** [tf.complex(d, tf.zeros_like(d))] *)
Definition of_real (x : R) : C := (x, 0).

(** The sum of a list of numbers, as [einsum] and [reduce_sum] form it. *)
Definition Rsum (l : list R) : R := foldr Rplus 0 l.
Definition Csum (l : list C) : C := foldr Cadd (0, 0) l.

(** A rank-three array of floats. *)
Definition tensor3 : Type := list (list (list R)).

(** [np.zeros(shape=(n1, n2, n3))] *)
Definition zeros3 (n1 n2 n3 : nat) : tensor3 :=
  replicate n1 (replicate n2 (replicate n3 0)).

(** [ret[l][a][b] = v], all indices in range. *)
Definition set3 (t : tensor3) (l a b : nat) (v : R) : tensor3 :=
  alter (alter (<[b := v]>) a) l t.

Definition lookup3 (t : tensor3) (l a b : nat) : option R :=
  plane ← t !! l; row ← plane !! a; row !! b.

(** [plane[a][b]] of a matrix of the array, inside [einsum]. *)
Definition get2 (plane : list (list R)) (a b : nat) : R :=
  default 0 (row ← plane !! a; row !! b).

(** [range(start, stop, step)] for a positive step. *)
Definition py_range3 (start stop step : Z) : list Z :=
  map (fun i => (start + step * Z.of_nat i)%Z)
      (seq 0 (Z.to_nat ((stop - start + step - 1) / step))).

(** *** The weight table *)

(** The local function [f] of [small_d_weight]: [math.factorial(x // 2)].
    Its arguments in the loops are never negative. *)
Definition f (x : Z) : R := INR (fact (Z.to_nat (x / 2))).

(** [(-1) ** e] for the exponents of the loops, which are never negative. *)
Definition minus_one_pow (e : Z) : R := (-1) ^ Z.to_nat e.

(** The value [tmp] computed in the innermost loop. *)
Definition weight_value (j m n k : Z) : R :=
  let sign := minus_one_pow ((k + m - n) / 2) in
  let tmp := sign * sqrt (1 * f (j + m) * f (j - m) * f (j + n) * f (j - n)) in
  tmp / (f (j - m - k) * f (j + n - k) * f (k + m - n) * f k).

(** The body of the innermost loop. *)
Definition weight_step (j m n k : Z) (ret : tensor3) : tensor3 :=
  let l := ((2 * k + (m - n)) / 2)%Z in
  let tmp := weight_value j m n k in
  set3 ret (Z.to_nat l) (Z.to_nat ((m + j) / 2)) (Z.to_nat ((n + j) / 2)) tmp.

Definition small_d_weight (j : Z) : tensor3 :=
  let ret := zeros3 (Z.to_nat (j + 1)) (Z.to_nat (j + 1)) (Z.to_nat (j + 1)) in
  for_pure (py_range3 (- j) (j + 1) 2) (fun m =>
    for_pure (py_range3 (- j) (j + 1) 2) (fun n =>
      for_pure (py_range3 (Z.max 0 (n - m)) (Z.min (j - m) (j + n) + 1) 2)
               (weight_step j m n))) ret.

(** *** The matrices *)

Section Batched.
Context {event : Type}.

(** [tf.einsum("il,lab->iab", sc, w)] on one event. *)
Definition einsum_il_lab (sc : list R) (w : tensor3) (n : nat)
  : list (list R) :=
  map (fun a =>
    map (fun b => Rsum (zip_with (fun x plane => x * get2 plane a b) sc w))
        (seq 0 n))
      (seq 0 n).

Definition small_d_matrix (theta : batch (event := event)) (j : Z)
  : event -> list (list R) :=
  fun ev =>
  let a := py_range3 0 (j + 1) 1 in
  let sintheta := sin (theta ev / 2) in
  let costheta := cos (theta ev / 2) in
  let s := map (fun a => sintheta ^ Z.to_nat a) a in
  let c := map (fun a => costheta ^ Z.to_nat (j - a)) a in
  let sc := zip_with Rmult s c in
  let w := small_d_weight j in
  einsum_il_lab sc w (Z.to_nat (j + 1)).

Definition exp_i (theta : batch (event := event)) (mi : list Z)
  : event -> list C :=
  fun ev => map (fun m => Cexp (0, IZR m * theta ev)) mi.

Definition D_matrix_conj (alpha beta gamma : batch (event := event)) (j : Z)
  : event -> list (list C) :=
  fun ev =>
  let m := py_range3 (- j) (j + 1) 2 in
  let d := small_d_matrix beta j ev in
  let expi_alpha := exp_i alpha m ev in
  let expi_gamma := exp_i gamma m ev in
  zip_with (fun ea row =>
    zip_with (fun eg dab => Cmul (Cmul ea eg) (of_real dab)) expi_gamma row)
    expi_alpha d.

(** The matrix of the docstring of [D_matrix_conj], the conjugate of the
    canonical Wigner matrix: the phases carry the magnetic quantum numbers
    [m1, m2 = -j/2, -j/2 + 1, ..., j/2] of the spin [j/2]. *)
Definition D_conj_canonical (alpha beta gamma : batch (event := event)) (j : Z)
  : event -> list (list C) :=
  fun ev =>
  let m := py_range3 (- j) (j + 1) 2 in
  let d := small_d_matrix beta j ev in
  zip_with (fun m1 row =>
    zip_with (fun m2 dab =>
        Cmul (Cmul (Cexp (0, IZR m1 / 2 * alpha ev)) (of_real dab))
             (Cexp (0, IZR m2 / 2 * gamma ev)))
      m row)
    m d.

(** *** Spin 0 *)

Lemma f_0 : f 0 = 1.
Proof. unfold f. simpl. reflexivity. Qed.

Lemma f_2 : f 2 = 1.
Proof. unfold f. simpl. reflexivity. Qed.

Lemma Cexp_zero_phase (t : R) : Cexp (0, 0 * t) = (1, 0).
Proof.
  unfold Cexp. simpl. rewrite Rmult_0_l, exp_0, cos_0, sin_0.
  f_equal; lra.
Qed.

Lemma small_d_weight_0 : small_d_weight 0 = [[[weight_value 0 0 0 0]]].
Proof. reflexivity. Qed.

Lemma unit_weight : weight_value 0 0 0 0 = 1.
Proof.
  change (weight_value 0 0 0 0)
    with ((-1) ^ 0 * sqrt (1 * f 0 * f 0 * f 0 * f 0) / (f 0 * f 0 * f 0 * f 0)).
  rewrite f_0. replace (1 * 1 * 1 * 1 * 1) with 1 by lra.
  rewrite sqrt_1. simpl. lra.
Qed.

(** C9: for spin label 0 the matrix returned for an event is the 1x1
    matrix with the single entry 1, whatever the angles are. *)
Theorem D_matrix_conj_spin_0 (alpha beta gamma : batch (event := event))
    (ev : event) :
  D_matrix_conj alpha beta gamma 0 ev = [[(1, 0)]].
Proof.
  unfold D_matrix_conj, small_d_matrix, exp_i, einsum_il_lab.
  rewrite small_d_weight_0.
  change (py_range3 (- 0) (0 + 1) 2) with [0%Z].
  change (py_range3 0 (0 + 1) 1) with [0%Z].
  change (seq 0 (Z.to_nat (0 + 1))) with [0%nat].
  cbn [map zip_with Rsum foldr get2 lookup list_lookup mbind option_bind
       default Z.to_nat Z.sub pow].
  rewrite !Cexp_zero_phase. unfold Datatypes.id. rewrite unit_weight.
  unfold Cmul, of_real. simpl. do 2 f_equal. f_equal; lra.
Qed.

End Batched.

(** *** Spin 1/2 at the angles (pi, 0, 0) *)

Lemma small_d_weight_1 :
  small_d_weight 1
  = [[[weight_value 1 (-1) (-1) 0; 0]; [0; weight_value 1 1 1 0]];
     [[0; weight_value 1 (-1) 1 2]; [weight_value 1 1 (-1) 0; 0]]].
Proof. reflexivity. Qed.

Lemma weight_half_down : weight_value 1 (-1) (-1) 0 = 1.
Proof.
  change (weight_value 1 (-1) (-1) 0)
    with ((-1) ^ 0 * sqrt (1 * f 0 * f 2 * f 0 * f 2) / (f 2 * f 0 * f 0 * f 0)).
  rewrite f_0, f_2. replace (1 * 1 * 1 * 1 * 1) with 1 by lra.
  rewrite sqrt_1. simpl. lra.
Qed.

Lemma weight_half_up : weight_value 1 1 1 0 = 1.
Proof.
  change (weight_value 1 1 1 0)
    with ((-1) ^ 0 * sqrt (1 * f 2 * f 0 * f 2 * f 0) / (f 0 * f 2 * f 0 * f 0)).
  rewrite f_0, f_2. replace (1 * 1 * 1 * 1 * 1) with 1 by lra.
  rewrite sqrt_1. simpl. lra.
Qed.

Lemma Cexp_phase (t : R) : Cexp (0, t) = (cos t, sin t).
Proof. unfold Cexp. simpl. rewrite exp_0. f_equal; lra. Qed.

Definition half_turn : batch (event := unit) := fun _ => PI.
Definition no_turn : batch (event := unit) := fun _ => 0.

(** The small-d matrix of spin 1/2 at angle 0 is the identity. *)
Lemma small_d_half_at_0 : small_d_matrix no_turn 1 tt = [[1; 0]; [0; 1]].
Proof.
  unfold small_d_matrix, einsum_il_lab, no_turn.
  rewrite small_d_weight_1.
  change (py_range3 0 (1 + 1) 1) with [0%Z; 1%Z].
  change (seq 0 (Z.to_nat (1 + 1))) with [0%nat; 1%nat].
  cbn [map zip_with Rsum foldr get2 lookup list_lookup mbind option_bind
       default Z.to_nat Z.sub pow Pos.to_nat Pos.iter_op Z.pos_sub Z.opp
       Init.Nat.add Z.add].
  unfold Datatypes.id. rewrite weight_half_down, weight_half_up.
  replace (0 / 2) with 0 by lra. rewrite sin_0, cos_0.
  change (Z.to_nat 0) with 0%nat. change (Z.to_nat 1) with 1%nat.
  change (Z.to_nat (1 - 0)) with 1%nat. change (Z.to_nat (1 - 1)) with 0%nat.
  cbn [pow]. repeat (f_equal; try lra).
Qed.

(** C1 at spin label 1 (spin 1/2) and angles (pi, 0, 0): the code puts the
    phase [exp(-i pi) = -1] on the entry [m1 = m2 = -1/2], where the matrix
    of the docstring has [exp(-i pi/2) = -i]. *)
Theorem D_matrix_conj_half_turn :
  D_matrix_conj half_turn no_turn no_turn 1 tt
  = [[(-1, 0); (0, 0)]; [(0, 0); (-1, 0)]]
  /\ D_conj_canonical half_turn no_turn no_turn 1 tt
     = [[(0, -1); (0, 0)]; [(0, 0); (0, 1)]]
  /\ D_matrix_conj half_turn no_turn no_turn 1 tt
     <> D_conj_canonical half_turn no_turn no_turn 1 tt.
Proof.
  assert (Hcode : D_matrix_conj half_turn no_turn no_turn 1 tt
                  = [[(-1, 0); (0, 0)]; [(0, 0); (-1, 0)]]).
  { unfold D_matrix_conj, exp_i. rewrite small_d_half_at_0.
    change (py_range3 (Z.opp 1) (1 + 1) 2) with [(-1)%Z; 1%Z].
    unfold half_turn, no_turn. cbn [map zip_with].
    rewrite !Cexp_phase.
    replace (IZR (-1) * PI) with (- PI) by lra.
    replace (1 * PI) with PI by lra.
    rewrite !Rmult_0_r, cos_neg, sin_neg, cos_PI, sin_PI, cos_0, sin_0.
    unfold Cmul, of_real. simpl. repeat (f_equal; try lra). }
  assert (Hdoc : D_conj_canonical half_turn no_turn no_turn 1 tt
                 = [[(0, -1); (0, 0)]; [(0, 0); (0, 1)]]).
  { unfold D_conj_canonical. rewrite small_d_half_at_0.
    change (py_range3 (Z.opp 1) (1 + 1) 2) with [(-1)%Z; 1%Z].
    unfold half_turn, no_turn. cbn [map zip_with].
    rewrite !Cexp_phase.
    replace (IZR (-1) / 2 * PI) with (- (PI / 2)) by lra.
    replace (1 / 2 * PI) with (PI / 2) by lra.
    rewrite !Rmult_0_r, cos_neg, sin_neg, cos_PI2, sin_PI2, cos_0, sin_0.
    unfold Cmul, of_real. simpl. repeat (f_equal; try lra). }
  split; [exact Hcode|]. split; [exact Hdoc|].
  rewrite Hcode, Hdoc. intros [= E _]. lra.
Qed.

(** ** Unitarity of the rotation matrices

    The rows of the small-d matrix are, up to square roots of factorials,
    the coefficient lists of the binary forms [(s + c t)^b (c - s t)^(n-b)]
    obtained from [t^b] by the rotation with [s = sin (beta/2)] and
    [c = cos (beta/2)].  The rotation preserves the binomial inner product
    of forms, which makes the rows orthonormal. *)

(** *** Finite sums *)

Lemma Rsum_cons (x : R) (l : list R) : Rsum (x :: l) = x + Rsum l.
Proof. reflexivity. Qed.

Lemma Rsum_app (l1 l2 : list R) : Rsum (l1 ++ l2) = Rsum l1 + Rsum l2.
Proof.
  induction l1 as [|x l1 IH]; simpl; [lra|]. fold (Rsum (l1 ++ l2)).
  fold (Rsum l1). rewrite IH. lra.
Qed.

Lemma Rsum_map_ext {A : Type} (g h : A -> R) (l : list A) :
  (forall x, x ∈ l -> g x = h x) -> Rsum (map g l) = Rsum (map h l).
Proof.
  induction l as [|x l IH]; intros Hgh; [done|].
  cbn [map]. rewrite !Rsum_cons, IH.
  - rewrite Hgh; [done|by left].
  - intros y Hy. apply Hgh. by right.
Qed.

Lemma Rsum_map_plus {A : Type} (g h : A -> R) (l : list A) :
  Rsum (map (fun x => g x + h x) l) = Rsum (map g l) + Rsum (map h l).
Proof.
  induction l as [|x l IH]; cbn [map]; rewrite ?Rsum_cons; [simpl; lra|].
  rewrite IH. lra.
Qed.

Lemma Rsum_map_scal {A : Type} (u : R) (g : A -> R) (l : list A) :
  Rsum (map (fun x => u * g x) l) = u * Rsum (map g l).
Proof.
  induction l as [|x l IH]; cbn [map]; rewrite ?Rsum_cons; [simpl; lra|].
  rewrite IH. lra.
Qed.

Lemma Rsum_map_zero {A : Type} (g : A -> R) (l : list A) :
  (forall x, x ∈ l -> g x = 0) -> Rsum (map g l) = 0.
Proof.
  intros Hg. rewrite (Rsum_map_ext g (fun _ => 0) l Hg). clear Hg.
  induction l as [|x l IH]; cbn [map]; rewrite ?Rsum_cons; [done|].
  rewrite IH. lra.
Qed.

Lemma Rsum_swap {A B : Type} (g : A -> B -> R) (L : list A) (M : list B) :
  Rsum (map (fun x => Rsum (map (fun y => g x y) M)) L)
  = Rsum (map (fun y => Rsum (map (fun x => g x y) L)) M).
Proof.
  induction L as [|x L IH]; cbn [map].
  - symmetry. by apply Rsum_map_zero.
  - rewrite Rsum_cons, IH.
    rewrite <- Rsum_map_plus. apply Rsum_map_ext. intros y _.
    by rewrite Rsum_cons.
Qed.

(** A sum that picks one element of a list without repetition. *)
Lemma Rsum_delta {A : Type} `{EqDecision A} (L : list A) (x0 : A) (v : R) :
  NoDup L -> x0 ∈ L ->
  Rsum (map (fun x => if decide (x = x0) then v else 0) L) = v.
Proof.
  induction L as [|x L IH]; intros Hnd Hin; [by apply elem_of_nil in Hin|].
  apply NoDup_cons in Hnd as [Hx Hnd]. cbn [map]. rewrite Rsum_cons.
  destruct (decide (x = x0)) as [->|Hne].
  - rewrite Rsum_map_zero; [lra|].
    intros y Hy. destruct (decide (y = x0)) as [->|]; done.
  - apply elem_of_cons in Hin as [->|Hin]; [done|]. rewrite IH by done. lra.
Qed.

(** A sum over [L] whose terms vanish outside the image of [K] is the sum
    over [K]. *)
Lemma Rsum_reindex {A B : Type} `{EqDecision A} (phi : B -> A) (G : A -> R)
    (L : list A) (K : list B) :
  NoDup L -> NoDup (map phi K) ->
  (forall k, k ∈ K -> phi k ∈ L) ->
  (forall x, x ∈ L -> x ∉ map phi K -> G x = 0) ->
  Rsum (map G L) = Rsum (map (fun k => G (phi k)) K).
Proof.
  intros HL HK Himg Hzero.
  assert (Hpick : forall x, x ∈ L ->
    G x = Rsum (map (fun k => if decide (phi k = x) then G (phi k) else 0) K)).
  { intros x Hx. clear Himg.
    assert (Hcase : forall K', NoDup (map phi K') ->
      Rsum (map (fun k => if decide (phi k = x) then G (phi k) else 0) K')
      = if decide (x ∈ map phi K') then G x else 0).
    { induction K' as [|k K' IH]; intros Hnd.
      - cbn [map]. destruct (decide (x ∈ [])) as [H%elem_of_nil|]; done.
      - cbn [map] in *. apply NoDup_cons in Hnd as [Hk Hnd].
        rewrite Rsum_cons, IH by done.
        destruct (decide (phi k = x)) as [<-|Hne].
        + destruct (decide (phi k ∈ map phi K')); [done|].
          destruct (decide (phi k ∈ phi k :: map phi K')) as [|Hn]; [lra|].
          exfalso. apply Hn. by left.
        + destruct (decide (x ∈ map phi K')) as [Hin|Hnot];
            destruct (decide (x ∈ phi k :: map phi K')) as [Hin'|Hnot'];
            try lra.
          * exfalso. apply Hnot'. by right.
          * apply elem_of_cons in Hin' as [?|?]; [by subst|done]. }
    rewrite (Hcase K HK). destruct (decide (x ∈ map phi K)); [done|].
    by apply Hzero. }
  rewrite (Rsum_map_ext _ _ L Hpick), Rsum_swap.
  apply Rsum_map_ext. intros k Hk.
  rewrite (Rsum_map_ext _ (fun x => if decide (x = phi k) then G (phi k) else 0)).
  - apply Rsum_delta; [done|by apply Himg].
  - intros x _. destruct (decide (phi k = x)), (decide (x = phi k)); congruence.
Qed.


Lemma Rsum_seq_head (g : nat -> R) (n : nat) :
  Rsum (map g (seq 0 (S n))) = g 0%nat + Rsum (map (fun i => g (S i)) (seq 0 n)).
Proof.
  change (seq 0 (S n)) with (0%nat :: seq 1 n).
  rewrite <- fmap_S_seq. cbn [map]. rewrite Rsum_cons.
  change (S <$> seq 0 n) with (map S (seq 0 n)). by rewrite map_map.
Qed.

Lemma Rsum_seq_last (g : nat -> R) (n : nat) :
  Rsum (map g (seq 0 (S n))) = Rsum (map g (seq 0 n)) + g n.
Proof.
  rewrite seq_S, map_app, Rsum_app. cbn [map]. rewrite Rsum_cons.
  change (Rsum []) with 0. simpl. lra.
Qed.

(** *** Binomial coefficients *)

Fixpoint binom (n k : nat) : nat :=
  match n, k with
  | _, O => 1
  | O, S _ => 0
  | S n', S k' => binom n' k' + binom n' (S k')
  end.

Lemma binom_0_r (n : nat) : binom n 0 = 1%nat.
Proof. by destruct n. Qed.

Lemma binom_gt (n k : nat) : (n < k)%nat -> binom n k = 0%nat.
Proof.
  revert k. induction n as [|n IH]; intros [|k] Hk; simpl; try lia.
  rewrite !IH by lia. done.
Qed.

Lemma binom_fact (n k : nat) :
  (k <= n)%nat -> (binom n k * (fact k * fact (n - k)) = fact n)%nat.
Proof.
  revert k. induction n as [|n IH]; intros [|k] Hk; try lia.
  - simpl. lia.
  - rewrite binom_0_r, Nat.sub_0_r. simpl. lia.
  - change (binom (S n) (S k)) with (binom n k + binom n (S k))%nat.
    change (S n - S k)%nat with (n - k)%nat.
    destruct (decide (k = n)) as [->|Hne].
    + rewrite (binom_gt n (S n)) by lia. specialize (IH n ltac:(lia)).
      rewrite Nat.sub_diag in *. change (fact (S n)) with (S n * fact n)%nat.
      nia.
    + pose proof (IH k ltac:(lia)) as H1.
      pose proof (IH (S k) ltac:(lia)) as H2.
      replace (n - k)%nat with (S (n - S k)) in * by lia.
      change (fact (S n)) with (S n * fact n)%nat.
      change (fact (S k)) with (S k * fact k)%nat in *.
      change (fact (S (n - S k))) with (S (n - S k) * fact (n - S k))%nat in *.
      assert (Hn : S n = (S k + S (n - S k))%nat) by lia.
      rewrite Hn. nia.
Qed.

(** *** Rotation of binary forms

    With [s = sin (beta/2)] and [c = cos (beta/2)], the entries of the
    small-d matrix are, up to square roots of factorials, the coefficients
    of the polynomials [(s + c t)^b (c - s t)^(N-b)]. *)

Definition shift (p : nat -> R) (i : nat) : R :=
  match i with O => 0 | S i' => p i' end.

Definition conv (p q : nat -> R) (a : nat) : R :=
  Rsum (map (fun i => p i * q (a - i)%nat) (seq 0 (S a))).

Lemma conv_ext (p p' q q' : nat -> R) (a : nat) :
  (forall i, p i = p' i) -> (forall i, q i = q' i) ->
  conv p q a = conv p' q' a.
Proof.
  intros Hp Hq. apply Rsum_map_ext. intros i _. by rewrite Hp, Hq.
Qed.

Lemma conv_lin_l (u v : R) (p p' q : nat -> R) (a : nat) :
  conv (fun i => u * p i + v * p' i) q a = u * conv p q a + v * conv p' q a.
Proof.
  unfold conv. rewrite <- !Rsum_map_scal, <- Rsum_map_plus.
  apply Rsum_map_ext. intros i _. lra.
Qed.

Lemma conv_lin_r (u v : R) (p q q' : nat -> R) (a : nat) :
  conv p (fun i => u * q i + v * q' i) a = u * conv p q a + v * conv p q' a.
Proof.
  unfold conv. rewrite <- !Rsum_map_scal, <- Rsum_map_plus.
  apply Rsum_map_ext. intros i _. lra.
Qed.

Lemma conv_shift_l (p q : nat -> R) (a : nat) :
  conv (shift p) q a = shift (conv p q) a.
Proof.
  destruct a as [|a]; unfold conv.
  - simpl. lra.
  - change (seq 0 (S (S a))) with (0%nat :: seq 1 (S a)).
    rewrite <- fmap_S_seq. cbn [map]. rewrite Rsum_cons.
    change (shift p 0) with 0. rewrite Rmult_0_l, Rplus_0_l.
    change (S <$> seq 0 (S a)) with (map S (seq 0 (S a))).
    rewrite map_map. reflexivity.
Qed.

Lemma conv_shift_r (p q : nat -> R) (a : nat) :
  conv p (shift q) a = shift (conv p q) a.
Proof.
  destruct a as [|a]; unfold conv.
  - simpl. lra.
  - rewrite (seq_S (S a)), map_app, Rsum_app. cbn [map].
    rewrite Rsum_cons. replace (S a - (0 + S a))%nat with 0%nat by lia.
    change (shift q 0) with 0. change (Rsum []) with 0.
    rewrite Rmult_0_r, !Rplus_0_r. unfold shift at 2.
    apply Rsum_map_ext. intros i Hi. apply elem_of_seq in Hi.
    replace (S a - i)%nat with (S (a - i)) by lia. reflexivity.
Qed.

Section Rotation.
Variables s c : R.
Hypothesis Hsc : s * s + c * c = 1.

(** The coefficient of [t^i] in [(s + c t)^b]. *)
Definition up (b i : nat) : R := INR (binom b i) * s ^ (b - i) * c ^ i.

(** The coefficient of [t^i] in [(c - s t)^m]. *)
Definition down (m i : nat) : R :=
  INR (binom m i) * ((-1) ^ i * s ^ i) * c ^ (m - i).

(** The coefficient of [t^a] in [(s + c t)^b (c - s t)^(N-b)]. *)
Definition form (N a b : nat) : R := conv (up b) (down (N - b)) a.

Lemma up_succ (b i : nat) : up (S b) i = s * up b i + c * shift (up b) i.
Proof.
  destruct i as [|i]; unfold up, shift.
  - rewrite !binom_0_r, !Nat.sub_0_r. cbn [pow]. ring.
  - change (binom (S b) (S i)) with (binom b i + binom b (S i))%nat.
    rewrite plus_INR. change (S b - S i)%nat with (b - i)%nat.
    destruct (le_lt_dec (S i) b) as [Hle|Hgt].
    + replace (b - i)%nat with (S (b - S i)) by lia. cbn [pow]. ring.
    + rewrite (binom_gt b (S i)) by lia. cbn [pow INR]. ring.
Qed.

Lemma down_succ (m i : nat) : down (S m) i = c * down m i - s * shift (down m) i.
Proof.
  destruct i as [|i]; unfold down, shift.
  - rewrite !binom_0_r, !Nat.sub_0_r. cbn [pow]. ring.
  - change (binom (S m) (S i)) with (binom m i + binom m (S i))%nat.
    rewrite plus_INR. change (S m - S i)%nat with (m - i)%nat.
    destruct (le_lt_dec (S i) m) as [Hle|Hgt].
    + replace (m - i)%nat with (S (m - S i)) by lia. cbn [pow]. ring.
    + rewrite (binom_gt m (S i)) by lia. cbn [pow INR]. ring.
Qed.

Lemma form_succ_b (N a b : nat) :
  form (S N) a (S b) = s * form N a b + c * shift (fun x => form N x b) a.
Proof.
  unfold form. change (S N - S b)%nat with (N - b)%nat.
  rewrite (conv_ext _ (fun i => s * up b i + c * shift (up b) i) _ (down (N - b)))
    by (intros; auto using up_succ).
  rewrite conv_lin_l, conv_shift_l. reflexivity.
Qed.

Lemma form_succ_N (N a b : nat) :
  (b <= N)%nat ->
  form (S N) a b = c * form N a b - s * shift (fun x => form N x b) a.
Proof.
  intros Hb. unfold form. replace (S N - b)%nat with (S (N - b)) by lia.
  rewrite (conv_ext _ (up b) _
             (fun i => c * down (N - b) i + (- s) * shift (down (N - b)) i)).
  - rewrite conv_lin_r, conv_shift_r.
    change (shift (fun x => conv (up b) (down (N - b)) x) a)
      with (shift (conv (up b) (down (N - b))) a).
    lra.
  - done.
  - intros i. rewrite down_succ. lra.
Qed.

(** Pascal's rule under a sum. *)
Lemma pascal_sum (N : nat) (X : nat -> R) :
  Rsum (map (fun b => INR (binom (S N) b) * X b) (seq 0 (S (S N))))
  = Rsum (map (fun b => INR (binom N b) * X b) (seq 0 (S N)))
    + Rsum (map (fun b => INR (binom N b) * X (S b)) (seq 0 (S N))).
Proof.
  rewrite Rsum_seq_head.
  rewrite (Rsum_map_ext _
    (fun b => INR (binom N b) * X (S b) + INR (binom N (S b)) * X (S b))).
  2:{ intros b _. change (binom (S N) (S b)) with (binom N b + binom N (S b))%nat.
      rewrite plus_INR. lra. }
  rewrite Rsum_map_plus.
  rewrite (Rsum_seq_last (fun b => INR (binom N (S b)) * X (S b))).
  rewrite (Rsum_seq_head (fun b => INR (binom N b) * X b)).
  rewrite (binom_gt N (S N)) by lia. rewrite !binom_0_r.
  change (binom (S N) 0) with 1%nat. change (INR 0) with 0. lra.
Qed.

(** The Gram sums of the coefficient rows. *)
Definition gram (N a a' : nat) : R :=
  Rsum (map (fun b => INR (binom N b) * (form N a b * form N a' b)) (seq 0 (S N))).

Lemma gram_succ (N a a' : nat) :
  gram (S N) a a'
  = gram N a a' + match a, a' with
                  | S x, S y => gram N x y
                  | _, _ => 0
                  end.
Proof.
  unfold gram at 1.
  rewrite (pascal_sum N (fun b => form (S N) a b * form (S N) a' b)).
  rewrite <- Rsum_map_plus.
  rewrite (Rsum_map_ext _ (fun b =>
     INR (binom N b) * (form N a b * form N a' b)
     + INR (binom N b)
       * (shift (fun x => form N x b) a * shift (fun x => form N x b) a'))).
  2:{ intros b Hb. apply elem_of_seq in Hb.
      rewrite !form_succ_b, !form_succ_N by lia.
      set (e := form N a b). set (e' := form N a' b).
      set (g := shift _ a). set (g' := shift _ a').
      transitivity (INR (binom N b)
                    * ((s * s + c * c) * (e * e') + (s * s + c * c) * (g * g')));
        [ring|rewrite Hsc; ring]. }
  rewrite Rsum_map_plus. f_equal.
  destruct a as [|x]; [|destruct a' as [|y]]; cbn [shift].
  - apply Rsum_map_zero. intros; lra.
  - apply Rsum_map_zero. intros; lra.
  - reflexivity.
Qed.

Lemma up_0 (i : nat) : up 0 i = if decide (i = 0%nat) then 1 else 0.
Proof. destruct i; unfold up; simpl; lra. Qed.

Lemma down_0 (i : nat) : down 0 i = if decide (i = 0%nat) then 1 else 0.
Proof. destruct i; unfold down; simpl; lra. Qed.

Lemma form_0 (a : nat) : form 0 a 0 = if decide (a = 0%nat) then 1 else 0.
Proof.
  unfold form, conv. change (seq 0 (S a)) with (0%nat :: seq 1 a).
  cbn [map]. rewrite Rsum_cons, Rsum_map_zero.
  - rewrite up_0, down_0, Nat.sub_0_r. simpl.
    destruct (decide (a = 0%nat)); lra.
  - intros i Hi. apply elem_of_seq in Hi. rewrite up_0.
    destruct (decide (i = 0%nat)); [lia|lra].
Qed.

(** The rows of coefficients are orthogonal for the binomial weights. *)
Lemma gram_delta (N a a' : nat) :
  gram N a a' = if decide (a = a') then INR (binom N a) else 0.
Proof.
  revert a a'. induction N as [|N IH]; intros a a'.
  - unfold gram. cbn [seq map]. rewrite Rsum_cons, !form_0.
    change (Rsum []) with 0. change (INR (binom 0 0)) with 1.
    destruct (decide (a = 0%nat)) as [->|Ha];
      destruct (decide (a' = 0%nat)) as [->|Ha'];
      destruct (decide _) as [Heq|Hne]; try lia; try lra.
    + simpl. lra.
    + subst a'. destruct a; [done|]. simpl. lra.
  - rewrite gram_succ, IH.
    destruct a as [|x]; destruct a' as [|y].
    + rewrite !decide_True by done. rewrite !binom_0_r. lra.
    + rewrite !decide_False by done. lra.
    + rewrite !decide_False by done. lra.
    + rewrite IH. destruct (decide (x = y)) as [->|Hne].
      * rewrite !decide_True by done.
        change (binom (S N) (S y)) with (binom N y + binom N (S y))%nat.
        rewrite plus_INR. lra.
      * rewrite !decide_False by congruence. lra.
Qed.

End Rotation.

(** *** Arrays as tabulated functions *)

Definition tab {A : Type} (N : nat) (F : nat -> A) : list A :=
  map F (seq 0 N).

Definition tab2 {A : Type} (N : nat) (F : nat -> nat -> A) : list (list A) :=
  tab N (fun a => tab N (F a)).

Definition tab3 (N : nat) (F : nat -> nat -> nat -> R) : tensor3 :=
  tab N (fun l => tab2 N (F l)).

Lemma tab_lookup {A : Type} (N : nat) (F : nat -> A) (i : nat) :
  tab N F !! i = if decide (i < N)%nat then Some (F i) else None.
Proof.
  unfold tab. change (map F (seq 0 N)) with (F <$> seq 0 N).
  rewrite list_lookup_fmap. destruct (decide (i < N)%nat).
  - by rewrite lookup_seq_lt.
  - by rewrite lookup_seq_ge by lia.
Qed.

Lemma tab_ext {A : Type} (N : nat) (F G : nat -> A) :
  (forall i, (i < N)%nat -> F i = G i) -> tab N F = tab N G.
Proof.
  intros HFG. apply list_eq. intros i. rewrite !tab_lookup.
  destruct (decide (i < N)%nat); [by rewrite HFG|done].
Qed.

Lemma tab_replicate {A : Type} (N : nat) (x : A) :
  replicate N x = tab N (fun _ => x).
Proof.
  apply list_eq. intros i. rewrite tab_lookup.
  destruct (decide (i < N)%nat).
  - by apply lookup_replicate_2.
  - apply lookup_replicate_None. lia.
Qed.

Lemma tab_alter {A : Type} (N : nat) (F : nat -> A) (g : A -> A) (i : nat) :
  alter g i (tab N F)
  = tab N (fun x => if decide (x = i) then g (F x) else F x).
Proof.
  apply list_eq. intros x. rewrite list_lookup_alter, !tab_lookup.
  repeat (case_decide; subst); simpl; congruence.
Qed.

Lemma tab_insert {A : Type} (N : nat) (F : nat -> A) (v : A) (i : nat) :
  <[i := v]> (tab N F) = tab N (fun x => if decide (x = i) then v else F x).
Proof.
  apply list_eq. intros x. rewrite list_lookup_insert, !tab_lookup.
  assert (Hlen : length (tab N F) = N)
    by (unfold tab; by rewrite List.length_map, List.length_seq).
  rewrite Hlen.
  repeat (case_decide; subst); simpl; try congruence; try tauto;
    exfalso; intuition lia.
Qed.

Lemma zip_with_tab {A B D : Type} (g : A -> B -> D) (N : nat)
    (F : nat -> A) (G : nat -> B) :
  zip_with g (tab N F) (tab N G) = tab N (fun i => g (F i) (G i)).
Proof.
  unfold tab. generalize (seq 0 N). intros l.
  induction l as [|x l IH]; simpl; [done|]. by rewrite IH.
Qed.

(** Pointwise update of a function of three indices. *)
Definition upd (F : nat -> nat -> nat -> R) (i : nat * nat * nat) (v : R)
  : nat -> nat -> nat -> R :=
  fun l a b => if decide ((l, a, b) = i) then v else F l a b.

Lemma zeros3_tab (N : nat) : zeros3 N N N = tab3 N (fun _ _ _ => 0).
Proof.
  unfold zeros3, tab3, tab2. by rewrite !tab_replicate.
Qed.

Lemma set3_tab (N : nat) (F : nat -> nat -> nat -> R) (l a b : nat) (v : R) :
  set3 (tab3 N F) l a b v = tab3 N (upd F (l, a, b) v).
Proof.
  unfold set3, tab3, tab2, tensor3. rewrite tab_alter. apply tab_ext. intros l' _.
  cbv beta. destruct (decide (l' = l)) as [->|Hl].
  - rewrite tab_alter. apply tab_ext. intros a' _. cbv beta.
    destruct (decide (a' = a)) as [->|Ha].
    + rewrite tab_insert. apply tab_ext. intros b' _. unfold upd.
      destruct (decide (b' = b)) as [->|Hb].
      * by rewrite decide_True.
      * rewrite decide_False; [done|]. congruence.
    + apply tab_ext. intros b' _. unfold upd.
      rewrite decide_False; [done|]. congruence.
  - apply tab_ext. intros a' _. apply tab_ext. intros b' _. unfold upd.
    rewrite decide_False; [done|]. congruence.
Qed.

(** *** Loops over nested ranges *)

Lemma for_pure_ext {A St : Type} (l : list A) (body body' : A -> St -> St)
    (s : St) :
  (forall a s', a ∈ l -> body a s' = body' a s') ->
  for_pure l body s = for_pure l body' s.
Proof.
  revert s. induction l as [|a l IH]; intros s Hb; [done|].
  rewrite !for_pure_cons, Hb by (by left). apply IH.
  intros a' s' Ha'. apply Hb. by right.
Qed.

Lemma for_pure_map {A B St : Type} (h : A -> B) (l : list A)
    (body : B -> St -> St) (s : St) :
  for_pure (map h l) body s = for_pure l (fun a => body (h a)) s.
Proof.
  revert s. induction l as [|a l IH]; intros s; [done|].
  cbn [map]. by rewrite !for_pure_cons, IH.
Qed.

Lemma for_pure_bind {A B St : Type} (g : A -> list B) (l : list A)
    (body : B -> St -> St) (s : St) :
  for_pure (l ≫= g) body s = for_pure l (fun a => for_pure (g a) body) s.
Proof.
  revert s. induction l as [|a l IH]; intros s; [done|].
  change ((a :: l) ≫= g) with (g a ++ (l ≫= g)).
  by rewrite for_pure_app, for_pure_cons, IH.
Qed.

(** A loop of writes into an array, read back at one index: the value of
    the last write to it, or the initial value. *)
Lemma writes_value {T : Type} (idx : T -> nat * nat * nat) (val : T -> R)
    (ws : list T) (F : nat -> nat -> nat -> R) (l a b : nat) :
  let F' := for_pure ws (fun t F => upd F (idx t) (val t)) F in
  ((forall t, t ∈ ws -> idx t <> (l, a, b)) /\ F' l a b = F l a b)
  \/ (exists t, t ∈ ws /\ idx t = (l, a, b) /\ F' l a b = val t).
Proof.
  revert F. induction ws as [|t ws IH]; intros F; cbv zeta.
  - left. split; [|done]. by intros t H%elem_of_nil.
  - rewrite for_pure_cons.
    destruct (IH (upd F (idx t) (val t))) as [[Hno Heq]|(t' & Hin & Hidx & Heq)].
    + cbv zeta in Heq.
      destruct (decide ((l, a, b) = idx t)) as [Hhit|Hmiss].
      * right. exists t. split; [by left|]. split; [done|].
        rewrite Heq. unfold upd. by rewrite decide_True.
      * left. split.
        -- intros t0 [->|H0]%elem_of_cons; [congruence|by apply Hno].
        -- rewrite Heq. unfold upd. by rewrite decide_False.
    + right. exists t'. split; [by right|]. done.
Qed.

(** *** The loops of [small_d_weight] over array indices *)

(** The spin projection, doubled, at the array index [a]. *)
Definition m_of (n a : nat) : Z := (- Z.of_nat n + 2 * Z.of_nat a)%Z.

(** The values of [k / 2] visited by the innermost loop. *)
Definition Krange (n a b : nat) : list nat :=
  seq (b - a) (S (Nat.min (n - a) b) - (b - a)).

Lemma elem_of_Krange (n a b K : nat) :
  (a <= n)%nat -> (b <= n)%nat ->
  K ∈ Krange n a b <-> (b - a <= K /\ K <= n - a /\ K <= b)%nat.
Proof. intros Ha Hb. unfold Krange. rewrite elem_of_seq. lia. Qed.

Lemma half_double (z : Z) : (2 * z / 2 = z)%Z.
Proof. rewrite Z.mul_comm. apply Z.div_mul. lia. Qed.

Lemma seq_from (s c : nat) : seq s c = map (fun i => (s + i)%nat) (seq 0 c).
Proof.
  change (map (fun i => (s + i)%nat) (seq 0 c)) with (Nat.add s <$> seq 0 c).
  rewrite fmap_add_seq. f_equal. lia.
Qed.

Lemma py_range3_spins (n : nat) :
  py_range3 (- Z.of_nat n) (Z.of_nat n + 1) 2 = map (m_of n) (seq 0 (S n)).
Proof.
  unfold py_range3.
  replace (Z.of_nat n + 1 - - Z.of_nat n + 2 - 1)%Z
    with (2 * (Z.of_nat n + 1))%Z by lia.
  rewrite half_double. replace (Z.to_nat (Z.of_nat n + 1)) with (S n) by lia.
  reflexivity.
Qed.

Lemma py_range3_index (n : nat) :
  py_range3 0 (Z.of_nat n + 1) 1 = map Z.of_nat (seq 0 (S n)).
Proof.
  unfold py_range3.
  replace (Z.of_nat n + 1 - 0 + 1 - 1)%Z with (Z.of_nat n + 1)%Z by lia.
  rewrite Z.div_1_r. replace (Z.to_nat (Z.of_nat n + 1)) with (S n) by lia.
  apply map_ext. intros i. lia.
Qed.

Lemma py_range3_k (n a b : nat) :
  (a <= n)%nat -> (b <= n)%nat ->
  py_range3 (Z.max 0 (m_of n b - m_of n a))
            (Z.min (Z.of_nat n - m_of n a) (Z.of_nat n + m_of n b) + 1) 2
  = map (fun K => (2 * Z.of_nat K)%Z) (Krange n a b).
Proof.
  intros Ha Hb. unfold py_range3, Krange, m_of.
  set (lo := (b - a)%nat). set (hi := Nat.min (n - a) b).
  replace (Z.max 0 (- Z.of_nat n + 2 * Z.of_nat b
                    - (- Z.of_nat n + 2 * Z.of_nat a)))
    with (2 * Z.of_nat lo)%Z by lia.
  replace (Z.min (Z.of_nat n - (- Z.of_nat n + 2 * Z.of_nat a))
                 (Z.of_nat n + (- Z.of_nat n + 2 * Z.of_nat b))
           + 1 - 2 * Z.of_nat lo + 2 - 1)%Z
    with (2 * Z.of_nat (S hi - lo))%Z by lia.
  rewrite half_double, Nat2Z.id, (seq_from lo), map_map.
  apply map_ext. intros i. lia.
Qed.

(** The value written for the indices [a], [b] and [k = 2 K]. *)
Definition wval (n a b K : nat) : R :=
  (-1) ^ (K + a - b)
  * sqrt (1 * INR (fact a) * INR (fact (n - a))
            * INR (fact b) * INR (fact (n - b)))
  / (INR (fact (n - a - K)) * INR (fact (b - K))
     * INR (fact (K + a - b)) * INR (fact K)).

Lemma f_double (x : nat) : f (2 * Z.of_nat x) = INR (fact x).
Proof. unfold f. by rewrite half_double, Nat2Z.id. Qed.

Lemma weight_value_index (n a b K : nat) :
  (a <= n)%nat -> (b <= n)%nat -> K ∈ Krange n a b ->
  weight_value (Z.of_nat n) (m_of n a) (m_of n b) (2 * Z.of_nat K)
  = wval n a b K.
Proof.
  intros Ha Hb HK. apply elem_of_Krange in HK; [|done..].
  unfold weight_value, wval, minus_one_pow, m_of. cbv zeta.
  replace (Z.of_nat n + (- Z.of_nat n + 2 * Z.of_nat a))%Z
    with (2 * Z.of_nat a)%Z by lia.
  replace (Z.of_nat n - (- Z.of_nat n + 2 * Z.of_nat a))%Z
    with (2 * Z.of_nat (n - a))%Z by lia.
  replace (Z.of_nat n + (- Z.of_nat n + 2 * Z.of_nat b))%Z
    with (2 * Z.of_nat b)%Z by lia.
  replace (Z.of_nat n - (- Z.of_nat n + 2 * Z.of_nat b))%Z
    with (2 * Z.of_nat (n - b))%Z by lia.
  replace (2 * Z.of_nat (n - a) - 2 * Z.of_nat K)%Z
    with (2 * Z.of_nat (n - a - K))%Z by lia.
  replace (2 * Z.of_nat b - 2 * Z.of_nat K)%Z
    with (2 * Z.of_nat (b - K))%Z by lia.
  replace (2 * Z.of_nat K + (- Z.of_nat n + 2 * Z.of_nat a)
           - (- Z.of_nat n + 2 * Z.of_nat b))%Z
    with (2 * Z.of_nat (K + a - b))%Z by lia.
  rewrite !f_double, half_double, Nat2Z.id. reflexivity.
Qed.

Lemma weight_step_index (n a b K : nat) (F : nat -> nat -> nat -> R) :
  (a <= n)%nat -> (b <= n)%nat -> K ∈ Krange n a b ->
  weight_step (Z.of_nat n) (m_of n a) (m_of n b) (2 * Z.of_nat K)
              (tab3 (S n) F)
  = tab3 (S n) (upd F ((2 * K + a - b)%nat, a, b) (wval n a b K)).
Proof.
  intros Ha Hb HK. unfold weight_step. cbv zeta.
  rewrite weight_value_index by done.
  apply elem_of_Krange in HK; [|done..].
  rewrite set3_tab. do 2 f_equal. unfold m_of.
  replace (2 * (2 * Z.of_nat K)
           + (- Z.of_nat n + 2 * Z.of_nat a
              - (- Z.of_nat n + 2 * Z.of_nat b)))%Z
    with (2 * Z.of_nat (2 * K + a - b))%Z by lia.
  replace (- Z.of_nat n + 2 * Z.of_nat a + Z.of_nat n)%Z
    with (2 * Z.of_nat a)%Z by lia.
  replace (- Z.of_nat n + 2 * Z.of_nat b + Z.of_nat n)%Z
    with (2 * Z.of_nat b)%Z by lia.
  by rewrite !half_double, !Nat2Z.id.
Qed.

(** The writes of the three loops, in order. *)
Definition writes (n : nat) : list (nat * nat * nat) :=
  a ← seq 0 (S n); b ← seq 0 (S n); K ← Krange n a b; [(a, b, K)].

Definition write_index (t : nat * nat * nat) : nat * nat * nat :=
  ((2 * t.2 + t.1.1 - t.1.2)%nat, t.1.1, t.1.2).

Definition write_value (n : nat) (t : nat * nat * nat) : R :=
  wval n t.1.1 t.1.2 t.2.

(** The weight table as a function of its three indices. *)
Definition weight_fun (n : nat) : nat -> nat -> nat -> R :=
  for_pure (writes n) (fun t F => upd F (write_index t) (write_value n t))
           (fun _ _ _ => 0).

Lemma elem_of_writes (n a b K : nat) :
  (a, b, K) ∈ writes n
  <-> (a <= n)%nat /\ (b <= n)%nat /\ K ∈ Krange n a b.
Proof.
  unfold writes. rewrite list_elem_of_bind. split.
  - intros (a' & Hin & Ha'). apply list_elem_of_bind in Hin as (b' & Hin & Hb').
    apply list_elem_of_bind in Hin as (K' & Hin & HK').
    apply list_elem_of_singleton in Hin. injection Hin as -> -> ->.
    apply elem_of_seq in Ha', Hb'. split; [lia|]. split; [lia|done].
  - intros (Ha & Hb & HK). exists a. split; [|apply elem_of_seq; lia].
    apply list_elem_of_bind. exists b. split; [|apply elem_of_seq; lia].
    apply list_elem_of_bind. exists K. split; [|done].
    by apply list_elem_of_singleton.
Qed.

Lemma for_pure_tab3 {A : Type} (N : nat) (l : list A)
    (body : A -> tensor3 -> tensor3)
    (body' : A -> (nat -> nat -> nat -> R) -> nat -> nat -> nat -> R) :
  (forall x F, x ∈ l -> body x (tab3 N F) = tab3 N (body' x F)) ->
  forall F, for_pure l body (tab3 N F) = tab3 N (for_pure l body' F).
Proof.
  induction l as [|x l IH]; intros Hb F; [done|].
  rewrite !for_pure_cons, Hb by (by left). apply IH.
  intros y G Hy. apply Hb. by right.
Qed.

Lemma small_d_weight_tab (n : nat) :
  small_d_weight (Z.of_nat n) = tab3 (S n) (weight_fun n).
Proof.
  unfold small_d_weight, weight_fun, writes. cbv zeta.
  replace (Z.to_nat (Z.of_nat n + 1)) with (S n) by lia.
  rewrite zeros3_tab, py_range3_spins, for_pure_map, for_pure_bind.
  apply for_pure_tab3. intros a F Ha. apply elem_of_seq in Ha.
  rewrite for_pure_map, for_pure_bind.
  apply for_pure_tab3. intros b G Hb. apply elem_of_seq in Hb.
  rewrite py_range3_k, for_pure_map, for_pure_bind by lia.
  apply for_pure_tab3. intros K G' HK.
  change (for_pure [(a, b, K)] _ G')
    with (upd G' (write_index (a, b, K)) (write_value n (a, b, K))).
  apply weight_step_index; [lia..|done].
Qed.

Lemma weight_fun_hit (n a b K : nat) :
  (a <= n)%nat -> (b <= n)%nat -> K ∈ Krange n a b ->
  weight_fun n (2 * K + a - b) a b = wval n a b K.
Proof.
  intros Ha Hb HK. unfold weight_fun.
  destruct (writes_value write_index (write_value n) (writes n)
              (fun _ _ _ => 0) (2 * K + a - b) a b)
    as [[Hno _]|([[a' b'] K'] & Hin & Hidx & Heq)].
  - exfalso. apply (Hno (a, b, K)); [|done]. by apply elem_of_writes.
  - cbv zeta in Heq. rewrite Heq. unfold write_value, write_index in *.
    cbn [fst snd] in *. injection Hidx as Hl -> ->.
    apply elem_of_writes in Hin as (_ & _ & HK').
    apply elem_of_Krange in HK, HK'; [|done..].
    f_equal. lia.
Qed.

Lemma weight_fun_miss (n l a b : nat) :
  l ∉ map (fun K => (2 * K + a - b)%nat) (Krange n a b) ->
  weight_fun n l a b = 0.
Proof.
  intros Hl. unfold weight_fun.
  destruct (writes_value write_index (write_value n) (writes n)
              (fun _ _ _ => 0) l a b)
    as [[_ Heq]|([[a' b'] K'] & Hin & Hidx & _)]; [done|].
  exfalso. apply Hl. unfold write_index in Hidx. cbn [fst snd] in Hidx.
  injection Hidx as <- -> ->.
  apply elem_of_writes in Hin as (_ & _ & HK').
  by apply (list_elem_of_fmap_2 (fun K => (2 * K + a - b)%nat) _ K').
Qed.

(** *** The entries of the small-d matrix *)

(** The entry [d[a][b]] for the half angle with sine [s] and cosine [c]. *)
Definition d_entry (n : nat) (s c : R) (a b : nat) : R :=
  Rsum (map (fun l => s ^ l * c ^ (n - l) * weight_fun n l a b)
            (seq 0 (S n))).

Lemma get2_tab2 (N : nat) (G : nat -> nat -> R) (a b : nat) :
  (a < N)%nat -> (b < N)%nat -> get2 (tab2 N G) a b = G a b.
Proof.
  intros Ha Hb. unfold get2, tab2. rewrite tab_lookup, decide_True by done.
  simpl. by rewrite tab_lookup, decide_True.
Qed.

Lemma small_d_matrix_tab {event : Type} (theta : event -> R) (n : nat)
    (ev : event) :
  small_d_matrix theta (Z.of_nat n) ev
  = tab2 (S n) (d_entry n (sin (theta ev / 2)) (cos (theta ev / 2))).
Proof.
  unfold small_d_matrix, einsum_il_lab. cbv zeta.
  replace (Z.to_nat (Z.of_nat n + 1)) with (S n) by lia.
  rewrite py_range3_index, !map_map, small_d_weight_tab.
  fold (tab (S n) (fun x => sin (theta ev / 2) ^ Z.to_nat (Z.of_nat x))).
  fold (tab (S n) (fun x =>
          cos (theta ev / 2) ^ Z.to_nat (Z.of_nat n - Z.of_nat x))).
  rewrite zip_with_tab. unfold tab3. 
  apply tab_ext. intros a Ha. apply tab_ext. intros b Hb.
  rewrite zip_with_tab. unfold d_entry, tab. apply Rsum_map_ext.
  intros l Hl. apply elem_of_seq in Hl. rewrite get2_tab2 by done.
  rewrite Nat2Z.id. replace (Z.to_nat (Z.of_nat n - Z.of_nat l)) with (n - l)%nat by lia.
  reflexivity.
Qed.

Lemma d_entry_sum (n : nat) (s c : R) (a b : nat) :
  (a <= n)%nat -> (b <= n)%nat ->
  d_entry n s c a b
  = Rsum (map (fun K => s ^ (2 * K + a - b) * c ^ (n - (2 * K + a - b))
                        * wval n a b K)
              (Krange n a b)).
Proof.
  intros Ha Hb. unfold d_entry.
  rewrite (Rsum_reindex (fun K => (2 * K + a - b)%nat) _ _ (Krange n a b)).
  - apply Rsum_map_ext. intros K HK. by rewrite weight_fun_hit.
  - apply NoDup_seq.
  - change (map ?h ?l) with (h <$> l).
    apply NoDup_fmap_2_strong; [|apply NoDup_seq].
    intros K K' HK HK' Heq.
    apply (elem_of_Krange n a b) in HK, HK'; [|done..]. lia.
  - intros K HK. apply elem_of_Krange in HK; [|done..].
    apply elem_of_seq. lia.
  - intros l _ Hl. rewrite weight_fun_miss by done. lra.
Qed.

(** *** The entries as coefficients of rotated binary forms *)

Definition norm (n a : nat) : R := sqrt (INR (fact a) * INR (fact (n - a))).

Lemma fact_pos (k : nat) : 0 < INR (fact k).
Proof. apply lt_0_INR, lt_O_fact. Qed.

Lemma norm_pos (n a : nat) : 0 < norm n a.
Proof.
  apply sqrt_lt_R0. apply Rmult_lt_0_compat; apply fact_pos.
Qed.

Lemma norm_sqr (n a : nat) :
  norm n a * norm n a = INR (fact a) * INR (fact (n - a)).
Proof.
  apply sqrt_sqrt. apply Rlt_le, Rmult_lt_0_compat; apply fact_pos.
Qed.

Lemma binom_fact_R (n k : nat) :
  (k <= n)%nat ->
  INR (binom n k) * (INR (fact k) * INR (fact (n - k))) = INR (fact n).
Proof. intros Hk. rewrite <- !mult_INR. f_equal. by apply binom_fact. Qed.

Section Entries.
Variables s c : R.

Lemma form_sum (n a b : nat) :
  (a <= n)%nat -> (b <= n)%nat ->
  form s c n a b
  = Rsum (map (fun K => up s c b (b - K) * down s c (n - b) (K + a - b))
              (Krange n a b)).
Proof.
  intros Ha Hb. unfold form, conv.
  rewrite (Rsum_reindex (fun K => (b - K)%nat) _ _ (Krange n a b)).
  - apply Rsum_map_ext. intros K HK. apply elem_of_Krange in HK; [|done..].
    do 2 f_equal. lia.
  - apply NoDup_seq.
  - change (map ?h ?l) with (h <$> l).
    apply NoDup_fmap_2_strong; [|apply NoDup_seq].
    intros K K' HK HK' Heq.
    apply (elem_of_Krange n a b) in HK, HK'; [|done..]. lia.
  - intros K HK. apply elem_of_Krange in HK; [|done..].
    apply elem_of_seq. lia.
  - intros i Hi Hout. apply elem_of_seq in Hi.
    destruct (le_lt_dec i b) as [Hib|Hib].
    + destruct (le_lt_dec (a - i) (n - b)) as [Hin|Hin].
      * exfalso. apply Hout.
        replace i with (b - (b - i))%nat at 1 by lia.
        apply (list_elem_of_fmap_2 (fun K => (b - K)%nat) _ (b - i)%nat).
        apply elem_of_Krange; [done..|]. lia.
      * unfold down. rewrite binom_gt by lia. simpl. lra.
    + unfold up. rewrite binom_gt by lia. simpl. lra.
Qed.

Lemma d_term (n a b K : nat) :
  (a <= n)%nat -> (b <= n)%nat -> K ∈ Krange n a b ->
  s ^ (2 * K + a - b) * c ^ (n - (2 * K + a - b)) * wval n a b K
  = norm n a / norm n b * (up s c b (b - K) * down s c (n - b) (K + a - b)).
Proof.
  intros Ha Hb HK. apply elem_of_Krange in HK; [|done..].
  unfold wval, up, down.
  replace (2 * K + a - b)%nat with (K + (K + a - b))%nat by lia.
  replace (n - (K + (K + a - b)))%nat with ((b - K) + (n - a - K))%nat by lia.
  replace (b - (b - K))%nat with K by lia.
  replace (n - b - (K + a - b))%nat with (n - a - K)%nat by lia.
  rewrite !pow_add.
  replace (1 * INR (fact a) * INR (fact (n - a)) * INR (fact b)
           * INR (fact (n - b)))
    with ((INR (fact a) * INR (fact (n - a)))
          * (INR (fact b) * INR (fact (n - b)))) by ring.
  rewrite sqrt_mult
    by (apply Rlt_le, Rmult_lt_0_compat; apply fact_pos).
  fold (norm n a). fold (norm n b).
  pose proof (binom_fact_R b (b - K) ltac:(lia)) as HB1.
  pose proof (binom_fact_R (n - b) (K + a - b) ltac:(lia)) as HB2.
  replace (b - (b - K))%nat with K in HB1 by lia.
  replace (n - b - (K + a - b))%nat with (n - a - K)%nat in HB2 by lia.
  pose proof (norm_sqr n b) as HN. pose proof (norm_pos n b) as HNb.
  pose proof (fact_pos (n - a - K)) as H1. pose proof (fact_pos (b - K)) as H2.
  pose proof (fact_pos (K + a - b)) as H3. pose proof (fact_pos K) as H4.
  set (F1 := INR (fact (n - a - K))) in *. set (F2 := INR (fact (b - K))) in *.
  set (F3 := INR (fact (K + a - b))) in *. set (F4 := INR (fact K)) in *.
  set (b1 := INR (binom b (b - K))) in *.
  set (b2 := INR (binom (n - b) (K + a - b))) in *.
  set (Na := norm n a) in *. set (Nb := norm n b) in *.
  assert (Hkey : Nb / (F1 * F2 * F3 * F4) = / Nb * (b1 * b2)).
  { apply Rmult_eq_reg_r with (r := Nb * (F1 * F2 * F3 * F4)).
    - transitivity (Nb * Nb); [field; lra|].
      transitivity ((b1 * (F2 * F4)) * (b2 * (F3 * F1))); [|field; lra].
      rewrite HN, HB1, HB2. reflexivity.
    - apply Rgt_not_eq. repeat apply Rmult_lt_0_compat; lra. }
  transitivity (s ^ K * s ^ (K + a - b) * (c ^ (b - K) * c ^ (n - a - K))
                * ((-1) ^ (K + a - b) * Na) * (Nb / (F1 * F2 * F3 * F4)));
    [field; lra|].
  rewrite Hkey. field. lra.
Qed.

Lemma d_entry_form (n a b : nat) :
  (a <= n)%nat -> (b <= n)%nat ->
  d_entry n s c a b = norm n a / norm n b * form s c n a b.
Proof.
  intros Ha Hb. rewrite d_entry_sum, form_sum by done.
  rewrite <- Rsum_map_scal. apply Rsum_map_ext. intros K HK.
  by apply d_term.
Qed.

Hypothesis Hsc : s * s + c * c = 1.

(** The rows of the small-d matrix are orthonormal. *)
Lemma d_rows_orthonormal (n a a' : nat) :
  (a <= n)%nat -> (a' <= n)%nat ->
  Rsum (map (fun b => d_entry n s c a b * d_entry n s c a' b) (seq 0 (S n)))
  = if decide (a = a') then 1 else 0.
Proof.
  intros Ha Ha'.
  rewrite (Rsum_map_ext _ (fun b =>
    norm n a * norm n a' / INR (fact n)
    * (INR (binom n b) * (form s c n a b * form s c n a' b)))).
  2:{ intros b Hb. apply elem_of_seq in Hb.
      rewrite !d_entry_form by lia.
      pose proof (binom_fact_R n b ltac:(lia)) as HB.
      pose proof (norm_sqr n b) as HN. pose proof (norm_pos n b) as HNb.
      pose proof (fact_pos n) as Hn. rewrite <- HN in HB.
      set (Nb := norm n b) in *. set (bn := INR (binom n b)) in *.
      assert (Hbn : 0 < bn * (Nb * Nb)) by lra.
      rewrite <- HB. field. split; [lra|].
      intros H0. rewrite H0 in Hbn. lra. }
  rewrite Rsum_map_scal. fold (gram s c n a a'). rewrite (gram_delta s c Hsc).
  destruct (decide (a = a')) as [<-|Hne]; [|lra].
  pose proof (binom_fact_R n a Ha) as HB. pose proof (fact_pos n) as Hn.
  transitivity (INR (binom n a) * (norm n a * norm n a) / INR (fact n));
    [field; lra|].
  rewrite norm_sqr, HB. field. lra.
Qed.

End Entries.

(** *** Matrices of complex numbers *)

Definition width (M : list (list C)) : nat :=
  match M with [] => 0%nat | row :: _ => length row end.

Definition column (M : list (list C)) (b : nat) : list C :=
  map (fun row => default (0, 0) (row !! b)) M.

Definition transpose (M : list (list C)) : list (list C) :=
  map (column M) (seq 0 (width M)).

(** The conjugate transpose. *)
Definition adjoint (M : list (list C)) : list (list C) :=
  map (map Cconj) (transpose M).

Definition dot (u v : list C) : C := Csum (zip_with Cmul u v).

(** The matrix product, rows of [A] against columns of [B]. *)
Definition matmul (A B : list (list C)) : list (list C) :=
  map (fun row => map (dot row) (transpose B)) A.

Definition identity (N : nat) : list (list C) :=
  tab2 N (fun a b => if decide (a = b) then (1, 0) else (0, 0)).

Lemma map_tab {A B : Type} (g : A -> B) (N : nat) (F : nat -> A) :
  map g (tab N F) = tab N (fun i => g (F i)).
Proof. unfold tab. by rewrite map_map. Qed.

Lemma length_tab {A : Type} (N : nat) (F : nat -> A) : length (tab N F) = N.
Proof. unfold tab. by rewrite List.length_map, List.length_seq. Qed.

Lemma width_tab2 (N : nat) (F : nat -> nat -> C) : width (tab2 N F) = N.
Proof.
  destruct N as [|N]; [done|].
  unfold tab2. unfold tab at 1. cbn [seq map width]. apply length_tab.
Qed.

Lemma transpose_tab2 (N : nat) (F : nat -> nat -> C) :
  transpose (tab2 N F) = tab2 N (fun b a => F a b).
Proof.
  unfold transpose. rewrite width_tab2. unfold tab2 at 2.
  apply tab_ext. intros b Hb. unfold column, tab2. rewrite map_tab.
  apply tab_ext. intros a Ha. by rewrite tab_lookup, decide_True.
Qed.

Lemma adjoint_tab2 (N : nat) (F : nat -> nat -> C) :
  adjoint (tab2 N F) = tab2 N (fun b a => Cconj (F a b)).
Proof.
  unfold adjoint. rewrite transpose_tab2. unfold tab2. rewrite map_tab.
  apply tab_ext. intros b _. by rewrite map_tab.
Qed.

Lemma matmul_tab2 (N : nat) (F G : nat -> nat -> C) :
  matmul (tab2 N F) (tab2 N G)
  = tab2 N (fun a a' => Csum (map (fun b => Cmul (F a b) (G b a')) (seq 0 N))).
Proof.
  unfold matmul. rewrite transpose_tab2. unfold tab2. rewrite map_tab.
  apply tab_ext. intros a _. rewrite map_tab.
  apply tab_ext. intros a' _. unfold dot. by rewrite zip_with_tab.
Qed.

Lemma Csum_scaled {A : Type} (u v : R) (g : A -> R) (l : list A) :
  Csum (map (fun x => (u * g x, v * g x)) l)
  = (u * Rsum (map g l), v * Rsum (map g l)).
Proof.
  induction l as [|x l IH]; cbn [map].
  - unfold Csum, Rsum. simpl. f_equal; lra.
  - change (Csum (?z :: ?t)) with (Cadd z (Csum t)).
    rewrite IH, Rsum_cons. unfold Cadd. simpl. f_equal; lra.
Qed.

Lemma phase_product (x x' y d d' : R) :
  Cmul (Cmul (Cmul (Cexp (0, x)) (Cexp (0, y))) (of_real d))
       (Cconj (Cmul (Cmul (Cexp (0, x')) (Cexp (0, y))) (of_real d')))
  = ((cos x * cos x' + sin x * sin x') * (d * d'),
     (sin x * cos x' - cos x * sin x') * (d * d')).
Proof.
  unfold Cmul, Cconj, Cexp, of_real. cbn [fst snd]. rewrite exp_0.
  pose proof (sin2_cos2 y) as Hy. unfold Rsqr in Hy.
  set (cy := cos y) in *. set (sy := sin y) in *.
  f_equal.
  - transitivity ((cos x * cos x' + sin x * sin x') * (d * d')
                  * (sy * sy + cy * cy)); [ring|rewrite Hy; ring].
  - transitivity ((sin x * cos x' - cos x * sin x') * (d * d')
                  * (sy * sy + cy * cy)); [ring|rewrite Hy; ring].
Qed.

Lemma D_matrix_conj_tab {event : Type} (alpha beta gamma : event -> R)
    (n : nat) (ev : event) :
  D_matrix_conj alpha beta gamma (Z.of_nat n) ev
  = tab2 (S n) (fun a b =>
      Cmul (Cmul (Cexp (0, IZR (m_of n a) * alpha ev))
                 (Cexp (0, IZR (m_of n b) * gamma ev)))
           (of_real (d_entry n (sin (beta ev / 2)) (cos (beta ev / 2)) a b))).
Proof.
  unfold D_matrix_conj, exp_i. cbv zeta.
  rewrite py_range3_spins, small_d_matrix_tab, !map_map.
  fold (tab (S n) (fun a => Cexp (0, IZR (m_of n a) * alpha ev))).
  fold (tab (S n) (fun a => Cexp (0, IZR (m_of n a) * gamma ev))).
  unfold tab2. rewrite zip_with_tab. apply tab_ext. intros a _.
  by rewrite zip_with_tab.
Qed.

(** C5: for every spin label and all Euler angles, the matrix returned by
    [D_matrix_conj] for an event, multiplied by its conjugate transpose, is
    the identity matrix of size (spin label + 1). *)
Theorem D_matrix_conj_unitary {event : Type} (alpha beta gamma : event -> R)
    (n : nat) (ev : event) :
  matmul (D_matrix_conj alpha beta gamma (Z.of_nat n) ev)
         (adjoint (D_matrix_conj alpha beta gamma (Z.of_nat n) ev))
  = identity (S n).
Proof.
  rewrite D_matrix_conj_tab, adjoint_tab2, matmul_tab2. unfold identity, tab2.
  apply tab_ext. intros a Ha. apply tab_ext. intros a' Ha'.
  rewrite (map_ext _ _ (fun b => phase_product _ _ _ _ _)).
  rewrite (Csum_scaled _ _ (fun b =>
    d_entry n (sin (beta ev / 2)) (cos (beta ev / 2)) a b
    * d_entry n (sin (beta ev / 2)) (cos (beta ev / 2)) a' b)).
  rewrite d_rows_orthonormal; [| |lia..].
  - destruct (decide (a = a')) as [<-|Hne]; f_equal; try lra.
    + pose proof (sin2_cos2 (IZR (m_of n a) * alpha ev)) as H.
      unfold Rsqr in H. lra.
  - pose proof (sin2_cos2 (beta ev / 2)) as H. unfold Rsqr in H. lra.
Qed.

(** ** Further properties of the rotation matrices *)

(** *** No tilt: [beta = 0] *)

Lemma form_at_zero (n a b : nat) :
  form 0 1 n a b = if decide (a = b) then 1 else 0.
Proof.
  unfold form, conv. rewrite Rsum_seq_last, Rsum_map_zero.
  - rewrite Nat.sub_diag. unfold up, down. cbn [pow].
    rewrite binom_0_r, pow1. change (INR 1) with 1.
    destruct (decide (a = b)) as [->|Hne].
    + rewrite Nat.sub_diag, pow1. 
      assert (Hd : binom b b = 1%nat).
      { clear. induction b as [|b IH]; [done|]. simpl.
        rewrite IH, binom_gt by lia. done. }
      rewrite Hd. simpl. lra.
    + destruct (le_lt_dec a b) as [Hle|Hgt].
      * replace (b - a)%nat with (S (b - a - 1)) by lia. simpl. lra.
      * rewrite binom_gt by lia. simpl. lra.
  - intros i Hi. apply elem_of_seq in Hi. unfold down.
    replace (a - i)%nat with (S (a - i - 1)) by lia. simpl. lra.
Qed.

Lemma d_entry_at_zero (n a b : nat) :
  (a <= n)%nat -> (b <= n)%nat ->
  d_entry n 0 1 a b = if decide (a = b) then 1 else 0.
Proof.
  intros Ha Hb. rewrite d_entry_form, form_at_zero by done.
  destruct (decide (a = b)) as [->|Hne]; [|lra].
  pose proof (norm_pos n b). field. lra.
Qed.

Lemma Cexp_add (x y : R) :
  Cmul (Cexp (0, x)) (Cexp (0, y)) = Cexp (0, x + y).
Proof.
  unfold Cmul, Cexp. cbn [fst snd]. rewrite exp_0, cos_plus, sin_plus.
  f_equal; ring.
Qed.

(** With [beta = 0] the matrix is diagonal: the entry of the doubled
    projection [m] is [exp (i m (alpha + gamma))]. *)
Theorem D_matrix_conj_no_tilt {event : Type} (alpha gamma : event -> R)
    (n : nat) (ev : event) :
  D_matrix_conj alpha (fun _ => 0) gamma (Z.of_nat n) ev
  = tab2 (S n) (fun a b =>
      if decide (a = b)
      then Cexp (0, IZR (m_of n a) * (alpha ev + gamma ev))
      else (0, 0)).
Proof.
  rewrite D_matrix_conj_tab. unfold tab2.
  apply tab_ext. intros a Ha. apply tab_ext. intros b Hb.
  replace (0 / 2) with 0 by lra. rewrite sin_0, cos_0.
  rewrite d_entry_at_zero by lia.
  destruct (decide (a = b)) as [->|Hne].
  - rewrite Cexp_add, <- Rmult_plus_distr_l.
    unfold Cmul, of_real. cbn [fst snd]. 
    destruct (Cexp _) as [u v]. cbn [fst snd]. f_equal; ring.
  - unfold Cmul, of_real. cbn [fst snd]. f_equal; ring.
Qed.

(** *** The opposite angle *)

Lemma Krange_swap (n a b : nat) :
  (a <= n)%nat -> (b <= n)%nat ->
  Krange n b a = map (fun K => (K + a - b)%nat) (Krange n a b).
Proof.
  intros Ha Hb. unfold Krange. rewrite (seq_from (a - b)), (seq_from (b - a)), map_map.
  replace (S (Nat.min (n - b) a) - (a - b))%nat
    with (S (Nat.min (n - a) b) - (b - a))%nat by lia.
  apply map_ext. intros i. lia.
Qed.

Lemma minus_one_sqr (e : nat) : (-1) ^ e * (-1) ^ e = 1.
Proof. induction e as [|e IH]; simpl; [lra|]. nra. Qed.

Lemma pow_opp (x : R) (k : nat) : (- x) ^ k = (-1) ^ k * x ^ k.
Proof. rewrite <- Rpow_mult_distr. f_equal. lra. Qed.

Lemma wval_swap (n a b K : nat) :
  (a <= n)%nat -> (b <= n)%nat -> K ∈ Krange n a b ->
  (-1) ^ (2 * K + a - b) * wval n a b K = wval n b a (K + a - b).
Proof.
  intros Ha Hb HK. apply elem_of_Krange in HK; [|done..].
  unfold wval.
  replace (2 * K + a - b)%nat with (K + (K + a - b))%nat by lia.
  replace (n - b - (K + a - b))%nat with (n - a - K)%nat by lia.
  replace (a - (K + a - b))%nat with (b - K)%nat by lia.
  replace (K + a - b + b - a)%nat with K by lia.
  set (e := (K + a - b)%nat).
  replace (1 * INR (fact b) * INR (fact (n - b)) * INR (fact a)
           * INR (fact (n - a)))
    with (1 * INR (fact a) * INR (fact (n - a)) * INR (fact b)
          * INR (fact (n - b))) by ring.
  set (Sq := sqrt _).
  pose proof (fact_pos (n - a - K)) as H1. pose proof (fact_pos (b - K)) as H2.
  pose proof (fact_pos e) as H3. pose proof (fact_pos K) as H4.
  rewrite pow_add.
  transitivity ((-1) ^ K * ((-1) ^ e * (-1) ^ e) * Sq
                / (INR (fact (n - a - K)) * INR (fact (b - K))
                   * INR (fact e) * INR (fact K))); [field; lra|].
  rewrite minus_one_sqr. field. lra.
Qed.

Lemma d_entry_opp (n : nat) (s c : R) (a b : nat) :
  (a <= n)%nat -> (b <= n)%nat ->
  d_entry n (- s) c a b = d_entry n s c b a.
Proof.
  intros Ha Hb. rewrite !d_entry_sum by done.
  rewrite (Krange_swap n a b), map_map by done. apply Rsum_map_ext. intros K HK.
  rewrite <- wval_swap by done.
  apply elem_of_Krange in HK; [|done..].
  replace (2 * (K + a - b) + b - a)%nat with (2 * K + a - b)%nat by lia.
  rewrite pow_opp. ring.
Qed.

Lemma get2_tab2_out (N : nat) (G : nat -> nat -> R) (a b : nat) :
  (N <= a)%nat \/ (N <= b)%nat -> get2 (tab2 N G) a b = 0.
Proof.
  intros Hout. unfold get2, tab2. rewrite tab_lookup.
  destruct (decide (a < N)%nat); [|done]. simpl.
  rewrite tab_lookup, decide_False by lia. done.
Qed.

(** The matrix of the opposite angle is the transpose: the entry [a], [b]
    of [d(-theta)] is the entry [b], [a] of [d(theta)]. *)
Theorem small_d_matrix_opposite {event : Type} (theta : event -> R) (n : nat)
    (ev : event) (a b : nat) :
  get2 (small_d_matrix (fun e => - theta e) (Z.of_nat n) ev) a b
  = get2 (small_d_matrix theta (Z.of_nat n) ev) b a.
Proof.
  rewrite !small_d_matrix_tab.
  destruct (le_lt_dec (S n) a) as [Ha|Ha];
    [by rewrite !get2_tab2_out by lia|].
  destruct (le_lt_dec (S n) b) as [Hb|Hb];
    [by rewrite !get2_tab2_out by lia|].
  rewrite !get2_tab2 by lia.
  replace (- theta ev / 2) with (- (theta ev / 2)) by lra.
  rewrite sin_neg, cos_neg. apply d_entry_opp; lia.
Qed.

(** *** Orthogonality of the small-d matrix *)

(** The rows of [small_d_matrix] are orthonormal, for every spin label and
    every angle. *)
Theorem small_d_matrix_orthogonal {event : Type} (theta : event -> R)
    (n : nat) (ev : event) (a a' : nat) :
  (a <= n)%nat -> (a' <= n)%nat ->
  Rsum (map (fun b => get2 (small_d_matrix theta (Z.of_nat n) ev) a b
                      * get2 (small_d_matrix theta (Z.of_nat n) ev) a' b)
            (seq 0 (S n)))
  = if decide (a = a') then 1 else 0.
Proof.
  intros Ha Ha'. rewrite small_d_matrix_tab.
  rewrite (Rsum_map_ext _ (fun b =>
    d_entry n (sin (theta ev / 2)) (cos (theta ev / 2)) a b
    * d_entry n (sin (theta ev / 2)) (cos (theta ev / 2)) a' b)).
  - apply d_rows_orthonormal; [|done..].
    pose proof (sin2_cos2 (theta ev / 2)) as Hsc. unfold Rsqr in Hsc. lra.
  - intros b Hb. apply elem_of_seq in Hb. by rewrite !get2_tab2 by lia.
Qed.

Lemma small_d_matrix_orthogonal_witness :
  Rsum (map (fun b => get2 (small_d_matrix (fun _ : unit => 1) 2 tt) 0 b
                      * get2 (small_d_matrix (fun _ : unit => 1) 2 tt) 2 b)
            (seq 0 3))
  = 0.
Proof.
  apply (small_d_matrix_orthogonal (fun _ : unit => 1) 2 tt 0 2); lia.
Defined.

(** *** The weight table *)

(** The table of [small_d_weight] has an entry for every index up to the
    spin label; the entry [l], [a], [b] is the value computed in the loops
    for the one [k] with [l = (2 k + m - n) / 2], and zero when there is no
    such [k]. *)
Theorem small_d_weight_entries (n a b : nat) :
  (a <= n)%nat -> (b <= n)%nat ->
  (forall K, K ∈ Krange n a b ->
     lookup3 (small_d_weight (Z.of_nat n)) (2 * K + a - b) a b
     = Some (weight_value (Z.of_nat n) (m_of n a) (m_of n b)
                          (2 * Z.of_nat K)))
  /\ (forall l, (l <= n)%nat ->
        l ∉ map (fun K => (2 * K + a - b)%nat) (Krange n a b) ->
        lookup3 (small_d_weight (Z.of_nat n)) l a b = Some 0).
Proof.
  intros Ha Hb.
  assert (Hlook : forall l, (l <= n)%nat ->
    lookup3 (small_d_weight (Z.of_nat n)) l a b = Some (weight_fun n l a b)).
  { intros l Hl. rewrite small_d_weight_tab. unfold lookup3, tab3, tab2, tensor3.
    rewrite tab_lookup, decide_True by lia. cbn [mbind option_bind].
    rewrite tab_lookup, decide_True by lia. cbn [mbind option_bind].
    by rewrite tab_lookup, decide_True by lia. }
  split.
  - intros K HK. pose proof HK as HK'.
    apply elem_of_Krange in HK'; [|done..].
    rewrite Hlook by lia.
    by rewrite weight_fun_hit, weight_value_index.
  - intros l Hl Hout. rewrite Hlook by done. by rewrite weight_fun_miss.
Qed.

Lemma small_d_weight_entries_witness :
  lookup3 (small_d_weight 2) 0 1 1
  = Some (weight_value 2 (m_of 2 1) (m_of 2 1) 0).
Proof.
  destruct (small_d_weight_entries 2 1 1) as [Hhit _]; [lia..|].
  apply (Hhit 0%nat). unfold Krange. simpl. by left.
Defined.

(** *** Composition of rotations about the same axis *)

Lemma form_high (s c : R) (N a b : nat) :
  (b <= N)%nat -> (N < a)%nat -> form s c N a b = 0.
Proof.
  revert a b. induction N as [|N IH]; intros a b Hb Ha.
  - replace b with 0%nat by lia. rewrite form_0.
    rewrite decide_False by lia. done.
  - destruct a as [|a]; [lia|].
    destruct b as [|b].
    + rewrite form_succ_N by lia. cbn [shift].
      rewrite !IH by lia. lra.
    + rewrite form_succ_b. cbn [shift]. rewrite !IH by lia. lra.
Qed.

Section Compose.
Variables s1 c1 s2 c2 : R.

(** The entries of the product of the two coefficient matrices. *)
Definition form_product (N a c : nat) : R :=
  Rsum (map (fun b => form s1 c1 N a b * form s2 c2 N b c) (seq 0 (S N))).

Lemma shift_sum (N a c : nat) :
  Rsum (map (fun b => shift (fun x => form s1 c1 N x b) a * form s2 c2 N b c)
            (seq 0 (S N)))
  = shift (fun x => form_product N x c) a.
Proof.
  destruct a as [|a]; cbn [shift]; [|done].
  apply Rsum_map_zero. intros; lra.
Qed.

Lemma product_low (N a c : nat) :
  (c <= N)%nat ->
  Rsum (map (fun b => form s1 c1 (S N) a b * form s2 c2 N b c)
            (seq 0 (S (S N))))
  = c1 * form_product N a c - s1 * shift (fun x => form_product N x c) a.
Proof.
  intros Hc. rewrite Rsum_seq_last, (form_high s2 c2 N (S N) c) by lia.
  rewrite Rmult_0_r, Rplus_0_r, <- shift_sum. unfold form_product.
  rewrite <- !Rsum_map_scal.
  replace (Rsum (map (fun x => c1 * (form s1 c1 N a x * form s2 c2 N x c))
                     (seq 0 (S N)))
           - Rsum (map (fun x => s1 * (shift (fun x0 => form s1 c1 N x0 x) a
                                      * form s2 c2 N x c)) (seq 0 (S N))))
    with (Rsum (map (fun x => c1 * (form s1 c1 N a x * form s2 c2 N x c))
                    (seq 0 (S N)))
          + Rsum (map (fun x => - (s1 * (shift (fun x0 => form s1 c1 N x0 x) a
                                        * form s2 c2 N x c))) (seq 0 (S N)))).
  2:{ rewrite (Rsum_map_ext (fun x => - _) (fun x => (-1) *
        (s1 * (shift (fun x0 => form s1 c1 N x0 x) a * form s2 c2 N x c))))
        by (intros; lra).
      rewrite (Rsum_map_scal (-1)). lra. }
  rewrite <- Rsum_map_plus. apply Rsum_map_ext. intros b Hb.
  apply elem_of_seq in Hb. rewrite form_succ_N by lia. lra.
Qed.

Lemma product_high (N a c : nat) :
  Rsum (map (fun b => form s1 c1 (S N) a b
                      * shift (fun x => form s2 c2 N x c) b)
            (seq 0 (S (S N))))
  = s1 * form_product N a c + c1 * shift (fun x => form_product N x c) a.
Proof.
  rewrite Rsum_seq_head. cbn [shift]. rewrite Rmult_0_r, Rplus_0_l.
  rewrite <- shift_sum. unfold form_product.
  rewrite <- !Rsum_map_scal, <- Rsum_map_plus.
  apply Rsum_map_ext. intros b _. rewrite form_succ_b. lra.
Qed.

Lemma form_compose (N a c : nat) :
  (c <= N)%nat ->
  form_product N a c = form (s1 * c2 + c1 * s2) (c1 * c2 - s1 * s2) N a c.
Proof.
  revert a c. induction N as [|N IH]; intros a c Hc.
  - replace c with 0%nat by lia. unfold form_product. cbn [seq map].
    rewrite Rsum_cons, !form_0. change (Rsum []) with 0.
    repeat case_decide; try done; lra.
  - assert (Hshift : shift (fun x => form_product N x (pred c)) a
      = shift (fun x => form (s1 * c2 + c1 * s2) (c1 * c2 - s1 * s2) N x (pred c)) a
      \/ c = O).
    { destruct c as [|c]; [by right|left]. cbn [pred].
      destruct a as [|a]; cbn [shift]; [done|]. apply IH. lia. }
    destruct c as [|c].
    + unfold form_product.
      rewrite (Rsum_map_ext _ (fun b =>
        c2 * (form s1 c1 (S N) a b * form s2 c2 N b 0)
        + (- s2) * (form s1 c1 (S N) a b
                    * shift (fun x => form s2 c2 N x 0) b))).
      2:{ intros b _. rewrite (form_succ_N s2 c2) by lia. lra. }
      rewrite Rsum_map_plus, !Rsum_map_scal, product_low, product_high by lia.
      rewrite form_succ_N by lia.
      assert (Hs : shift (fun x => form_product N x 0) a
                   = shift (fun x => form (s1 * c2 + c1 * s2)
                                          (c1 * c2 - s1 * s2) N x 0) a).
      { destruct a as [|a]; cbn [shift]; [done|]. apply IH. lia. }
      rewrite Hs, IH by lia. lra.
    + destruct Hshift as [Hs|]; [|done]. cbn [pred] in Hs.
      unfold form_product.
      rewrite (Rsum_map_ext _ (fun b =>
        s2 * (form s1 c1 (S N) a b * form s2 c2 N b c)
        + c2 * (form s1 c1 (S N) a b
                * shift (fun x => form s2 c2 N x c) b))).
      2:{ intros b _. rewrite (form_succ_b s2 c2). lra. }
      rewrite Rsum_map_plus, !Rsum_map_scal, product_low, product_high by lia.
      rewrite form_succ_b, Hs, IH by lia. lra.
Qed.

Lemma d_entry_compose (n a c : nat) :
  (a <= n)%nat -> (c <= n)%nat ->
  Rsum (map (fun b => d_entry n s1 c1 a b * d_entry n s2 c2 b c)
            (seq 0 (S n)))
  = d_entry n (s1 * c2 + c1 * s2) (c1 * c2 - s1 * s2) a c.
Proof.
  intros Ha Hc. rewrite d_entry_form, <- form_compose by done.
  unfold form_product. rewrite <- Rsum_map_scal.
  apply Rsum_map_ext. intros b Hb. apply elem_of_seq in Hb.
  rewrite !d_entry_form by lia.
  pose proof (norm_pos n b). pose proof (norm_pos n c). field. lra.
Qed.

End Compose.

(** Rotations about the same axis compose: the matrix product of the
    small-d matrices of two angles is the small-d matrix of their sum. *)
Theorem small_d_matrix_compose {event : Type} (theta1 theta2 : event -> R)
    (n : nat) (ev : event) (a c : nat) :
  Rsum (map (fun b => get2 (small_d_matrix theta1 (Z.of_nat n) ev) a b
                      * get2 (small_d_matrix theta2 (Z.of_nat n) ev) b c)
            (seq 0 (S n)))
  = get2 (small_d_matrix (fun e => theta1 e + theta2 e) (Z.of_nat n) ev) a c.
Proof.
  rewrite !small_d_matrix_tab.
  destruct (le_lt_dec (S n) a) as [Ha|Ha].
  { rewrite (get2_tab2_out _ _ a c) by lia. apply Rsum_map_zero.
    intros b _. rewrite (get2_tab2_out _ _ a b) by lia. lra. }
  destruct (le_lt_dec (S n) c) as [Hc|Hc].
  { rewrite (get2_tab2_out _ _ a c) by lia. apply Rsum_map_zero.
    intros b _. rewrite (get2_tab2_out _ _ b c) by lia. lra. }
  rewrite get2_tab2 by lia.
  replace ((theta1 ev + theta2 ev) / 2) with (theta1 ev / 2 + theta2 ev / 2)
    by lra.
  rewrite sin_plus, cos_plus, <- d_entry_compose by lia.
  apply Rsum_map_ext. intros b Hb. apply elem_of_seq in Hb.
  by rewrite !get2_tab2 by lia.
Qed.

(** ** Selection of matrix elements: [delta_D_trans] and [Dfun_delta] *)

(** A rank-five array of floats. *)
Definition tensor5 : Type := list (list (list (list (list R)))).

Definition zeros5 (n1 n2 n3 n4 n5 : nat) : tensor5 :=
  replicate n1 (replicate n2 (replicate n3 (replicate n4 (replicate n5 0)))).

(** An integer index into an axis of the given size, as numpy resolves it:
    a negative index counts from the end of the axis. *)
Definition np_index (size : nat) (i : Z) : result nat :=
  if decide (0 <= i < Z.of_nat size)%Z then Ok (Z.to_nat i)
  else if decide (- Z.of_nat size <= i < 0)%Z
       then Ok (Z.to_nat (i + Z.of_nat size))
       else Raise IndexError.

(** [s[i1][i2][i3][i4][i5] = v] *)
Definition set5 (s : tensor5) (i1 i2 i3 i4 i5 : Z) (v : R) : result tensor5 :=
  n1 ← np_index (length s) i1; s1 ← index s n1;
  n2 ← np_index (length s1) i2; s2 ← index s1 n2;
  n3 ← np_index (length s2) i3; s3 ← index s2 n3;
  n4 ← np_index (length s3) i4; s4 ← index s3 n4;
  n5 ← np_index (length s4) i5;
  Ok (alter (alter (alter (alter (<[n5 := v]>) n4) n3) n2) n1 s).

(** [enumerate(l)] *)
Definition enumerate {A : Type} (l : list A) : list (nat * A) :=
  imap (fun i x => (i, x)) l.

(** The innermost statement of [_tuple_delta_D_trans]. *)
Definition delta_step (j : Z) (ia : nat * Z) (ib : nat * Z) (ic : nat * Z)
    (s : tensor5) : result tensor5 :=
  let delta := (ib.2 - ic.2)%Z in
  if decide (Z.abs delta <= j)%Z
  then set5 s (ia.2 + j) (delta + j)
            (Z.of_nat ia.1) (Z.of_nat ib.1) (Z.of_nat ic.1) 1
  else Ok s.

Definition _tuple_delta_D_trans (j : Z) (la lb lc : list Z) : result tensor5 :=
  _ ← Spin.zeros_shape [(2 * j + 1)%Z; (2 * j + 1)%Z];
  let s := zeros5 (Z.to_nat (2 * j + 1)) (Z.to_nat (2 * j + 1))
                  (length la) (length lb) (length lc) in
  for_each (enumerate la) (fun ia s =>
    for_each (enumerate lb) (fun ib s =>
      for_each (enumerate lc) (fun ic s => delta_step j ia ib ic s) s) s) s.

(** [delta_D_trans] turns its arguments into tuples and calls the cached
    function. *)
Definition delta_D_trans (j : Z) (la lb lc : list Z) : result tensor5 :=
  _tuple_delta_D_trans j la lb lc.

(** [cell[a][b][c]] inside [einsum]. *)
Definition get3 (cell : list (list (list R))) (a b c : nat) : R :=
  default 0 (row ← cell !! a; col ← row !! b; col !! c).

(** [tf.einsum("ijd,jdabc->iabc", d, t)] on one event. *)
Definition einsum_ijd_jdabc_iabc (d : list (list C)) (t : tensor5)
    (na nb nc : nat) : list (list (list C)) :=
  map (fun a => map (fun b => map (fun c =>
    Csum (zip_with (fun drow plane =>
            Csum (zip_with (fun dv cell =>
                    Cmul dv (of_real (get3 cell a b c))) drow plane)) d t))
    (seq 0 nc)) (seq 0 nb)) (seq 0 na).

(** [tf.einsum("ijd,jdabc->iab", d, t)] on one event. *)
Definition einsum_ijd_jdabc_iab (d : list (list C)) (t : tensor5)
    (na nb nc : nat) : list (list C) :=
  map (fun a => map (fun b =>
    Csum (zip_with (fun drow plane =>
            Csum (zip_with (fun dv cell =>
                    Csum (map (fun c => Cmul dv (of_real (get3 cell a b c)))
                              (seq 0 nc))) drow plane)) d t))
    (seq 0 nb)) (seq 0 na).

(** What [Dfun_delta] returns for an event: an array over [la], [lb] and
    [lc], or over [la] and [lb] when [lc] is left out. *)
Inductive delta_result : Type :=
| Rank3 (t : list (list (list C)))
| Rank2 (t : list (list C)).

Definition Dfun_delta {event : Type} (d : event -> list (list C)) (ja : Z)
    (la lb : list Z) (lc : option (list Z)) : result (event -> delta_result) :=
  match lc with
  | Some lc =>
      t ← delta_D_trans ja la lb lc;
      Ok (fun ev => Rank3 (einsum_ijd_jdabc_iabc (d ev) t
                             (length la) (length lb) (length lc)))
  | None =>
      let lc := [0%Z] in
      t ← delta_D_trans ja la lb lc;
      Ok (fun ev => Rank2 (einsum_ijd_jdabc_iab (d ev) t
                             (length la) (length lb) (length lc)))
  end.

(** [d[x][y]] for integer indices in range. *)
Definition matrix_entry (d : list (list C)) (x y : Z) : C :=
  default (0, 0) (row ← d !! Z.to_nat x; row !! Z.to_nat y).

(** *** Indices *)

Lemma np_index_nat (size n : nat) :
  (n < size)%nat -> np_index size (Z.of_nat n) = Ok n.
Proof.
  intros Hn. unfold np_index. rewrite decide_True by lia. by rewrite Nat2Z.id.
Qed.

Lemma np_index_lt (size : nat) (i : Z) (n : nat) :
  np_index size i = Ok n -> (n < size)%nat.
Proof.
  unfold np_index. repeat case_decide; intros [= <-]; lia.
Qed.

Lemma np_index_raise (size : nat) (i : Z) (e : pyexn) :
  np_index size i = Raise e ->
  e = IndexError /\ ((Z.of_nat size <= i)%Z \/ (i < - Z.of_nat size)%Z).
Proof.
  unfold np_index. repeat case_decide; intros [= <-]. split; [done|lia].
Qed.

Lemma elem_of_enumerate {A : Type} (l : list A) (i : nat) (x : A) :
  (i, x) ∈ enumerate l <-> l !! i = Some x.
Proof.
  unfold enumerate. rewrite elem_of_lookup_imap. split.
  - intros (i' & x' & [= -> ->] & Hl). done.
  - intros Hl. by exists i, x.
Qed.

(** *** Rank-five arrays as tabulated functions *)

Definition cell5 : Type := (nat * nat * nat * nat * nat)%type.

Definition tab5 (n1 n2 n3 n4 n5 : nat) (F : cell5 -> R) : tensor5 :=
  tab n1 (fun i1 => tab n2 (fun i2 => tab n3 (fun i3 => tab n4 (fun i4 =>
    tab n5 (fun i5 => F (i1, i2, i3, i4, i5)))))).

Definition upd5 (F : cell5 -> R) (k : cell5) (v : R) : cell5 -> R :=
  fun k' => if decide (k' = k) then v else F k'.

Lemma zeros5_tab (n1 n2 n3 n4 n5 : nat) :
  zeros5 n1 n2 n3 n4 n5 = tab5 n1 n2 n3 n4 n5 (fun _ => 0).
Proof. unfold zeros5, tab5. by rewrite !tab_replicate. Qed.

Lemma index_tab {A : Type} (N : nat) (F : nat -> A) (i : nat) :
  (i < N)%nat -> index (tab N F) i = Ok (F i).
Proof. intros Hi. unfold index. by rewrite tab_lookup, decide_True. Qed.

Lemma set5_tab (n1 n2 n3 n4 n5 : nat) (F : cell5 -> R) (i1 i2 i3 i4 i5 : Z)
    (k1 k2 k3 k4 k5 : nat) (v : R) :
  np_index n1 i1 = Ok k1 -> np_index n2 i2 = Ok k2 ->
  np_index n3 i3 = Ok k3 -> np_index n4 i4 = Ok k4 ->
  np_index n5 i5 = Ok k5 ->
  set5 (tab5 n1 n2 n3 n4 n5 F) i1 i2 i3 i4 i5 v
  = Ok (tab5 n1 n2 n3 n4 n5 (upd5 F (k1, k2, k3, k4, k5) v)).
Proof.
  intros H1 H2 H3 H4 H5.
  pose proof (np_index_lt _ _ _ H1). pose proof (np_index_lt _ _ _ H2).
  pose proof (np_index_lt _ _ _ H3). pose proof (np_index_lt _ _ _ H4).
  unfold set5, tab5, tensor5.
  rewrite length_tab, H1, bind_Ok, index_tab, bind_Ok by done.
  rewrite length_tab, H2, bind_Ok, index_tab, bind_Ok by done.
  rewrite length_tab, H3, bind_Ok, index_tab, bind_Ok by done.
  rewrite length_tab, H4, bind_Ok, index_tab, bind_Ok by done.
  rewrite length_tab, H5, bind_Ok. f_equal.
  rewrite tab_alter. apply tab_ext. intros j1 _. cbv beta.
  destruct (decide (j1 = k1)) as [->|N1].
  2:{ do 4 (apply tab_ext; intros ? _). unfold upd5.
      rewrite decide_False; [done|congruence]. }
  rewrite tab_alter. apply tab_ext. intros j2 _. cbv beta.
  destruct (decide (j2 = k2)) as [->|N2].
  2:{ do 3 (apply tab_ext; intros ? _). unfold upd5.
      rewrite decide_False; [done|congruence]. }
  rewrite tab_alter. apply tab_ext. intros j3 _. cbv beta.
  destruct (decide (j3 = k3)) as [->|N3].
  2:{ do 2 (apply tab_ext; intros ? _). unfold upd5.
      rewrite decide_False; [done|congruence]. }
  rewrite tab_alter. apply tab_ext. intros j4 _. cbv beta.
  destruct (decide (j4 = k4)) as [->|N4].
  2:{ apply tab_ext; intros ? _. unfold upd5.
      rewrite decide_False; [done|congruence]. }
  rewrite tab_insert. apply tab_ext. intros j5 _. unfold upd5.
  destruct (decide (j5 = k5)) as [->|N5].
  - by rewrite decide_True.
  - rewrite decide_False; [done|congruence].
Qed.

(** *** The loops of [_tuple_delta_D_trans] *)

Lemma for_each_app {A S : Type} (l1 l2 : list A) (body : A -> S -> result S)
    (s : S) :
  for_each (l1 ++ l2) body s = (s' ← for_each l1 body s; for_each l2 body s').
Proof.
  revert s. induction l1 as [|a l1 IH]; intros s; [done|].
  cbn [app]. rewrite !for_each_cons. destruct (body a s) as [s1|e]; [|done].
  rewrite !bind_Ok. apply IH.
Qed.

Lemma for_each_bind_list {A B S : Type} (g : A -> list B) (l : list A)
    (body : B -> S -> result S) (s : S) :
  for_each (l ≫= g) body s = for_each l (fun a s => for_each (g a) body s) s.
Proof.
  revert s. induction l as [|a l IH]; intros s; [done|].
  change ((a :: l) ≫= g) with (g a ++ (l ≫= g)).
  rewrite for_each_app, for_each_cons.
  destruct (for_each (g a) body s) as [s1|e]; [|done].
  rewrite !bind_Ok. apply IH.
Qed.

(** One iteration of the three loops: the enumerated elements of [la],
    [lb] and [lc]. *)
Definition iteration : Type := ((nat * Z) * (nat * Z) * (nat * Z))%type.

Definition iterations (la lb lc : list Z) : list iteration :=
  ia ← enumerate la; ib ← enumerate lb; ic ← enumerate lc; [(ia, ib, ic)].

Lemma elem_of_iterations (la lb lc : list Z) (t : iteration) :
  t ∈ iterations la lb lc
  <-> la !! t.1.1.1 = Some t.1.1.2 /\ lb !! t.1.2.1 = Some t.1.2.2
      /\ lc !! t.2.1 = Some t.2.2.
Proof.
  destruct t as [[[ia x] [ib y]] [ic z]]. cbn [fst snd].
  unfold iterations. rewrite list_elem_of_bind. split.
  - intros ([ia' x'] & Hin & Ha%elem_of_enumerate).
    apply list_elem_of_bind in Hin as ([ib' y'] & Hin & Hb%elem_of_enumerate).
    apply list_elem_of_bind in Hin as ([ic' z'] & Hin & Hc%elem_of_enumerate).
    apply list_elem_of_singleton in Hin. by simplify_eq.
  - intros (Ha & Hb & Hc). exists (ia, x). split; [|by apply elem_of_enumerate].
    apply list_elem_of_bind. exists (ib, y).
    split; [|by apply elem_of_enumerate].
    apply list_elem_of_bind. exists (ic, z).
    split; [|by apply elem_of_enumerate].
    by apply list_elem_of_singleton.
Qed.

Lemma for_each_ext {A S : Type} (l : list A) (body body' : A -> S -> result S)
    (s : S) :
  (forall a s', a ∈ l -> body a s' = body' a s') ->
  for_each l body s = for_each l body' s.
Proof.
  revert s. induction l as [|a l IH]; intros s Hb; [done|].
  rewrite !for_each_cons, Hb by (by left).
  destruct (body' a s) as [s1|e]; [|done]. rewrite !bind_Ok. apply IH.
  intros a' s' Ha'. apply Hb. by right.
Qed.

Lemma loops_flat (j : Z) (la lb lc : list Z) (s : tensor5) :
  for_each (enumerate la) (fun ia s =>
    for_each (enumerate lb) (fun ib s =>
      for_each (enumerate lc) (fun ic s => delta_step j ia ib ic s) s) s) s
  = for_each (iterations la lb lc)
             (fun t s => delta_step j t.1.1 t.1.2 t.2 s) s.
Proof.
  unfold iterations. rewrite for_each_bind_list.
  apply for_each_ext. intros ia s1 _. rewrite for_each_bind_list.
  apply for_each_ext. intros ib s2 _. rewrite for_each_bind_list.
  apply for_each_ext. intros ic s3 _.
  cbn [for_each fst snd]. by destruct (delta_step j ia ib ic s3).
Qed.

(** The condition of the [if], the cell an iteration writes, and the
    iterations whose first index is out of range. *)
Definition writes_cell (j : Z) (t : iteration) : Prop :=
  (Z.abs (t.1.2.2 - t.2.2) <= j)%Z.

Definition resolve (size : nat) (i : Z) : nat :=
  match np_index size i with Ok n => n | Raise _ => 0%nat end.

Definition cell_of (j : Z) (t : iteration) : cell5 :=
  (resolve (Z.to_nat (2 * j + 1)) (t.1.1.2 + j),
   Z.to_nat (t.1.2.2 - t.2.2 + j), t.1.1.1, t.1.2.1, t.2.1).

Definition out_of_range (j : Z) (t : iteration) : Prop :=
  writes_cell j t
  /\ ~ (- (2 * j + 1) <= t.1.1.2 + j < 2 * j + 1)%Z.

#[local] Instance writes_cell_dec j t : Decision (writes_cell j t).
Proof. unfold writes_cell. apply _. Defined.

#[local] Instance out_of_range_dec j t : Decision (out_of_range j t).
Proof. unfold out_of_range. apply _. Defined.

Definition write_one (j : Z) (t : iteration) (F : cell5 -> R) : cell5 -> R :=
  if decide (writes_cell j t) then upd5 F (cell_of j t) 1 else F.

Lemma delta_step_tab (j : Z) (la lb lc : list Z) (t : iteration)
    (F : cell5 -> R) :
  (0 <= j)%Z -> t ∈ iterations la lb lc ->
  let N := Z.to_nat (2 * j + 1) in
  delta_step j t.1.1 t.1.2 t.2 (tab5 N N (length la) (length lb) (length lc) F)
  = if decide (out_of_range j t) then Raise IndexError
    else Ok (tab5 N N (length la) (length lb) (length lc) (write_one j t F)).
Proof.
  intros Hj Ht N. apply elem_of_iterations in Ht as (Ha & Hb & Hc).
  apply lookup_lt_Some in Ha, Hb, Hc.
  unfold delta_step, write_one, out_of_range, writes_cell. cbv zeta.
  destruct (decide (Z.abs (t.1.2.2 - t.2.2) <= j)%Z) as [Hd|Hd].
  2:{ rewrite decide_False; [done|]. by intros [? _]. }
  destruct (np_index N (t.1.1.2 + j)) as [r|e] eqn:Hr.
  - rewrite decide_False.
    2:{ intros [_ Hout]. apply Hout. unfold np_index in Hr.
        repeat case_decide; try done; lia. }
    apply set5_tab; try (by apply np_index_nat).
    + unfold cell_of, resolve. fold N. by rewrite Hr.
    + unfold np_index. rewrite decide_True by lia. done.
  - apply np_index_raise in Hr as [-> Hr]. rewrite decide_True.
    2:{ split; [done|]. lia. }
    unfold set5, tab5, tensor5. rewrite length_tab.
    unfold np_index. rewrite !decide_False by lia. done.
Qed.

Lemma for_each_tab5 (j : Z) (la lb lc : list Z) (ws : list iteration) :
  (0 <= j)%Z -> (forall t, t ∈ ws -> t ∈ iterations la lb lc) ->
  let N := Z.to_nat (2 * j + 1) in
  forall F,
  for_each ws (fun t s => delta_step j t.1.1 t.1.2 t.2 s)
           (tab5 N N (length la) (length lb) (length lc) F)
  = if decide (Exists (out_of_range j) ws) then Raise IndexError
    else Ok (tab5 N N (length la) (length lb) (length lc)
                  (for_pure ws (write_one j) F)).
Proof.
  intros Hj Hws N. induction ws as [|t ws IH]; intros F.
  - rewrite decide_False; [done|]. by intros H%Exists_nil.
  - rewrite for_each_cons, (delta_step_tab j la lb lc) by (done || apply Hws; by left).
    destruct (decide (out_of_range j t)) as [Hbad|Hok].
    + rewrite decide_True; [done|]. by left.
    + rewrite bind_Ok, IH by (intros; apply Hws; by right).
      destruct (decide (Exists (out_of_range j) ws)) as [Hex|Hno].
      * rewrite decide_True; [done|]. by right.
      * rewrite decide_False; [done|].
        intros [?|?]%Exists_cons; done.
Qed.

(** Every write stores 1. *)
Lemma writes_ones (j : Z) (ws : list iteration) (F : cell5 -> R) (k : cell5) :
  for_pure ws (write_one j) F k
  = if decide (Exists (fun t => writes_cell j t /\ cell_of j t = k) ws)
    then 1 else F k.
Proof.
  revert F. induction ws as [|t ws IH]; intros F.
  - rewrite decide_False; [done|]. by intros H%Exists_nil.
  - rewrite for_pure_cons, IH.
    destruct (decide (Exists _ ws)) as [Hex|Hno].
    + rewrite decide_True; [done|]. by right.
    + unfold write_one, upd5.
      destruct (decide (writes_cell j t)) as [Hw|Hw].
      * destruct (decide (k = cell_of j t)) as [->|Hk].
        -- rewrite decide_True; [done|]. by left.
        -- rewrite decide_False; [done|].
           intros [[_ ?]|?]%Exists_cons; done.
      * rewrite decide_False; [done|].
        intros [[? _]|?]%Exists_cons; done.
Qed.

(** The table of [delta_D_trans]: the cell [(r, c, a, b, c')] holds 1 when
    [lb[b] - lc[c']] is within [j], [c] is that difference plus [j] and [r]
    is the row [la[a] + j] resolves to; every other cell holds 0. *)
Definition delta_table (j : Z) (la lb lc : list Z) (k : cell5) : R :=
  let '(r, c, a, b, c') := k in
  match la !! a, lb !! b, lc !! c' with
  | Some x, Some y, Some z =>
      if decide ((Z.abs (y - z) <= j)%Z
                 /\ resolve (Z.to_nat (2 * j + 1)) (x + j) = r
                 /\ Z.to_nat (y - z + j) = c)
      then 1 else 0
  | _, _, _ => 0
  end.

Lemma writes_table (j : Z) (la lb lc : list Z) (k : cell5) :
  for_pure (iterations la lb lc) (write_one j) (fun _ => 0) k
  = delta_table j la lb lc k.
Proof.
  rewrite writes_ones. destruct k as [[[[r c] a] b] c']. unfold delta_table.
  destruct (la !! a) as [x|] eqn:Ha; [destruct (lb !! b) as [y|] eqn:Hb;
    [destruct (lc !! c') as [z|] eqn:Hc|]|].
  - destruct (decide ((Z.abs (y - z) <= j)%Z /\ _)) as [(Hd & Hr & Hcol)|Hno].
    + rewrite decide_True; [done|]. apply Exists_exists.
      exists ((a, x), (b, y), (c', z)). split.
      * by apply elem_of_iterations.
      * split; [done|]. unfold cell_of. cbn [fst snd]. by rewrite Hr, Hcol.
    + rewrite decide_False; [done|].
      intros (t & Ht & Hw & Hcell)%Exists_exists.
      apply elem_of_iterations in Ht as (Ha' & Hb' & Hc').
      unfold cell_of in Hcell. injection Hcell as Hr Hcol E1 E2 E3.
      rewrite E1 in Ha'. rewrite E2 in Hb'. rewrite E3 in Hc'.
      apply Hno. unfold writes_cell in Hw.
      assert (t.1.1.2 = x) as <- by congruence.
      assert (t.1.2.2 = y) as <- by congruence.
      assert (t.2.2 = z) as <- by congruence. done.
  - rewrite decide_False; [done|].
    intros (t & Ht & _ & Hcell)%Exists_exists.
    apply elem_of_iterations in Ht as (_ & _ & Hc').
    unfold cell_of in Hcell. injection Hcell as _ _ _ _ E3. congruence.
  - rewrite decide_False; [done|].
    intros (t & Ht & _ & Hcell)%Exists_exists.
    apply elem_of_iterations in Ht as (_ & Hb' & _).
    unfold cell_of in Hcell. injection Hcell as _ _ _ E2 _. congruence.
  - rewrite decide_False; [done|].
    intros (t & Ht & _ & Hcell)%Exists_exists.
    apply elem_of_iterations in Ht as (Ha' & _ & _).
    unfold cell_of in Hcell. injection Hcell as _ _ E1 _ _. congruence.
Qed.

Lemma delta_D_trans_cases (j : Z) (la lb lc : list Z) :
  (0 <= j)%Z ->
  let N := Z.to_nat (2 * j + 1) in
  delta_D_trans j la lb lc
  = if decide (Exists (out_of_range j) (iterations la lb lc))
    then Raise IndexError
    else Ok (tab5 N N (length la) (length lb) (length lc)
                  (delta_table j la lb lc)).
Proof.
  intros Hj N. unfold delta_D_trans, _tuple_delta_D_trans, Spin.zeros_shape.
  cbn [forallb]. 
  replace (0 <=? 2 * j + 1)%Z with true by (symmetry; apply Z.leb_le; lia).
  cbn [andb]. rewrite bind_Ok. cbv zeta.
  rewrite loops_flat, zeros5_tab, (for_each_tab5 j la lb lc) by done.
  destruct (decide _); [done|]. f_equal. unfold tab5.
  do 5 (apply tab_ext; intros ? _). apply writes_table.
Qed.

(** *** The contraction *)

Lemma Csum_parts (l : list C) : Csum l = (Rsum (map fst l), Rsum (map snd l)).
Proof.
  induction l as [|u l IH]; [done|].
  change (Csum (u :: l)) with (Cadd u (Csum l)). rewrite IH.
  cbn [map]. rewrite !Rsum_cons. reflexivity.
Qed.

Lemma Csum_pick (N i0 : nat) (v : nat -> C) :
  (i0 < N)%nat ->
  Csum (tab N (fun i => if decide (i = i0) then v i else (0, 0))) = v i0.
Proof.
  intros Hi. rewrite Csum_parts. unfold tab. rewrite !map_map.
  rewrite (Rsum_map_ext _ (fun i => if decide (i = i0) then (v i0).1 else 0)).
  2:{ intros i _. by destruct (decide (i = i0)) as [->|]. }
  rewrite (Rsum_map_ext (fun i => (if decide (i = i0) then v i else (0, 0)).2)
             (fun i => if decide (i = i0) then (v i0).2 else 0)).
  2:{ intros i _. by destruct (decide (i = i0)) as [->|]. }
  rewrite !Rsum_delta by (apply NoDup_seq || (apply elem_of_seq; lia)).
  by destruct (v i0).
Qed.

Lemma Csum_zero (N : nat) : Csum (tab N (fun _ => (0, 0))) = (0, 0).
Proof.
  rewrite Csum_parts. unfold tab. rewrite !map_map.
  by rewrite !Rsum_map_zero.
Qed.

Lemma get3_tab (A B D : nat) (G : nat -> nat -> nat -> R) (a b c : nat) :
  (a < A)%nat -> (b < B)%nat -> (c < D)%nat ->
  get3 (tab A (fun a => tab B (fun b => tab D (fun c => G a b c)))) a b c
  = G a b c.
Proof.
  intros Ha Hb Hc. unfold get3.
  rewrite tab_lookup, decide_True by done. cbn [mbind option_bind].
  rewrite tab_lookup, decide_True by done. cbn [mbind option_bind].
  by rewrite tab_lookup, decide_True.
Qed.

(** A matrix with [N] rows of [N] entries. *)
Definition square (N : nat) (d : list (list C)) : Prop :=
  length d = N /\ Forall (fun row => length row = N) d.

Definition entry_at (d : list (list C)) (r c : nat) : C :=
  default (0, 0) (row ← d !! r; row !! c).

Lemma list_as_tab {A : Type} (N : nat) (l : list A) (x : A) :
  length l = N -> l = tab N (fun i => default x (l !! i)).
Proof.
  intros Hl. apply list_eq. intros i. rewrite tab_lookup.
  destruct (decide (i < N)%nat) as [Hi|Hi].
  - destruct (lookup_lt_is_Some_2 l i) as [y Hy]; [lia|]. by rewrite Hy.
  - apply lookup_ge_None. lia.
Qed.

Lemma square_tab (N : nat) (d : list (list C)) :
  square N d -> d = tab2 N (entry_at d).
Proof.
  intros [Hlen Hrows]. unfold tab2.
  rewrite (list_as_tab N d [] Hlen) at 1. apply tab_ext. intros r Hr.
  destruct (lookup_lt_is_Some_2 d r) as [row Hrow]; [lia|].
  rewrite Hrow. cbn [default].
  assert (Hl : length row = N).
  { rewrite Forall_forall in Hrows. apply Hrows.
    by eapply list_elem_of_lookup_2. }
  rewrite (list_as_tab N row (0, 0) Hl) at 1. apply tab_ext. intros c _.
  unfold entry_at. by rewrite Hrow.
Qed.

Lemma map_lookup_seq {A B : Type} (l : list A) (f : A -> B) (g : nat -> B) :
  (forall i x, l !! i = Some x -> g i = f x) ->
  map g (seq 0 (length l)) = map f l.
Proof.
  intros Hgf. apply list_eq. intros i.
  change (map g ?k) with (g <$> k). change (map f ?k) with (f <$> k).
  rewrite !list_lookup_fmap.
  destruct (l !! i) as [x|] eqn:Hx.
  - rewrite lookup_seq_lt by (by eapply lookup_lt_Some).
    cbn. f_equal. by apply Hgf.
  - rewrite lookup_seq_ge; [done|]. by apply lookup_ge_None.
Qed.

(** The value of the double sum for one output cell. *)
Lemma contraction_value (j : Z) (la lb lc : list Z) (d : list (list C))
    (a b c : nat) (x y z : Z) :
  (0 <= j)%Z ->
  let N := Z.to_nat (2 * j + 1) in
  square N d ->
  ~ Exists (out_of_range j) (iterations la lb lc) ->
  la !! a = Some x -> lb !! b = Some y -> lc !! c = Some z ->
  Csum (zip_with (fun drow plane =>
          Csum (zip_with (fun dv cell =>
                  Cmul dv (of_real (get3 cell a b c))) drow plane))
        d (tab5 N N (length la) (length lb) (length lc)
                (delta_table j la lb lc)))
  = if decide (Z.abs (y - z) <= j)%Z
    then entry_at d (resolve N (x + j)) (Z.to_nat (y - z + j))
    else (0, 0).
Proof.
  intros Hj N Hd Hok Ha Hb Hc.
  pose proof (lookup_lt_Some _ _ _ Ha) as Ha'.
  pose proof (lookup_lt_Some _ _ _ Hb) as Hb'.
  pose proof (lookup_lt_Some _ _ _ Hc) as Hc'.
  rewrite (square_tab N d Hd) at 1. unfold tab2, tab5.
  rewrite zip_with_tab.
  rewrite (tab_ext N _ (fun r =>
    Csum (tab N (fun cc =>
      Cmul (entry_at d r cc) (of_real (delta_table j la lb lc (r, cc, a, b, c))))))).
  2:{ intros r _. rewrite zip_with_tab. f_equal. apply tab_ext. intros cc _.
      by rewrite get3_tab. }
  unfold delta_table. rewrite Ha, Hb, Hc.
  destruct (decide (Z.abs (y - z) <= j)%Z) as [Hd'|Hd'].
  - assert (Hrow : (resolve N (x + j) < N)%nat).
    { unfold resolve. destruct (np_index N (x + j)) as [r|e] eqn:Hr.
      - by eapply np_index_lt.
      - exfalso. apply Hok. apply Exists_exists.
        exists ((a, x), (b, y), (c, z)). split; [by apply elem_of_iterations|].
        split; [done|]. cbn [fst snd].
        apply np_index_raise in Hr as [_ Hr]. lia. }
    rewrite (tab_ext N _ (fun r =>
      if decide (r = resolve N (x + j))
      then entry_at d r (Z.to_nat (y - z + j)) else (0, 0))).
    + by rewrite Csum_pick.
    + intros r _. destruct (decide (r = resolve N (x + j))) as [->|Hr].
      * rewrite (tab_ext N _ (fun cc =>
          if decide (cc = Z.to_nat (y - z + j))
          then entry_at d (resolve N (x + j)) cc else (0, 0))).
        -- rewrite Csum_pick; [done|]. lia.
        -- intros cc _. destruct (decide (cc = _)) as [->|Hcc].
           ++ rewrite decide_True by done. unfold Cmul, of_real. cbn [fst snd].
              destruct (entry_at _ _ _). cbn [fst snd]. f_equal; ring.
           ++ rewrite decide_False
                by (intros (_ & _ & Hc''); apply Hcc; symmetry; exact Hc'').
              unfold Cmul, of_real. cbn [fst snd]. f_equal; ring.
      * rewrite (tab_ext N _ (fun _ => (0, 0))); [apply Csum_zero|].
        intros cc _. rewrite decide_False
          by (intros (_ & Hr' & _); apply Hr; symmetry; exact Hr').
        unfold Cmul, of_real. cbn [fst snd]. f_equal; ring.
  - rewrite (tab_ext N _ (fun _ => (0, 0))); [apply Csum_zero|].
    intros r _. rewrite (tab_ext N _ (fun _ => (0, 0))); [apply Csum_zero|].
    intros cc _. rewrite decide_False by (by intros (? & _)).
    unfold Cmul, of_real. cbn [fst snd]. f_equal; ring.
Qed.

Lemma einsum_iabc_value (j : Z) (la lb lc : list Z) (d : list (list C)) :
  (0 <= j)%Z ->
  let N := Z.to_nat (2 * j + 1) in
  square N d ->
  ~ Exists (out_of_range j) (iterations la lb lc) ->
  einsum_ijd_jdabc_iabc d
    (tab5 N N (length la) (length lb) (length lc) (delta_table j la lb lc))
    (length la) (length lb) (length lc)
  = map (fun x => map (fun y => map (fun z =>
      if decide (Z.abs (y - z) <= j)%Z
      then entry_at d (resolve N (x + j)) (Z.to_nat (y - z + j))
      else (0, 0)) lc) lb) la.
Proof.
  intros Hj N Hd Hok. unfold einsum_ijd_jdabc_iabc.
  apply map_lookup_seq. intros a x Ha.
  apply map_lookup_seq. intros b y Hb.
  apply map_lookup_seq. intros c z Hc.
  by apply contraction_value.
Qed.

Lemma einsum_iab_value (j : Z) (la lb : list Z) (d : list (list C)) :
  (0 <= j)%Z ->
  let N := Z.to_nat (2 * j + 1) in
  square N d ->
  ~ Exists (out_of_range j) (iterations la lb [0%Z]) ->
  einsum_ijd_jdabc_iab d
    (tab5 N N (length la) (length lb) 1 (delta_table j la lb [0%Z]))
    (length la) (length lb) 1
  = map (fun x => map (fun y =>
      if decide (Z.abs y <= j)%Z
      then entry_at d (resolve N (x + j)) (Z.to_nat (y + j))
      else (0, 0)) lb) la.
Proof.
  intros Hj N Hd Hok. unfold einsum_ijd_jdabc_iab.
  apply map_lookup_seq. intros a x Ha.
  apply map_lookup_seq. intros b y Hb.
  pose proof (contraction_value j la lb [0%Z] d a b 0 x y 0 Hj Hd Hok Ha Hb
                eq_refl) as Hval.
  rewrite !Z.sub_0_r in Hval. etransitivity; [|exact Hval].
  f_equal. apply zip_with_ext; [|done..]. intros drow plane.
  f_equal. apply zip_with_ext; [|done..]. intros dv cell.
  cbn [seq map]. change (Csum [?u]) with (Cadd u (0, 0)).
  unfold Cadd. cbn [fst snd]. destruct (Cmul _ _). cbn [fst snd].
  f_equal; ring.
Qed.

(** *** What [Dfun_delta] returns *)

(** The row of [d] that the projection [x] selects: [x + ja], counted from
    the end of the axis when it is negative. *)
Definition selected_row (ja x : Z) : Z :=
  if decide (0 <= x + ja)%Z then (x + ja)%Z else (x + ja + (2 * ja + 1))%Z.

Lemma rows_in_range (j : Z) (la lb lc : list Z) :
  (forall x, x ∈ la -> (-3 * j - 1 <= x <= j)%Z) ->
  ~ Exists (out_of_range j) (iterations la lb lc).
Proof.
  intros Hla (t & Ht & _ & Hout)%Exists_exists. apply Hout.
  apply elem_of_iterations in Ht as (Ha & _ & _).
  apply list_elem_of_lookup_2 in Ha. specialize (Hla _ Ha). lia.
Qed.

Lemma resolve_selected (j x : Z) :
  (0 <= j)%Z -> (-3 * j - 1 <= x <= j)%Z ->
  resolve (Z.to_nat (2 * j + 1)) (x + j) = Z.to_nat (selected_row j x).
Proof.
  intros Hj Hx. unfold resolve, np_index, selected_row.
  repeat case_decide; try lia; f_equal; lia.
Qed.

(** [Dfun_delta] on projections [la] that index rows of the matrix, also
    from the end: the result holds, for [x] in [la], [y] in [lb] and [z] in
    [lc], the entry of [d] in the selected row and the column [y - z + ja],
    and zero where [y - z] is not a projection of the spin. *)
Theorem Dfun_delta_rows {event : Type} (d : event -> list (list C)) (ja : Z)
    (la lb lc : list Z) :
  (0 <= ja)%Z ->
  (forall x, x ∈ la -> (-3 * ja - 1 <= x <= ja)%Z) ->
  (forall ev, square (Z.to_nat (2 * ja + 1)) (d ev)) ->
  exists out,
    Dfun_delta d ja la lb (Some lc) = Ok out
    /\ forall ev,
         out ev = Rank3 (map (fun x => map (fun y => map (fun z =>
           if decide (Z.abs (y - z) <= ja)%Z
           then matrix_entry (d ev) (selected_row ja x) (y - z + ja)
           else (0, 0)) lc) lb) la).
Proof.
  intros Hja Hla Hd. unfold Dfun_delta.
  pose proof (rows_in_range ja la lb lc Hla) as Hok.
  rewrite delta_D_trans_cases, decide_False by done. rewrite bind_Ok.
  eexists. split; [reflexivity|]. intros ev. cbv beta. f_equal.
  rewrite einsum_iabc_value by done.
  apply map_ext_in. intros x Hx. apply map_ext. intros y. apply map_ext.
  intros z. destruct (decide _); [|done].
  rewrite resolve_selected; [done..|]. apply Hla. by apply list_elem_of_In.
Qed.

Lemma unit_matrix_square : square 3 [[(1, 0); (0, 0); (0, 0)];
                                    [(0, 0); (1, 0); (0, 0)];
                                    [(0, 0); (0, 0); (1, 0)]].
Proof. split; [done|]. repeat constructor. Qed.

Definition unit_matrix_batch : unit -> list (list C) :=
  fun _ => [[(1, 0); (0, 0); (0, 0)];
            [(0, 0); (1, 0); (0, 0)];
            [(0, 0); (0, 0); (1, 0)]].

Lemma Dfun_delta_rows_witness :
  exists out,
    Dfun_delta unit_matrix_batch 1 [(-2)%Z] [1%Z] (Some [0%Z]) = Ok out
    /\ forall ev,
         out ev = Rank3 (map (fun x => map (fun y => map (fun z =>
           if decide (Z.abs (y - z) <= 1)%Z
           then matrix_entry (unit_matrix_batch ev) (selected_row 1 x) (y - z + 1)
           else (0, 0)) [0%Z]) [1%Z]) [(-2)%Z]).
Proof.
  apply (Dfun_delta_rows unit_matrix_batch 1 [(-2)%Z] [1%Z] [0%Z]).
  - lia.
  - intros x Hx. apply list_elem_of_singleton in Hx. lia.
  - intros ev. apply unit_matrix_square.
Defined.

(** The intended use: for projections between [-ja] and [ja] the result is
    [d[la + ja][lb - lc + ja]], and zero where [lb - lc] is not a
    projection of the spin [ja]. *)
Theorem Dfun_delta_selects {event : Type} (d : event -> list (list C))
    (ja : Z) (la lb lc : list Z) :
  (forall x, x ∈ la -> (- ja <= x <= ja)%Z) ->
  (0 <= ja)%Z ->
  (forall ev, square (Z.to_nat (2 * ja + 1)) (d ev)) ->
  exists out,
    Dfun_delta d ja la lb (Some lc) = Ok out
    /\ forall ev,
         out ev = Rank3 (map (fun x => map (fun y => map (fun z =>
           if decide (Z.abs (y - z) <= ja)%Z
           then matrix_entry (d ev) (x + ja) (y - z + ja)
           else (0, 0)) lc) lb) la).
Proof.
  intros Hla Hja Hd. unfold Dfun_delta.
  assert (Hla' : forall x, x ∈ la -> (-3 * ja - 1 <= x <= ja)%Z)
    by (intros x Hx; specialize (Hla x Hx); lia).
  pose proof (rows_in_range ja la lb lc Hla') as Hok.
  rewrite delta_D_trans_cases, decide_False by done. rewrite bind_Ok.
  eexists. split; [reflexivity|]. intros ev. cbv beta. f_equal.
  rewrite einsum_iabc_value by done.
  apply map_ext_in. intros x Hx. apply map_ext. intros y. apply map_ext.
  intros z. destruct (decide _); [|done].
  apply list_elem_of_In in Hx.
  rewrite resolve_selected by auto. unfold selected_row.
  rewrite decide_True; [done|]. specialize (Hla x Hx). lia.
Qed.

Lemma Dfun_delta_selects_witness :
  exists out,
    Dfun_delta unit_matrix_batch 1 [0%Z; 1%Z] [1%Z] (Some [0%Z; 1%Z]) = Ok out
    /\ forall ev,
         out ev = Rank3 (map (fun x => map (fun y => map (fun z =>
           if decide (Z.abs (y - z) <= 1)%Z
           then matrix_entry (unit_matrix_batch ev) (x + 1) (y - z + 1)
           else (0, 0)) [0%Z; 1%Z]) [1%Z]) [0%Z; 1%Z]).
Proof.
  apply (Dfun_delta_selects unit_matrix_batch 1 [0%Z; 1%Z] [1%Z] [0%Z; 1%Z]).
  - intros x Hx. apply elem_of_cons in Hx as [->|Hx]; [lia|].
    apply list_elem_of_singleton in Hx. lia.
  - lia.
  - intros ev. apply unit_matrix_square.
Defined.

(** With [lc] left out the result has one axis less: it holds
    [d[la + ja][lb + ja]], and zero where [lb] is not a projection of the
    spin. *)
Theorem Dfun_delta_default_lc {event : Type} (d : event -> list (list C))
    (ja : Z) (la lb : list Z) :
  (forall x, x ∈ la -> (- ja <= x <= ja)%Z) ->
  (0 <= ja)%Z ->
  (forall ev, square (Z.to_nat (2 * ja + 1)) (d ev)) ->
  exists out,
    Dfun_delta d ja la lb None = Ok out
    /\ forall ev,
         out ev = Rank2 (map (fun x => map (fun y =>
           if decide (Z.abs y <= ja)%Z
           then matrix_entry (d ev) (x + ja) (y + ja)
           else (0, 0)) lb) la).
Proof.
  intros Hla Hja Hd. unfold Dfun_delta.
  assert (Hla' : forall x, x ∈ la -> (-3 * ja - 1 <= x <= ja)%Z)
    by (intros x Hx; specialize (Hla x Hx); lia).
  pose proof (rows_in_range ja la lb [0%Z] Hla') as Hok.
  cbv zeta. rewrite delta_D_trans_cases, decide_False by done.
  rewrite bind_Ok.
  eexists. split; [reflexivity|]. intros ev. cbv beta. f_equal.
  change (length [0%Z]) with 1%nat.
  rewrite einsum_iab_value by done.
  apply map_ext_in. intros x Hx. apply map_ext. intros y.
  destruct (decide _); [|done].
  apply list_elem_of_In in Hx.
  rewrite resolve_selected by auto. unfold selected_row.
  rewrite decide_True; [done|]. specialize (Hla x Hx). lia.
Qed.

Lemma Dfun_delta_default_lc_witness :
  exists out,
    Dfun_delta unit_matrix_batch 1 [0%Z] [(-1)%Z; 2%Z] None = Ok out
    /\ forall ev,
         out ev = Rank2 (map (fun x => map (fun y =>
           if decide (Z.abs y <= 1)%Z
           then matrix_entry (unit_matrix_batch ev) (x + 1) (y + 1)
           else (0, 0)) [(-1)%Z; 2%Z]) [0%Z]).
Proof.
  apply (Dfun_delta_default_lc unit_matrix_batch 1 [0%Z] [(-1)%Z; 2%Z]).
  - intros x Hx. apply list_elem_of_singleton in Hx. lia.
  - lia.
  - intros ev. apply unit_matrix_square.
Defined.

(** A projection in [la] above [ja] (or below [-3 ja - 1]) makes the call
    raise [IndexError], as soon as some [lb - lc] is a projection of the
    spin. *)
Theorem Dfun_delta_index_error {event : Type} (d : event -> list (list C))
    (ja : Z) (la lb lc : list Z) (x y z : Z) :
  (0 <= ja)%Z -> x ∈ la -> y ∈ lb -> z ∈ lc ->
  (Z.abs (y - z) <= ja)%Z -> (ja < x \/ x < -3 * ja - 1)%Z ->
  Dfun_delta d ja la lb (Some lc) = Raise IndexError.
Proof.
  intros Hja Hx Hy Hz Hd Hout. unfold Dfun_delta.
  rewrite delta_D_trans_cases, decide_True; [done| |done].
  apply list_elem_of_lookup_1 in Hx as [a Ha].
  apply list_elem_of_lookup_1 in Hy as [b Hb].
  apply list_elem_of_lookup_1 in Hz as [c Hc].
  apply Exists_exists. exists ((a, x), (b, y), (c, z)).
  split; [by apply elem_of_iterations|].
  split; [done|]. cbn [fst snd]. lia.
Qed.

Lemma Dfun_delta_index_error_witness :
  Dfun_delta unit_matrix_batch 1 [2%Z] [0%Z] (Some [0%Z]) = Raise IndexError.
Proof.
  apply (Dfun_delta_index_error unit_matrix_batch 1 [2%Z] [0%Z] [0%Z] 2 0 0);
    try lia; by apply list_elem_of_singleton.
Defined.

(** *** The cache of [get_D_matrix_for_angle] *)

(** The dictionary of Euler angles handed to [get_D_matrix_for_angle]: the
    three angle batches, and the matrices stored under the keys
    ["D_matrix_{j}"], by their [j]. *)
Record AngleDict {event : Type} : Type := mkAngleDict {
  a_alpha : option (event -> R);
  a_beta : option (event -> R);
  a_gamma : option (event -> R);
  a_D_matrix : gmap Z (event -> list (list C))
}.
Arguments AngleDict event : clear implicits.
Arguments mkAngleDict {event} _ _ _ _.

Section Cache.
Context {event : Type}.

(** [angle[key]] for one of the three angles. *)
Definition angle_key (o : option (event -> R)) : result (event -> R) :=
  match o with Some a => Ok a | None => Raise KeyError end.

(** [angle[name] = d] *)
Definition store (angle : AngleDict event) (j : Z)
    (d : event -> list (list C)) : AngleDict event :=
  mkAngleDict (a_alpha angle) (a_beta angle) (a_gamma angle)
              (<[j := d]> (a_D_matrix angle)).

(** The matrix returned, and the dictionary after the call. *)
Definition get_D_matrix_for_angle (angle : AngleDict event) (j : Z)
    (cached : bool) : result ((event -> list (list C)) * AngleDict event) :=
  alpha ← angle_key (a_alpha angle);
  beta ← angle_key (a_beta angle);
  gamma ← angle_key (a_gamma angle);
  if cached then
    let angle :=
      match a_D_matrix angle !! j with
      | None => store angle j (D_matrix_conj alpha beta gamma j)
      | Some _ => angle
      end in
    d ← getitem (a_D_matrix angle) j;
    Ok (d, angle)
  else Ok (D_matrix_conj alpha beta gamma j, angle).

Definition get_D_matrix_lambda (angle : AngleDict event) (ja : Z)
    (la lb : list Z) (lc : option (list Z))
  : result ((event -> delta_result) * AngleDict event) :=
  da ← get_D_matrix_for_angle angle (2 * ja) true;
  r ← Dfun_delta da.1 ja la lb lc;
  Ok (r, da.2).

(** New angles written into the dictionary. *)
Definition with_angles (alpha beta gamma : event -> R)
    (angle : AngleDict event) : AngleDict event :=
  mkAngleDict (Some alpha) (Some beta) (Some gamma) (a_D_matrix angle).

(** The first cached call computes the matrix of the angles in the
    dictionary and stores it, leaving the other cached matrices alone; an
    uncached call computes the same matrix and stores nothing; and once the
    matrix is stored, a cached call returns it whatever angles the
    dictionary holds by then. *)
Theorem D_matrix_cache (angle : AngleDict event) (j : Z)
    (alpha beta gamma : event -> R) :
  a_alpha angle = Some alpha -> a_beta angle = Some beta ->
  a_gamma angle = Some gamma -> a_D_matrix angle !! j = None ->
  let d := D_matrix_conj alpha beta gamma j in
  let angle' := store angle j d in
  get_D_matrix_for_angle angle j true = Ok (d, angle')
  /\ get_D_matrix_for_angle angle j false = Ok (d, angle)
  /\ (forall j', j' <> j -> a_D_matrix angle' !! j' = a_D_matrix angle !! j')
  /\ forall alpha' beta' gamma',
       get_D_matrix_for_angle (with_angles alpha' beta' gamma' angle') j true
       = Ok (d, with_angles alpha' beta' gamma' angle').
Proof.
  intros Ha Hb Hg Hnone. cbv zeta. unfold get_D_matrix_for_angle.
  rewrite Ha, Hb, Hg. cbn [angle_key]. rewrite !bind_Ok, Hnone.
  split; [|split; [done|split]].
  - unfold getitem. cbn [store a_D_matrix]. by rewrite lookup_insert_eq.
  - intros j' Hj'. cbn [store a_D_matrix]. by rewrite lookup_insert_ne.
  - intros alpha' beta' gamma'. cbn [with_angles a_alpha a_beta a_gamma
      angle_key a_D_matrix store]. rewrite !bind_Ok, lookup_insert_eq.
    unfold getitem. cbn [a_D_matrix with_angles store].
    by rewrite lookup_insert_eq.
Qed.

End Cache.

Definition quarter_turn_angles : AngleDict unit :=
  mkAngleDict (Some (fun _ => PI / 2)) (Some (fun _ => 0)) (Some (fun _ => 0)) ∅.

Lemma D_matrix_cache_witness :
  get_D_matrix_for_angle
    (with_angles (fun _ => 0) (fun _ => 0) (fun _ => 0)
       (store quarter_turn_angles 1
              (D_matrix_conj (fun _ => PI / 2) (fun _ => 0) (fun _ => 0) 1)))
    1 true
  = Ok (D_matrix_conj (fun _ => PI / 2) (fun _ => 0) (fun _ => 0) 1,
        with_angles (fun _ => 0) (fun _ => 0) (fun _ => 0)
          (store quarter_turn_angles 1
             (D_matrix_conj (fun _ => PI / 2) (fun _ => 0) (fun _ => 0) 1))).
Proof.
  apply (D_matrix_cache quarter_turn_angles 1
           (fun _ => PI / 2) (fun _ => 0) (fun _ => 0)
           eq_refl eq_refl eq_refl eq_refl).
Defined.

Lemma square_tab2 (N : nat) (G : nat -> nat -> C) : square N (tab2 N G).
Proof.
  split; [apply length_tab|]. apply Forall_forall. intros row Hrow.
  unfold tab2, tab in Hrow. apply list_elem_of_In, in_map_iff in Hrow
    as (a & <- & _). apply length_tab.
Qed.

(** [get_D_matrix_lambda] on a dictionary without a cached matrix: the
    matrix of [D_matrix_conj] for the spin label [2 ja] is stored, and the
    result holds its entries [la + ja], [lb - lc + ja]. *)
Theorem get_D_matrix_lambda_selects {event : Type} (angle : AngleDict event)
    (alpha beta gamma : event -> R) (ja : Z) (la lb lc : list Z) :
  a_alpha angle = Some alpha -> a_beta angle = Some beta ->
  a_gamma angle = Some gamma -> a_D_matrix angle !! (2 * ja)%Z = None ->
  (0 <= ja)%Z -> (forall x, x ∈ la -> (- ja <= x <= ja)%Z) ->
  let d := D_matrix_conj alpha beta gamma (2 * ja) in
  exists out,
    get_D_matrix_lambda angle ja la lb (Some lc)
    = Ok (out, store angle (2 * ja) d)
    /\ forall ev,
         out ev = Rank3 (map (fun x => map (fun y => map (fun z =>
           if decide (Z.abs (y - z) <= ja)%Z
           then matrix_entry (d ev) (x + ja) (y - z + ja)
           else (0, 0)) lc) lb) la).
Proof.
  intros Ha Hb Hg Hnone Hja Hla d. unfold get_D_matrix_lambda.
  destruct (D_matrix_cache angle (2 * ja) alpha beta gamma Ha Hb Hg Hnone)
    as (Hcall & _). rewrite Hcall, bind_Ok. cbn [fst snd].
  destruct (Dfun_delta_selects d ja la lb lc Hla Hja) as (out & Hout & Hval).
  - intros ev. unfold d.
    assert (E : (2 * ja)%Z = Z.of_nat (Z.to_nat (2 * ja))) by lia.
    rewrite E, D_matrix_conj_tab.
    replace (Z.to_nat (Z.of_nat (Z.to_nat (2 * ja)) + 1))
      with (S (Z.to_nat (2 * ja))) by lia.
    apply square_tab2.
  - exists out. fold d. rewrite Hout, bind_Ok. done.
Qed.

Lemma get_D_matrix_lambda_selects_witness :
  exists out,
    get_D_matrix_lambda quarter_turn_angles 1 [0%Z] [1%Z] (Some [0%Z])
    = Ok (out, store quarter_turn_angles 2
                 (D_matrix_conj (fun _ => PI / 2) (fun _ => 0) (fun _ => 0) 2))
    /\ forall ev,
         out ev = Rank3 (map (fun x => map (fun y => map (fun z =>
           if decide (Z.abs (y - z) <= 1)%Z
           then matrix_entry
                  (D_matrix_conj (fun _ => PI / 2) (fun _ => 0) (fun _ => 0) 2 ev)
                  (x + 1) (y - z + 1)
           else (0, 0)) [0%Z]) [1%Z]) [0%Z]).
Proof.
  apply (get_D_matrix_lambda_selects quarter_turn_angles
           (fun _ => PI / 2) (fun _ => 0) (fun _ => 0) 1 [0%Z] [1%Z] [0%Z]
           eq_refl eq_refl eq_refl eq_refl).
  - lia.
  - intros x Hx. apply list_elem_of_singleton in Hx. lia.
Defined.

End Wigner.

Module Breakup.
#[local] Open Scope R_scope.

(** ** Further properties of [Getp] *)

Lemma threshold_product_symmetric {event : Type}
    (M_0 M_1 M_2 : batch (event := event)) (ev : event) :
  threshold_product M_0 M_1 M_2 ev = threshold_product M_0 M_2 M_1 ev.
Proof. unfold threshold_product. ring. Qed.

(** The breakup momentum does not depend on the order of the daughters. *)
Theorem Getp_symmetric {event : Type} (M_0 M_1 M_2 : batch (event := event))
    (ev : event) :
  Getp M_0 M_1 M_2 ev = Getp M_0 M_2 M_1 ev.
Proof. by rewrite !Getp_unfold, threshold_product_symmetric. Qed.

Lemma Getp_square {event : Type} (M_0 M_1 M_2 : batch (event := event))
    (ev : event) :
  0 < M_0 ev -> 0 <= threshold_product M_0 M_1 M_2 ev ->
  Getp M_0 M_1 M_2 ev * Getp M_0 M_1 M_2 ev
  = threshold_product M_0 M_1 M_2 ev / (4 * M_0 ev * M_0 ev).
Proof.
  intros HM Hp. rewrite Getp_unfold, masked_nonnegative by done.
  set (t := threshold_product M_0 M_1 M_2 ev) in *.
  transitivity (sqrt t * sqrt t / (4 * M_0 ev * M_0 ev)); [field; lra|].
  by rewrite sqrt_sqrt.
Qed.

Lemma daughter_energy (M0 M1 M2 p : R) :
  0 < M0 -> 0 <= M2 <= M0 ->
  p * p = (M0 - (M1 + M2)) * (M0 + (M1 + M2))
          * (M0 - (M1 - M2)) * (M0 + (M1 - M2)) / (4 * M0 * M0) ->
  sqrt (M1 * M1 + p * p) = (M0 * M0 + M1 * M1 - M2 * M2) / (2 * M0).
Proof.
  intros HM0 HM2 Hp. rewrite Hp.
  replace (M1 * M1 + (M0 - (M1 + M2)) * (M0 + (M1 + M2))
                     * (M0 - (M1 - M2)) * (M0 + (M1 - M2)) / (4 * M0 * M0))
    with ((M0 * M0 + M1 * M1 - M2 * M2) / (2 * M0)
          * ((M0 * M0 + M1 * M1 - M2 * M2) / (2 * M0))) by (field; lra).
  apply sqrt_square. apply Rmult_le_pos; [nra|].
  apply Rlt_le, Rinv_0_lt_compat. lra.
Qed.

(** Above threshold, the energies of the two daughters at the momentum
    given by [Getp] add up to the mass of the parent. *)
Theorem Getp_energy_conservation {event : Type}
    (M_0 M_1 M_2 : batch (event := event)) (ev : event) :
  0 <= M_1 ev -> 0 <= M_2 ev -> 0 < M_0 ev -> M_1 ev + M_2 ev <= M_0 ev ->
  let p := Getp M_0 M_1 M_2 ev in
  sqrt (M_1 ev * M_1 ev + p * p) + sqrt (M_2 ev * M_2 ev + p * p) = M_0 ev.
Proof.
  intros H1 H2 H0 Hth p.
  assert (Hprod : 0 <= threshold_product M_0 M_1 M_2 ev).
  { unfold threshold_product.
    replace ((M_0 ev - (M_1 ev + M_2 ev)) * (M_0 ev + (M_1 ev + M_2 ev))
             * (M_0 ev - (M_1 ev - M_2 ev)) * (M_0 ev + (M_1 ev - M_2 ev)))
      with (((M_0 ev - (M_1 ev + M_2 ev)) * (M_0 ev + (M_1 ev + M_2 ev)))
            * ((M_0 ev - (M_1 ev - M_2 ev)) * (M_0 ev + (M_1 ev - M_2 ev))))
      by ring.
    apply Rmult_le_pos; apply Rmult_le_pos; lra. }
  pose proof (Getp_square M_0 M_1 M_2 ev H0 Hprod) as Hp. fold p in Hp.
  rewrite (daughter_energy (M_0 ev) (M_1 ev) (M_2 ev) p) by (done || lra).
  rewrite (daughter_energy (M_0 ev) (M_2 ev) (M_1 ev) p); [field; lra|done|lra|].
  rewrite Hp. unfold threshold_product. field. lra.
Qed.

Lemma Getp_energy_conservation_witness :
  let p := Getp (fun _ : unit => 5) (fun _ => 1) (fun _ => 2) tt in
  sqrt (1 * 1 + p * p) + sqrt (2 * 2 + p * p) = 5.
Proof.
  apply (Getp_energy_conservation (fun _ : unit => 5) (fun _ => 1)
           (fun _ => 2) tt); lra.
Defined.

End Breakup.

(** ** The Flatte line shape ([amp/flatte.py]) *)

Module Flatte.
Import Wigner.
#[local] Open Scope R_scope.

Section LineShape.
Context {event : Type}.

(** [tf.where(p2 > 0, p_p, p_m)] on one event, for complex branches. *)
Definition where_c (mask : bool) (a b : C) : C := if mask then a else b.

Definition cal_monentum (m : batch (event := event)) (ma mb : R)
  : event -> C :=
  fun ev =>
  let mabp := ma + mb in
  let mabm := ma - mb in
  let s := m ev * m ev in
  let p2 := (s - mabp * mabp) * (s - mabm * mabm) / 4 / s in
  let zeros := 0 in
  let p_p := (sqrt (Rabs p2), zeros) in
  let p_m := (zeros, sqrt (Rabs p2)) in
  where_c (Lorentz.gt_mask p2 0) p_p p_m.

(** The squared momentum [p2] of [cal_monentum]. *)
Definition momentum_squared (m : batch (event := event)) (ma mb : R)
  : event -> R :=
  fun ev =>
  (m ev * m ev - (ma + mb) * (ma + mb))
  * (m ev * m ev - (ma - mb) * (ma - mb)) / 4 / (m ev * m ev).

(** The loop of [get_amp] from the channel [i] on: the terms [m_rho_i].
    [g_value] holds the values of the coupling variables. *)
Fixpoint rho_terms (mass : R) (g_value : list R) (m : batch (event := event))
    (i : nat) (mass_list : list (R * R)) : result (list (event -> C)) :=
  match mass_list with
  | [] => Ok []
  | mab :: rest =>
      g ← index g_value i;
      let m_rho_i := fun ev =>
        let m_c := mass / m ev in
        Cmul (cal_monentum m mab.1 mab.2 ev) (0, g * m_c) in
      rhos ← rho_terms mass g_value m (S i) rest;
      Ok (m_rho_i :: rhos)
  end.

(** [im_sign * sum(rhos)] on one event; [sum] adds from the left. *)
Definition rho_total (im_sign : R) (rhos : list (event -> C)) (ev : event) : C :=
  let total := foldl Cadd (0, 0) (map (fun r => r ev) rhos) in
  (im_sign * total.1, im_sign * total.2).

(** [ParticleFlatte.get_amp]: the mass [self.get_mass()], the channels
    [self.mass_list], the couplings and [self.im_sign] are the state of the
    particle; [m] is the batch [args[0]["m"]]. *)
Definition get_amp (mass : R) (mass_list : list (R * R)) (g_value : list R)
    (im_sign : R) (m : batch (event := event)) : result (event -> C) :=
  rhos ← rho_terms mass g_value m 0 mass_list;
  Ok (fun ev =>
    let delta_s := mass * mass - m ev * m ev in
    let rho := rho_total im_sign rhos ev in
    let re := delta_s + rho.1 in
    let im := rho.2 in
    let d := re * re + im * im in
    (re / d, - im / d)).

(** The denominator in the docstring of the class:
    [m0^2 - m^2 + i m0 (sum_i g_i q_i / m)], with the sign [im_sign] in
    front of [i]. *)
Definition docstring_denominator (mass : R) (mass_list : list (R * R))
    (g_value : list R) (im_sign : R) (m : batch (event := event))
  : event -> C :=
  fun ev =>
  Cadd (of_real (mass * mass - m ev * m ev))
       (Cmul (0, im_sign * mass)
          (Csum (zip_with (fun g mab =>
                   Cmul (of_real (g / m ev)) (cal_monentum m mab.1 mab.2 ev))
                 g_value mass_list))).

(** *** The momentum *)

Lemma cal_monentum_cases (m : batch (event := event)) (ma mb : R) (ev : event) :
  (0 < momentum_squared m ma mb ev
   /\ cal_monentum m ma mb ev = (sqrt (momentum_squared m ma mb ev), 0))
  \/ (momentum_squared m ma mb ev <= 0
      /\ cal_monentum m ma mb ev = (0, sqrt (- momentum_squared m ma mb ev))).
Proof.
  unfold cal_monentum, where_c, Lorentz.gt_mask. cbv zeta.
  fold (momentum_squared m ma mb ev).
  destruct (Rgt_dec (momentum_squared m ma mb ev) 0) as [Hp|Hp].
  - left. split; [lra|]. by rewrite Rabs_pos_eq by lra.
  - right. split; [lra|]. rewrite Rabs_left1 by lra. done.
Qed.

(** [cal_monentum] returns the complex square root of the squared
    momentum that [tf.where] selects: the real, positive one above
    threshold, and the one on the non-negative imaginary axis otherwise. *)
Theorem cal_monentum_square_root (m : batch (event := event)) (ma mb : R)
    (ev : event) :
  m ev <> 0 ->
  (0 < momentum_squared m ma mb ev ->
     cal_monentum m ma mb ev = (sqrt (momentum_squared m ma mb ev), 0))
  /\ (momentum_squared m ma mb ev <= 0 ->
        cal_monentum m ma mb ev
        = (0, sqrt (- momentum_squared m ma mb ev)))
  /\ Cmul (cal_monentum m ma mb ev) (cal_monentum m ma mb ev)
     = (momentum_squared m ma mb ev, 0).
Proof.
  intros _.
  destruct (cal_monentum_cases m ma mb ev) as [[Hp E]|[Hp E]].
  - split; [done|]. split; [intros; lra|].
    rewrite E. unfold Cmul; cbn [fst snd].
    rewrite sqrt_sqrt by lra. f_equal; ring.
  - split; [intros; lra|]. split; [done|].
    rewrite E. unfold Cmul; cbn [fst snd]. f_equal; [|ring].
    transitivity (- (sqrt (- momentum_squared m ma mb ev)
                     * sqrt (- momentum_squared m ma mb ev))); [ring|].
    rewrite sqrt_sqrt by lra. ring.
Qed.

(** The product under the square root of [Getp] against the squared
    momentum of [cal_monentum]. *)
Lemma threshold_product_momentum (m : batch (event := event)) (ma mb : R)
    (ev : event) :
  m ev <> 0 ->
  threshold_product m (fun _ => ma) (fun _ => mb) ev
  = momentum_squared m ma mb ev * (4 * (m ev * m ev)).
Proof. intros Hm. unfold threshold_product, momentum_squared. by field. Qed.

(** Above threshold [cal_monentum] is the real momentum that [Getp]
    returns; below threshold [Getp] returns the number 0, not NaN, while
    [cal_monentum] is imaginary. *)
Theorem cal_monentum_Getp (m : batch (event := event)) (ma mb : R)
    (ev : event) :
  0 < m ev ->
  (0 < momentum_squared m ma mb ev ->
     Tensor.Getp m (fun _ => ma) (fun _ => mb) ev
     = Tensor.num (sqrt (momentum_squared m ma mb ev))
     /\ cal_monentum m ma mb ev = (sqrt (momentum_squared m ma mb ev), 0))
  /\ (momentum_squared m ma mb ev < 0 ->
        Tensor.Getp m (fun _ => ma) (fun _ => mb) ev = Tensor.num 0
        /\ cal_monentum m ma mb ev
           = (0, sqrt (- momentum_squared m ma mb ev))).
Proof.
  intros Hm.
  assert (Hrel : threshold_product m (fun _ => ma) (fun _ => mb) ev
                 = momentum_squared m ma mb ev * (4 * (m ev * m ev))).
  { apply threshold_product_momentum. lra. }
  assert (Hmm : 0 < 4 * (m ev * m ev)) by nra.
  rewrite Tensor.Getp_unfold_value, Hrel.
  split; intros Hp.
  - destruct (cal_monentum_cases m ma mb ev) as [[_ ->]|[Hn _]]; [|lra].
    split; [|done].
    rewrite masked_nonnegative by nra.
    rewrite Tensor.tf_sqrt_num by nra.
    rewrite Tensor.tf_div_num by lra. f_equal.
    rewrite sqrt_mult by lra.
    replace (4 * (m ev * m ev)) with ((2 * m ev) * (2 * m ev)) by ring.
    rewrite sqrt_square by lra. field. lra.
  - destruct (cal_monentum_cases m ma mb ev) as [[Hn _]|[_ ->]]; [lra|].
    split; [|done].
    rewrite masked_negative by nra.
    rewrite Tensor.tf_sqrt_num, sqrt_0 by lra.
    rewrite Tensor.tf_div_num by lra. f_equal. unfold Rdiv. ring.
Qed.

(** *** The amplitude *)

(** The term of one channel as the loop builds it. *)
Definition channel_term (mass : R) (m : batch (event := event)) (g : R)
    (mab : R * R) : event -> C :=
  fun ev => Cmul (cal_monentum m mab.1 mab.2 ev) (0, g * (mass / m ev)).

Lemma rho_terms_ok (mass : R) (g_value : list R) (m : batch (event := event))
    (mass_list : list (R * R)) (i : nat) :
  (i + length mass_list <= length g_value)%nat ->
  rho_terms mass g_value m i mass_list
  = Ok (zip_with (channel_term mass m) (drop i g_value) mass_list).
Proof.
  revert i. induction mass_list as [|mab rest IH]; intros i Hlen.
  - cbn [rho_terms]. by destruct (drop i g_value).
  - cbn [length] in Hlen. cbn [rho_terms].
    destruct (lookup_lt_is_Some_2 g_value i) as [g Hg]; [lia|].
    unfold index. rewrite Hg, bind_Ok, IH, bind_Ok by lia.
    by rewrite (drop_S _ _ _ Hg).
Qed.

Lemma rho_terms_short (mass : R) (g_value : list R)
    (m : batch (event := event)) (mass_list : list (R * R)) (i : nat) :
  (i <= length g_value)%nat ->
  (length g_value < i + length mass_list)%nat ->
  rho_terms mass g_value m i mass_list = Raise IndexError.
Proof.
  revert i. induction mass_list as [|mab rest IH]; intros i Hi Hlen.
  - cbn [length] in Hlen. lia.
  - cbn [length] in Hlen. cbn [rho_terms]. unfold index.
    destruct (g_value !! i) as [g|] eqn:Hg; [|done].
    apply lookup_lt_Some in Hg. rewrite bind_Ok, IH by lia. done.
Qed.

Lemma foldl_Cadd (z : C) (l : list C) :
  foldl Cadd z l = (z.1 + (Csum l).1, z.2 + (Csum l).2).
Proof.
  revert z. induction l as [|u l IH]; intros z.
  - cbn. destruct z. cbn. f_equal; lra.
  - cbn [foldl]. rewrite IH.
    change (Csum (u :: l)) with (Cadd u (Csum l)). unfold Cadd.
    cbn [fst snd]. f_equal; lra.
Qed.

(** The sum of the loop against the sum of the docstring. *)
Lemma channel_sum (mass : R) (m : batch (event := event)) (ev : event)
    (gs : list R) (ml : list (R * R)) :
  let code := Csum (map (fun r => r ev) (zip_with (channel_term mass m) gs ml)) in
  let doc := Csum (zip_with (fun g mab =>
               Cmul (of_real (g / m ev)) (cal_monentum m mab.1 mab.2 ev))
             gs ml) in
  code = (- (mass * doc.2), mass * doc.1).
Proof.
  cbv zeta. revert ml. induction gs as [|g gs IH]; intros [|mab ml];
    try (cbn; f_equal; lra).
  cbn [zip_with map].
  change (Csum (?u :: ?l)) with (Cadd u (Csum l)). rewrite IH.
  unfold Cadd, channel_term, Cmul, of_real. cbn [fst snd].
  destruct (cal_monentum m mab.1 mab.2 ev) as [qr qi]. cbn [fst snd].
  unfold Rdiv. f_equal; ring.
Qed.

Lemma denominator_parts (mass : R) (mass_list : list (R * R))
    (g_value : list R) (im_sign : R) (m : batch (event := event))
    (ev : event) :
  let rho := rho_total im_sign
               (zip_with (channel_term mass m) g_value mass_list) ev in
  docstring_denominator mass mass_list g_value im_sign m ev
  = (mass * mass - m ev * m ev + rho.1, rho.2).
Proof.
  cbv zeta. unfold docstring_denominator, rho_total. cbv zeta.
  rewrite foldl_Cadd, channel_sum. cbv zeta.
  unfold Cadd, Cmul, of_real. cbn [fst snd]. f_equal; ring.
Qed.

(** [get_amp] is the reciprocal of the denominator of the docstring,
    wherever that denominator does not vanish. *)
Theorem get_amp_reciprocal (mass : R) (mass_list : list (R * R))
    (g_value : list R) (im_sign : R) (m : batch (event := event)) :
  (length mass_list <= length g_value)%nat ->
  exists amp,
    get_amp mass mass_list g_value im_sign m = Ok amp
    /\ forall ev,
         m ev <> 0 ->
         docstring_denominator mass mass_list g_value im_sign m ev <> (0, 0) ->
         Cmul (amp ev) (docstring_denominator mass mass_list g_value im_sign m ev)
         = (1, 0).
Proof.
  intros Hlen. unfold get_amp. rewrite rho_terms_ok by (simpl; lia).
  rewrite drop_0, bind_Ok. eexists. split; [reflexivity|].
  intros ev _ Hden. cbv beta zeta.
  rewrite denominator_parts in Hden |- *. cbv zeta in Hden |- *.
  set (rho := rho_total _ _ _) in *.
  set (re := mass * mass - m ev * m ev + rho.1) in *.
  set (im := rho.2) in *.
  assert (Hd : re * re + im * im <> 0).
  { intros H0. apply Hden.
    assert (re = 0) by nra. assert (im = 0) by nra. congruence. }
  unfold Cmul. cbn [fst snd]. f_equal; field; done.
Qed.

(** A channel without a coupling makes [get_amp] raise [IndexError]. *)
Theorem get_amp_missing_coupling (mass : R) (mass_list : list (R * R))
    (g_value : list R) (im_sign : R) (m : batch (event := event)) :
  (length g_value < length mass_list)%nat ->
  get_amp mass mass_list g_value im_sign m = Raise IndexError.
Proof.
  intros Hlen. unfold get_amp. rewrite rho_terms_short by (simpl; lia). done.
Qed.

Lemma total_below (mass : R) (m : batch (event := event)) (ev : event)
    (gs : list R) (ml : list (R * R)) :
  Forall (fun mab => momentum_squared m mab.1 mab.2 ev <= 0) ml ->
  (Csum (map (fun r => r ev) (zip_with (channel_term mass m) gs ml))).2 = 0.
Proof.
  intros Hml. revert gs. induction Hml as [|mab ml Hp _ IH]; intros [|g gs];
    try done.
  cbn [zip_with map]. change (Csum (?u :: ?l)) with (Cadd u (Csum l)).
  unfold Cadd. cbn [fst snd]. rewrite IH. unfold channel_term.
  destruct (cal_monentum_cases m mab.1 mab.2 ev) as [[Hn _]|[_ ->]]; [lra|].
  unfold Cmul. cbn [fst snd]. ring.
Qed.

Lemma total_above (mass : R) (m : batch (event := event)) (ev : event)
    (gs : list R) (ml : list (R * R)) :
  Forall (fun mab => 0 < momentum_squared m mab.1 mab.2 ev) ml ->
  (Csum (map (fun r => r ev) (zip_with (channel_term mass m) gs ml))).1 = 0.
Proof.
  intros Hml. revert gs. induction Hml as [|mab ml Hp _ IH]; intros [|g gs];
    try done.
  cbn [zip_with map]. change (Csum (?u :: ?l)) with (Cadd u (Csum l)).
  unfold Cadd. cbn [fst snd]. rewrite IH. unfold channel_term.
  destruct (cal_monentum_cases m mab.1 mab.2 ev) as [[_ ->]|[Hn _]]; [|lra].
  unfold Cmul. cbn [fst snd]. ring.
Qed.

(** On an event below the threshold of every channel, where the mass of
    the event is not zero and the denominator does not vanish, the
    amplitude is a real number. *)
Theorem get_amp_real_below_thresholds (mass : R) (mass_list : list (R * R))
    (g_value : list R) (im_sign : R) (m : batch (event := event))
    (ev : event) :
  (length mass_list <= length g_value)%nat ->
  Forall (fun mab => momentum_squared m mab.1 mab.2 ev <= 0) mass_list ->
  m ev <> 0 ->
  docstring_denominator mass mass_list g_value im_sign m ev <> (0, 0) ->
  exists amp,
    get_amp mass mass_list g_value im_sign m = Ok amp /\ (amp ev).2 = 0.
Proof.
  intros Hlen Hbelow Hm Hden. unfold get_amp.
  rewrite rho_terms_ok by (simpl; lia).
  rewrite drop_0, bind_Ok. eexists. split; [reflexivity|].
  rewrite denominator_parts in Hden. cbv zeta in Hden.
  cbv beta zeta. cbn [snd].
  set (rho := rho_total _ _ _) in *.
  assert (Him : rho.2 = 0).
  { unfold rho, rho_total. cbv zeta. cbn [snd].
    rewrite foldl_Cadd. cbn [fst snd]. rewrite total_below by done. ring. }
  set (re := mass * mass - m ev * m ev + rho.1) in *.
  assert (Hre : re <> 0).
  { intros E. apply Hden. by rewrite E, Him. }
  rewrite Him. field. nra.
Qed.

(** On an event above the threshold of every channel, where the mass of
    the event is not zero and the denominator does not vanish, reversing
    [im_sign] (the classes [Flatte] and [FlatteC]) conjugates the
    amplitude; the denominator of the reversed sign does not vanish
    either. *)
Theorem get_amp_conjugate_above_thresholds (mass : R)
    (mass_list : list (R * R)) (g_value : list R) (im_sign : R)
    (m : batch (event := event)) (ev : event) :
  (length mass_list <= length g_value)%nat ->
  Forall (fun mab => 0 < momentum_squared m mab.1 mab.2 ev) mass_list ->
  m ev <> 0 ->
  docstring_denominator mass mass_list g_value im_sign m ev <> (0, 0) ->
  docstring_denominator mass mass_list g_value (- im_sign) m ev <> (0, 0)
  /\ exists amp amp',
       get_amp mass mass_list g_value im_sign m = Ok amp
       /\ get_amp mass mass_list g_value (- im_sign) m = Ok amp'
       /\ amp' ev = Cconj (amp ev).
Proof.
  intros Hlen Habove Hm Hden.
  rewrite !denominator_parts in *. cbv zeta in *.
  unfold rho_total in *. cbv zeta in *. cbn [fst snd] in *.
  rewrite foldl_Cadd in *. cbn [fst snd] in *.
  rewrite total_above in * by done.
  set (t := (Csum _).2) in *.
  split.
  { intros [= E1 E2]. apply Hden. f_equal; lra. }
  unfold get_amp. rewrite rho_terms_ok by (simpl; lia).
  rewrite drop_0, !bind_Ok. do 2 eexists.
  split; [reflexivity|]. split; [reflexivity|].
  cbv beta zeta. unfold rho_total, Cconj. cbv zeta. cbn [fst snd].
  rewrite foldl_Cadd. cbn [fst snd]. rewrite total_above by done.
  fold t.
  replace (mass * mass - m ev * m ev + - im_sign * (0 + 0))
    with (mass * mass - m ev * m ev + im_sign * (0 + 0)) by ring.
  replace (- im_sign * (0 + t)) with (- (im_sign * (0 + t))) by ring.
  set (re := mass * mass - m ev * m ev + im_sign * (0 + 0)) in *.
  set (im := im_sign * (0 + t)) in *.
  replace (re * re + - im * - im) with (re * re + im * im) by ring.
  assert (Hd : re * re + im * im <> 0).
  { intros H0. apply Hden.
    assert (re = 0) by nra. assert (im = 0) by nra. congruence. }
  f_equal; field; exact Hd.
Qed.

End LineShape.

(** One channel of two particles of mass 1, and a resonance of mass 2. *)
Definition example_channels : list (R * R) := [(1, 1)].

Lemma example_below :
  momentum_squared (event := unit) (fun _ => 1) 1 1 tt <= 0.
Proof.
  unfold momentum_squared.
  replace ((1 * 1 - (1 + 1) * (1 + 1)) * (1 * 1 - (1 - 1) * (1 - 1)) / 4
           / (1 * 1)) with (- (3 / 4)) by field.
  lra.
Qed.

Lemma example_above :
  0 < momentum_squared (event := unit) (fun _ => 3) 1 1 tt.
Proof.
  unfold momentum_squared.
  replace ((3 * 3 - (1 + 1) * (1 + 1)) * (3 * 3 - (1 - 1) * (1 - 1)) / 4
           / (3 * 3)) with (5 / 4) by field.
  lra.
Qed.

Lemma cal_monentum_square_root_witness :
  cal_monentum (event := unit) (fun _ => 1) 1 1 tt
  = (0, sqrt (- momentum_squared (event := unit) (fun _ => 1) 1 1 tt))
  /\ Cmul (cal_monentum (event := unit) (fun _ => 1) 1 1 tt)
          (cal_monentum (event := unit) (fun _ => 1) 1 1 tt)
     = (momentum_squared (event := unit) (fun _ => 1) 1 1 tt, 0).
Proof.
  destruct (cal_monentum_square_root (event := unit) (fun _ => 1) 1 1 tt)
    as (_ & Hbelow & Hsquare); [lra|].
  split; [apply Hbelow, example_below|exact Hsquare].
Defined.

Lemma example_strictly_below :
  momentum_squared (event := unit) (fun _ => 1) 1 1 tt < 0.
Proof.
  unfold momentum_squared.
  replace ((1 * 1 - (1 + 1) * (1 + 1)) * (1 * 1 - (1 - 1) * (1 - 1)) / 4
           / (1 * 1)) with (- (3 / 4)) by field.
  lra.
Qed.

Lemma cal_monentum_Getp_witness :
  (Tensor.Getp (event := unit) (fun _ => 3) (fun _ => 1) (fun _ => 1) tt
   = Tensor.num (sqrt (momentum_squared (event := unit) (fun _ => 3) 1 1 tt))
   /\ cal_monentum (event := unit) (fun _ => 3) 1 1 tt
      = (sqrt (momentum_squared (event := unit) (fun _ => 3) 1 1 tt), 0))
  /\ (Tensor.Getp (event := unit) (fun _ => 1) (fun _ => 1) (fun _ => 1) tt
      = Tensor.num 0
      /\ cal_monentum (event := unit) (fun _ => 1) 1 1 tt
         = (0, sqrt (- momentum_squared (event := unit) (fun _ => 1) 1 1 tt))).
Proof.
  split.
  - apply (cal_monentum_Getp (event := unit) (fun _ => 3) 1 1 tt); [lra|].
    exact example_above.
  - apply (cal_monentum_Getp (event := unit) (fun _ => 1) 1 1 tt); [lra|].
    exact example_strictly_below.
Defined.

Lemma get_amp_reciprocal_witness :
  exists amp,
    get_amp (event := unit) 2 example_channels [1] 1 (fun _ => 3) = Ok amp
    /\ forall ev,
         3 <> 0 ->
         docstring_denominator 2 example_channels [1] 1 (fun _ => 3) ev
           <> (0, 0) ->
         Cmul (amp ev)
              (docstring_denominator 2 example_channels [1] 1 (fun _ => 3) ev)
         = (1, 0).
Proof.
  apply (get_amp_reciprocal (event := unit) 2 example_channels [1] 1
           (fun _ => 3)).
  simpl. lia.
Defined.

Lemma get_amp_missing_coupling_witness :
  get_amp (event := unit) 2 example_channels [] 1 (fun _ => 3)
  = Raise IndexError.
Proof.
  apply (get_amp_missing_coupling (event := unit) 2 example_channels
           [] 1 (fun _ => 3)).
  simpl. lia.
Defined.

(** The denominators of the two examples: [3 - sqrt 3] below threshold
    at mass 1, and [-5 + i (2/3) sqrt 5] above threshold at mass 3. *)
Lemma example_below_denominator :
  docstring_denominator (event := unit) 2 example_channels [1] 1 (fun _ => 1) tt
  <> (0, 0).
Proof.
  unfold docstring_denominator, example_channels. cbn [zip_with fst snd].
  destruct (cal_monentum_cases (event := unit) (fun _ => 1) 1 1 tt)
    as [[Hp _]|[Hp ->]]; [pose proof example_below; lra|].
  pose proof (sqrt_pos (- momentum_squared (event := unit) (fun _ => 1) 1 1 tt))
    as Hs.
  pose proof (sqrt_sqrt (- momentum_squared (event := unit) (fun _ => 1) 1 1 tt))
    as Hss.
  assert (Hv : - momentum_squared (event := unit) (fun _ => 1) 1 1 tt = 3 / 4).
  { unfold momentum_squared. field. }
  rewrite Hv in *. set (s := sqrt (3 / 4)) in *.
  unfold Csum, Cadd, Cmul, of_real. cbn [foldr fst snd].
  intros [= E _]. specialize (Hss ltac:(lra)). nra.
Qed.

Lemma example_above_denominator :
  docstring_denominator (event := unit) 2 example_channels [1] 1 (fun _ => 3) tt
  <> (0, 0).
Proof.
  unfold docstring_denominator, example_channels. cbn [zip_with fst snd].
  destruct (cal_monentum_cases (event := unit) (fun _ => 3) 1 1 tt)
    as [[_ ->]|[Hp _]]; [|pose proof example_above; lra].
  unfold Csum, Cadd, Cmul, of_real. cbn [foldr fst snd].
  intros [= E _]. lra.
Qed.

Lemma get_amp_real_below_thresholds_witness :
  exists amp,
    get_amp (event := unit) 2 example_channels [1] 1 (fun _ => 1) = Ok amp
    /\ (amp tt).2 = 0.
Proof.
  apply (get_amp_real_below_thresholds (event := unit) 2 example_channels
           [1] 1 (fun _ => 1) tt).
  - simpl. lia.
  - constructor; [exact example_below|constructor].
  - lra.
  - exact example_below_denominator.
Defined.

Lemma get_amp_conjugate_above_thresholds_witness :
  docstring_denominator (event := unit) 2 example_channels [1] (- 1)
    (fun _ => 3) tt <> (0, 0)
  /\ exists amp amp',
       get_amp (event := unit) 2 example_channels [1] 1 (fun _ => 3) = Ok amp
       /\ get_amp (event := unit) 2 example_channels [1] (- 1) (fun _ => 3)
          = Ok amp'
       /\ amp' tt = Cconj (amp tt).
Proof.
  apply (get_amp_conjugate_above_thresholds (event := unit) 2
           example_channels [1] 1 (fun _ => 3) tt).
  - simpl. lia.
  - constructor; [exact example_above|constructor].
  - lra.
  - exact example_above_denominator.
Defined.

End Flatte.

(** ** Representations of the covariant formalism ([cov_ten_ir.py]) *)

Module Covariant.
Import Spin Wigner.
#[local] Open Scope R_scope.

(** *** [DFunc] *)

Definition DFunc {event : Type} (s : Q) (Psi Theta Phi : event -> R)
  : event -> list (list C) :=
  D_matrix_conj (fun ev => - Psi ev) Theta (fun ev => - Phi ev) (_half2 s).

Lemma Cexp_opp (x : R) : Cexp (0, - x) = Cconj (Cexp (0, x)).
Proof.
  unfold Cexp, Cconj. cbn [fst snd]. rewrite cos_neg, sin_neg.
  f_equal. ring.
Qed.

Lemma map_zip_with {A B D E : Type} (g : D -> E) (f : A -> B -> D)
    (l : list A) (k : list B) :
  map g (zip_with f l k) = zip_with (fun x y => g (f x y)) l k.
Proof.
  revert k. induction l as [|x l IH]; intros [|y k]; try done.
  cbn [zip_with map]. by rewrite IH.
Qed.

(** [DFunc] is the complex conjugate, entry by entry, of the matrix that
    [D_matrix_conj] returns for the same angles. *)
Theorem DFunc_conjugate {event : Type} (s : Q) (Psi Theta Phi : event -> R)
    (ev : event) :
  DFunc s Psi Theta Phi ev
  = map (map Cconj) (D_matrix_conj Psi Theta Phi (_half2 s) ev).
Proof.
  unfold DFunc, D_matrix_conj, exp_i. cbv zeta.
  rewrite map_zip_with.
  change (map ?f ?l) with (f <$> l). rewrite !zip_with_fmap_l.
  apply zip_with_ext; [|done..]. intros m1 row.
  change (?f <$> ?l) with (map f l). rewrite map_zip_with.
  change (map ?f ?l) with (f <$> l). rewrite !zip_with_fmap_l.
  apply zip_with_ext; [|done..]. intros m2 dab.
  replace (IZR m1 * - Psi ev) with (- (IZR m1 * Psi ev)) by ring.
  replace (IZR m2 * - Phi ev) with (- (IZR m2 * Phi ev)) by ring.
  rewrite !Cexp_opp. unfold Cmul, Cconj, of_real. cbn [fst snd].
  f_equal; ring.
Qed.

(** *** Spin decompositions: [_slr] and [SCRep] *)

#[local] Open Scope Q_scope.

Definition _slr (s : Q) : list Q :=
  if (_half2 s mod 2 =? 0)%Z then [s; s / 2; s / 2]
  else [s; (2 * s + 1) / 4; (2 * s - 1) / 4].

(** [int(x)]: towards zero. *)
Definition py_int (x : Q) : Z :=
  if Qle_bool 0 x then Qfloor x else Qceiling x.

Definition SCRep (s : Q) : Q * Q :=
  if (py_int (s * 2) mod 2 =? 0)%Z then (s / 2, s / 2)
  else ((2 * s + 1) / 4, (2 * s - 1) / 4).

Lemma py_int_integer (x : Q) (n : Z) : x == inject_Z n -> py_int x = n.
Proof.
  intros Hx. unfold py_int.
  rewrite (Qfloor_comp _ _ Hx), (Qceiling_comp _ _ Hx), Qfloor_Z, Qceiling_Z.
  by destruct (Qle_bool 0 x).
Qed.

Lemma _half2_integer (s : Q) (n : Z) : s * 2 == inject_Z n -> _half2 s = n.
Proof.
  intros Hs. unfold _half2. rewrite Hs. apply py_round_integer.
Qed.

(** On a multiple of 1/2 the two decompositions of a spin agree, and the
    two components add up to the spin. *)
Theorem SCRep_slr (s : Q) :
  half_integral s ->
  _slr s = [s; (SCRep s).1; (SCRep s).2]
  /\ (SCRep s).1 + (SCRep s).2 == s.
Proof.
  intros [n Hn]. unfold _slr, SCRep.
  rewrite (_half2_integer s n Hn), (py_int_integer (s * 2) n Hn).
  destruct (n mod 2 =? 0)%Z; cbn [fst snd]; split; try done; field.
Qed.

Lemma SCRep_slr_witness :
  _slr (3 # 2) = [3 # 2; (SCRep (3 # 2)).1; (SCRep (3 # 2)).2]
  /\ (SCRep (3 # 2)).1 + (SCRep (3 # 2)).2 == 3 # 2.
Proof.
  apply (SCRep_slr (3 # 2)). exists 3%Z. reflexivity.
Defined.

(** *** The Clebsch-Gordan series: [_decomp] *)

Definition _decomp (l1 r1 l2 r2 : Q) : list (Q * Q) :=
  l ← py_range3 (_half2 (Qabs (l1 - l2))) (_half2 (l1 + l2 + 1)) 2;
  s ← py_range3 (_half2 (Qabs (r1 - r2))) (_half2 (r1 + r2 + 1)) 2;
  [(inject_Z l / 2, inject_Z s / 2)].

Definition half (n : nat) : Q := Qmake (Z.of_nat n) 2.

Lemma half_difference (a b : nat) :
  _half2 (Qabs (half a - half b)) = Z.abs (Z.of_nat a - Z.of_nat b).
Proof.
  apply _half2_integer. unfold half.
  assert (E : half a - half b
              == inject_Z (Z.of_nat a - Z.of_nat b) / 2).
  { unfold half, Qeq, Qminus, Qplus, Qopp, Qdiv, Qmult, Qinv, inject_Z.
    simpl. lia. }
  rewrite E. unfold Qdiv. rewrite Qabs_Qmult.
  change (Qabs (/ 2)) with (/ 2).
  unfold Qabs, inject_Z. cbn [Qnum Qden]. 
  unfold Qeq, Qmult, Qinv. simpl. lia.
Qed.

Lemma half_sum (a b : nat) :
  _half2 (half a + half b + 1) = (Z.of_nat a + Z.of_nat b + 2)%Z.
Proof.
  apply _half2_integer. unfold half, Qeq, Qplus, Qmult, inject_Z. simpl. lia.
Qed.

Lemma series_range (a b : nat) :
  py_range3 (Z.abs (Z.of_nat a - Z.of_nat b)) (Z.of_nat a + Z.of_nat b + 2) 2
  = map (fun k => (Z.abs (Z.of_nat a - Z.of_nat b) + 2 * Z.of_nat k)%Z)
        (seq 0 (S (Nat.min a b))).
Proof.
  unfold py_range3. f_equal. f_equal.
  replace (Z.of_nat a + Z.of_nat b + 2 - Z.abs (Z.of_nat a - Z.of_nat b) + 2 - 1)%Z
    with (1 + (Z.of_nat (Nat.min a b) + 1) * 2)%Z by lia.
  rewrite Z.div_add by lia. change (1 / 2)%Z with 0%Z. lia.
Qed.

Lemma length_bind_const {A B : Type} (f : A -> list B) (l : list A) (m : nat) :
  (forall x, length (f x) = m) -> length (l ≫= f) = (length l * m)%nat.
Proof.
  intros Hf. induction l as [|x l IH]; [done|].
  change ((x :: l) ≫= f) with (f x ++ (l ≫= f)).
  rewrite length_app, Hf, IH. simpl. lia.
Qed.

(** For spins that are multiples of 1/2, [_decomp] yields every pair of the
    Clebsch-Gordan series, the left spins from [|l1 - l2|] to [l1 + l2] in
    steps of one and for each of them the right spins from [|r1 - r2|] to
    [r1 + r2]: [(2 min(l1, l2) + 1) (2 min(r1, r2) + 1)] pairs. *)
Theorem _decomp_series (a b c d : nat) :
  _decomp (half a) (half c) (half b) (half d)
  = (k ← seq 0 (S (Nat.min a b));
     j ← seq 0 (S (Nat.min c d));
     [(inject_Z (Z.abs (Z.of_nat a - Z.of_nat b) + 2 * Z.of_nat k) / 2,
       inject_Z (Z.abs (Z.of_nat c - Z.of_nat d) + 2 * Z.of_nat j) / 2)])
  /\ length (_decomp (half a) (half c) (half b) (half d))
     = (S (Nat.min a b) * S (Nat.min c d))%nat.
Proof.
  assert (Heq : _decomp (half a) (half c) (half b) (half d)
    = (k ← seq 0 (S (Nat.min a b));
       j ← seq 0 (S (Nat.min c d));
       [(inject_Z (Z.abs (Z.of_nat a - Z.of_nat b) + 2 * Z.of_nat k) / 2,
         inject_Z (Z.abs (Z.of_nat c - Z.of_nat d) + 2 * Z.of_nat j) / 2)])).
  { unfold _decomp.
    rewrite !half_difference, !half_sum, !series_range.
    generalize (seq 0 (S (Nat.min a b))) as K.
    generalize (seq 0 (S (Nat.min c d))) as J. intros J K.
    induction K as [|k K IH]; [done|].
    cbn [map]. change ((?x :: ?l) ≫= ?f) with (f x ++ (l ≫= f)).
    rewrite IH. f_equal. clear IH.
    induction J as [|j J IH]; [done|].
    cbn [map]. change ((?x :: ?l) ≫= ?f) with (f x ++ (l ≫= f)).
    by rewrite IH. }
  split; [done|]. rewrite Heq.
  rewrite (length_bind_const _ _ (S (Nat.min c d))), length_seq; [done|].
  intros k. rewrite (length_bind_const _ _ 1%nat), length_seq; [lia|done].
Qed.

(** *** The order of the entries of [CGlrs] *)

Lemma rev_seq_0 (n : nat) :
  rev (seq 0 (S n)) = map (fun a => (n - a)%nat) (seq 0 (S n)).
Proof.
  induction n as [|n IH]; [done|].
  replace (seq 0 (S (S n))) with (seq 0 (S n) ++ [S n]) at 1
    by (by rewrite (seq_S (S n))).
  rewrite rev_app_distr. cbn [rev app]. rewrite IH.
  change (seq 0 (S (S n))) with (0%nat :: seq 1 (S n)).
  cbn [map]. by rewrite <- seq_shift, map_map.
Qed.

Lemma rev_map_seq {A : Type} (f : nat -> A) (n : nat) :
  rev (map f (seq 0 (S n))) = map (fun a => f (n - a)%nat) (seq 0 (S n)).
Proof. by rewrite <- map_rev, rev_seq_0, map_map. Qed.

Lemma _size_half (n : nat) : _size (half n) = (Z.of_nat n + 1)%Z.
Proof. unfold _size, half. by rewrite _half2_half_integer. Qed.

Lemma _srange_half (n : nat) :
  _srange (half n) = map (fun i => inject_Z (Z.of_nat i) - half n) (seq 0 (S n)).
Proof.
  unfold _srange, py_range. rewrite _size_half, map_map.
  by replace (Z.to_nat (Z.of_nat n + 1)) with (S n) by lia.
Qed.

Lemma _S_half (n : nat) : _S (half n) = half n.
Proof. unfold _S, half. by rewrite _half2_half_integer. Qed.

Lemma _S_projection (n i : nat) :
  _S (inject_Z (Z.of_nat i) - half n)
  = Qmake (2 * Z.of_nat i - Z.of_nat n) 2.
Proof.
  unfold _S. f_equal. apply _half2_integer.
  unfold half, Qeq, Qminus, Qplus, Qopp, Qmult, inject_Z. simpl. lia.
Qed.

(** For spins that are multiples of 1/2, the entry [a], [b], [c] of the
    tensor that [CGlrs] returns is the coefficient of the projections
    [l - a], [r - b] and [s - c]: every axis starts at the highest
    projection. *)
Theorem CGlrs_entries CG (nl nr ns : nat) :
  CGlrs CG (half nl) (half nr) (half ns)
  = Ok (map (fun a => map (fun b => map (fun c =>
          CG (half nl) (Qmake (Z.of_nat nl - 2 * Z.of_nat a) 2)
             (half nr) (Qmake (Z.of_nat nr - 2 * Z.of_nat b) 2)
             (half ns) (Qmake (Z.of_nat ns - 2 * Z.of_nat c) 2))
        (seq 0 (S ns))) (seq 0 (S nr))) (seq 0 (S nl))).
Proof.
  unfold CGlrs, zeros_shape. rewrite !_size_half. cbn [forallb].
  replace (0 <=? Z.of_nat nl + 1)%Z with true by (symmetry; apply Z.leb_le; lia).
  replace (0 <=? Z.of_nat nr + 1)%Z with true by (symmetry; apply Z.leb_le; lia).
  replace (0 <=? Z.of_nat ns + 1)%Z with true by (symmetry; apply Z.leb_le; lia).
  cbn [andb]. rewrite bind_Ok. cbv zeta. f_equal.
  rewrite !_srange_half, !_S_half, !map_map, rev_map_seq.
  apply map_ext_in. intros a Ha. apply in_seq in Ha.
  rewrite !map_map, rev_map_seq. apply map_ext_in. intros b Hb.
  apply in_seq in Hb. rewrite !map_map, rev_map_seq.
  apply map_ext_in. intros c Hc. apply in_seq in Hc.
  rewrite !_S_projection.
  replace (2 * Z.of_nat (nl - a) - Z.of_nat nl)%Z
    with (Z.of_nat nl - 2 * Z.of_nat a)%Z by lia.
  replace (2 * Z.of_nat (nr - b) - Z.of_nat nr)%Z
    with (Z.of_nat nr - 2 * Z.of_nat b)%Z by lia.
  replace (2 * Z.of_nat (ns - c) - Z.of_nat ns)%Z
    with (Z.of_nat ns - 2 * Z.of_nat c)%Z by lia.
  reflexivity.
Qed.

(** *** The boost of [LorentzTrans] *)

#[local] Open Scope R_scope.
Import Lorentz.

(** [np.sum(p_mu**2 * np.array([1, -1, -1, -1]), axis=-1)] *)
Definition mass2 (p_mu : vec4) : R :=
  c0 p_mu ^ 2 * 1 + c1 p_mu ^ 2 * -1 + c2 p_mu ^ 2 * -1 + c3 p_mu ^ 2 * -1.

Definition LorentzTrans {event : Type} (p_mu : event -> vec4)
  : event -> list (list R) :=
  fun ev =>
  let x := scale (p_mu ev) (sqrt (mass2 (p_mu ev))) in
  let x0 := c0 x in
  let x1 := c1 x in
  let x2 := c2 x in
  let x3 := c3 x in
  [[x0; x1; x2; x3];
   [x1; x1 * x1 / (1 + x0) + 1; x1 * x2 / (1 + x0); (x1 * x3) / (1 + x0)];
   [x2; (x1 * x2) / (1 + x0); x2 ^ 2 / (1 + x0) + 1; (x2 * x3) / (1 + x0)];
   [x3; (x1 * x3) / (1 + x0); (x2 * x3) / (1 + x0); 1 + x3 ^ 2 / (1 + x0)]].

(** [g_munu * p0] in [cal_amp], with [g_munu = np.array([1, -1, -1, -1])]. *)
Definition g_munu_times (p : vec4) : vec4 :=
  mkVec4 (1 * c0 p) (-1 * c1 p) (-1 * c2 p) (-1 * c3 p).

Definition components (p : vec4) : list R := [c0 p; c1 p; c2 p; c3 p].

(** [np.einsum("...ab,...b->...a", trans, p)] on one event. *)
Definition einsum_ab_b (trans : list (list R)) (p : vec4) : list R :=
  map (fun row => Rsum (zip_with Rmult row (components p))) trans.

Section Boost.
Variables E p1 p2 p3 : R.
Hypothesis Hmass : 0 < E * E - p1 * p1 - p2 * p2 - p3 * p3.
Hypothesis Henergy : 0 < E.

Let m := sqrt (E * E - p1 * p1 - p2 * p2 - p3 * p3).

Lemma boost_mass_pos : 0 < m.
Proof. by apply sqrt_lt_R0. Qed.

Lemma boost_mass_sqr : m * m = E * E - p1 * p1 - p2 * p2 - p3 * p3.
Proof. apply sqrt_sqrt. lra. Qed.

(** The unit four-velocity and the factor [1 / (1 + x0)]. *)
Lemma boost_velocity (sign : R) :
  sign * sign = 1 ->
  let x0 := E / m in
  let x1 := sign * p1 / m in
  let x2 := sign * p2 / m in
  let x3 := sign * p3 / m in
  x0 * m = E /\ x1 * m = sign * p1 /\ x2 * m = sign * p2 /\ x3 * m = sign * p3
  /\ / (1 + x0) * (1 + x0) = 1
  /\ x0 * x0 - x1 * x1 - x2 * x2 - x3 * x3 = 1.
Proof.
  intros Hsign. pose proof boost_mass_pos as Hm.
  pose proof boost_mass_sqr as Hmm. cbv zeta.
  assert (Hx0 : 0 < E / m) by (apply Rdiv_lt_0_compat; lra).
  repeat split; try (field; lra).
  transitivity ((E * E - (sign * sign) * (p1 * p1 + p2 * p2 + p3 * p3))
                / (m * m)); [field; lra|].
  rewrite Hsign, Hmm. field. lra.
Qed.

End Boost.

Lemma mass2_unfold (p : vec4) :
  mass2 p = c0 p * c0 p - c1 p * c1 p - c2 p * c2 p - c3 p * c3 p.
Proof. unfold mass2. ring. Qed.

(** The transformation that [cal_amp] builds from the momentum of the
    parent takes that momentum to rest: its time component becomes the
    invariant mass and its space components vanish. *)
Theorem LorentzTrans_to_rest {event : Type} (p : event -> vec4) (ev : event) :
  0 < mass2 (p ev) -> 0 < c0 (p ev) ->
  einsum_ab_b (LorentzTrans (fun e => g_munu_times (p e)) ev) (p ev)
  = [sqrt (mass2 (p ev)); 0; 0; 0].
Proof.
  unfold einsum_ab_b, LorentzTrans, components. cbv beta zeta.
  destruct (p ev) as [E p1 p2 p3]. intros Hmass HE. cbn [c0] in HE.
  rewrite mass2_unfold in Hmass. cbn [c0 c1 c2 c3] in Hmass.
  assert (Hg : mass2 (g_munu_times (mkVec4 E p1 p2 p3))
               = E * E - p1 * p1 - p2 * p2 - p3 * p3).
  { rewrite mass2_unfold. unfold g_munu_times. cbn [c0 c1 c2 c3]. ring. }
  rewrite Hg, mass2_unfold. cbn [c0 c1 c2 c3 g_munu_times scale map zip_with].
  set (m := sqrt (E * E - p1 * p1 - p2 * p2 - p3 * p3)).
  destruct (boost_velocity E p1 p2 p3 Hmass HE (-1) ltac:(lra))
    as (H0 & H1 & H2 & H3 & Hk & Hn). fold m in H0, H1, H2, H3, Hk, Hn.
  pose proof (boost_mass_pos E p1 p2 p3 Hmass) as Hm. fold m in Hm.
  replace (1 * E / m) with (E / m) by (field; lra).
  set (x0 := E / m) in *. set (x1 := -1 * p1 / m) in *.
  set (x2 := -1 * p2 / m) in *. set (x3 := -1 * p3 / m) in *.
  unfold Rdiv at 1 2 3 4 5 6 7 8 9. set (k := / (1 + x0)) in *.
  unfold Rsum. cbn [foldr].
  clearbody k x0 x1 x2 x3 m. clear Hmass HE Hg Hm.
  cbn [pow].
  f_equal; [nsatz|]. f_equal; [nsatz|]. f_equal; [nsatz|]. f_equal. nsatz.
Qed.

Lemma LorentzTrans_to_rest_witness :
  einsum_ab_b (LorentzTrans (fun _ : unit => g_munu_times (mkVec4 5 3 0 0)) tt)
              (mkVec4 5 3 0 0)
  = [sqrt (mass2 (mkVec4 5 3 0 0)); 0; 0; 0].
Proof.
  apply (LorentzTrans_to_rest (fun _ : unit => mkVec4 5 3 0 0) tt).
  - unfold mass2. cbn [c0 c1 c2 c3]. lra.
  - cbn [c0]. lra.
Defined.

(** [LorentzTrans] is a Lorentz transformation: it preserves the invariant
    square of every four-vector it is applied to. *)
Theorem LorentzTrans_preserves_mass2 {event : Type} (p : event -> vec4)
    (ev : event) (q : vec4) :
  0 < mass2 (p ev) -> 0 < c0 (p ev) ->
  exists q',
    components q' = einsum_ab_b (LorentzTrans p ev) q
    /\ mass2 q' = mass2 q.
Proof.
  unfold einsum_ab_b, LorentzTrans, components. cbv beta zeta.
  destruct (p ev) as [E p1 p2 p3]. destruct q as [q0 q1 q2 q3].
  intros Hmass HE. cbn [c0] in HE.
  rewrite mass2_unfold in Hmass. cbn [c0 c1 c2 c3] in Hmass.
  rewrite (mass2_unfold (mkVec4 E p1 p2 p3)).
  cbn [c0 c1 c2 c3 scale map zip_with].
  eexists (mkVec4 _ _ _ _). split; [reflexivity|].
  rewrite !mass2_unfold. cbn [c0 c1 c2 c3].
  set (m := sqrt (E * E - p1 * p1 - p2 * p2 - p3 * p3)).
  destruct (boost_velocity E p1 p2 p3 Hmass HE 1 ltac:(lra))
    as (_ & _ & _ & _ & Hk & Hn). fold m in Hk, Hn.
  pose proof (boost_mass_pos E p1 p2 p3 Hmass) as Hm. fold m in Hm.
  assert (Hn' : E / m * (E / m) - p1 / m * (p1 / m) - p2 / m * (p2 / m)
                - p3 / m * (p3 / m) = 1) by (rewrite <- Hn; field; lra).
  clear Hn.
  set (x0 := E / m) in *. set (x1 := p1 / m) in *.
  set (x2 := p2 / m) in *. set (x3 := p3 / m) in *.
  unfold Rdiv. set (k := / (1 + x0)) in *.
  unfold Rsum. cbn [foldr pow].
  clearbody k x0 x1 x2 x3 m. clear Hmass HE Hm.
  nsatz.
Qed.

Lemma LorentzTrans_preserves_mass2_witness :
  exists q',
    components q'
    = einsum_ab_b (LorentzTrans (fun _ : unit => mkVec4 5 3 0 0) tt)
                  (mkVec4 1 0 0 0)
    /\ mass2 q' = mass2 (mkVec4 1 0 0 0).
Proof.
  apply (LorentzTrans_preserves_mass2 (fun _ : unit => mkVec4 5 3 0 0) tt
           (mkVec4 1 0 0 0)).
  - unfold mass2. cbn [c0 c1 c2 c3]. lra.
  - cbn [c0]. lra.
Defined.

End Covariant.

(** * Nested dictionaries ([get_keys], [get_key_content],
      [flatten_dict_data]) *)

Module Nested.
Import Stdlib.Strings.Ascii.

(** A nested data structure: a value that is not a dictionary, or a
    dictionary in iteration order.  The keys are strings, so that [str(k)]
    is [k]; a dictionary holds each key once, so that [dic[k]] for a key
    [k] met in the iteration is the value stored with it. *)
#[warnings="-register-all"]
Inductive tree (V : Type) : Type :=
| Leaf (v : V)
| Dict (items : list (string * tree V)).
Arguments Leaf {V} v.
Arguments Dict {V} items.

Section Induction.
Context {V : Type} (P : tree V -> Prop).
Hypothesis Hleaf : forall v, P (Leaf v).
Hypothesis Hdict :
  forall items, Forall (fun it => P it.2) items -> P (Dict items).

Fixpoint tree_induction (t : tree V) : P t :=
  match t with
  | Leaf v => Hleaf v
  | Dict items =>
      Hdict items
        ((fix go (l : list (string * tree V)) : Forall (fun it => P it.2) l :=
            match l with
            | [] => @List.Forall_nil _ (fun it => P it.2)
            | it :: l' => @List.Forall_cons _ (fun it => P it.2) it l' (tree_induction it.2) (go l')
            end) items)
  end.
End Induction.

(** ** Strings *)

Definition slash : ascii := "/"%char.

(** [s.split("/")] *)
Fixpoint split (s : string) : list string :=
  match s with
  | EmptyString => [EmptyString]
  | String c s' =>
      if decide (c = slash) then EmptyString :: split s'
      else match split s' with
           | w :: ws => String c w :: ws
           | [] => [String c EmptyString]
           end
  end.

(** [s.lstrip("/")] and [s.rstrip("/")] *)
Fixpoint lstrip (s : string) : string :=
  match s with
  | EmptyString => EmptyString
  | String c s' => if decide (c = slash) then lstrip s' else s
  end.

Fixpoint rstrip (s : string) : string :=
  match s with
  | EmptyString => EmptyString
  | String c s' =>
      let r := rstrip s' in
      if decide (c = slash)
      then match r with
           | EmptyString => EmptyString
           | String _ _ => String c r
           end
      else String c r
  end.

(** [s.strip("/")] *)
Definition strip (s : string) : string := lstrip (rstrip s).

(** ["{}/{}".format], the default [fun] of [flatten_dict_data]. *)
Definition default_format (i j : string) : string := (i +:+ "/") +:+ j.

(** ** Dictionaries *)

(** [ret[k] = v] on a dictionary in insertion order. *)
Fixpoint setitem {A : Type} (k : string) (v : A) (d : list (string * A))
  : list (string * A) :=
  match d with
  | [] => [(k, v)]
  | (k', v') :: d' =>
      if decide (k' = k) then (k', v) :: d' else (k', v') :: setitem k v d'
  end.

(** The first key of the iteration that equals [k0]. *)
Fixpoint first_match {A : Type} (k0 : string) (d : list (string * A))
  : option A :=
  match d with
  | [] => None
  | (k, v) :: d' => if decide (k = k0) then Some v else first_match k0 d'
  end.

Section Functions.
Context {V : Type}.

(** The inner function of [get_keys], with [keys_list] passed along. *)
Fixpoint get_keys_inner (dic : tree V) (key_path : string)
    (keys_list : list string) : list string :=
  match dic with
  | Dict items =>
      foldl (fun keys_list it =>
               get_keys_inner it.2 ((key_path +:+ "/") +:+ it.1) keys_list)
            keys_list items
  | Leaf _ => keys_list ++ [key_path]
  end.

Definition get_keys (dic : tree V) (key_path : string) : list string :=
  get_keys_inner dic key_path [].

(** What the loop [for k in dic] of [get_content] does when [dic] is not a
    dictionary: it iterates over the value itself. *)
Variable leaf_content : V -> list string -> result (tree V).

(** The inner function of [get_key_content].  When no key matches, [ret]
    is read before it is assigned. *)
Fixpoint get_content (keys : list string) (dic : tree V) : result (tree V) :=
  match keys with
  | [] => Ok dic
  | k0 :: keys' =>
      match dic with
      | Dict items =>
          match first_match k0 items with
          | Some sub => get_content keys' sub
          | None => Raise NameError
          end
      | Leaf v => leaf_content v keys
      end
  end.

Definition get_key_content (dic : tree V) (key_path : string)
  : result (tree V) :=
  get_content (split (strip key_path)) dic.

(** The body of [for i in data] in [flatten_dict_data]. *)
Definition flatten_step (fun_ : string -> string -> string) (i : string)
    (tmp : tree V) (ret : list (string * tree V)) : list (string * tree V) :=
  match tmp with
  | Dict tmp_items =>
      foldl (fun ret jv => setitem (fun_ i jv.1) jv.2 ret) ret tmp_items
  | Leaf _ => setitem i tmp ret
  end.

(** The recursive call leaves [fun] out, so the levels below use the
    default. *)
Fixpoint flatten_dict_data (fun_ : string -> string -> string)
    (data : tree V) : tree V :=
  match data with
  | Dict items =>
      Dict (foldl (fun ret it =>
                     flatten_step fun_ it.1
                       (flatten_dict_data default_format it.2) ret)
                  [] items)
  | Leaf _ => data
  end.

End Functions.

(** ** Key paths *)

(** A string without ["/"], and a key that survives [strip] and [split]. *)
Fixpoint free (s : string) : Prop :=
  match s with
  | EmptyString => True
  | String c s' => c <> slash /\ free s'
  end.

Definition key_ok (k : string) : Prop := k <> EmptyString /\ free k.

(** The keys along a path, joined by ["/"]. *)
Fixpoint join (ks : list string) : string :=
  match ks with
  | [] => EmptyString
  | k :: ks' =>
      match ks' with
      | [] => k
      | _ :: _ => default_format k (join ks')
      end
  end.

(** The path that [get_keys] builds from [key_path] along the keys. *)
Definition path_of (key_path : string) (ks : list string) : string :=
  foldl (fun p k => (p +:+ "/") +:+ k) key_path ks.

Lemma append_cons (x : ascii) (a b : string) :
  String x a +:+ b = String x (a +:+ b).
Proof. reflexivity. Qed.

Lemma append_nil_l (b : string) : EmptyString +:+ b = b.
Proof. reflexivity. Qed.

Lemma append_assoc (a b c : string) : (a +:+ b) +:+ c = a +:+ (b +:+ c).
Proof.
  induction a as [|x a IH]; [done|]. by rewrite !append_cons, IH.
Qed.

Lemma split_not_nil (s : string) : split s <> [].
Proof.
  induction s as [|c s IH]; [done|]. simpl.
  destruct (decide (c = slash)); [done|]. by destruct (split s).
Qed.

Lemma split_free (k : string) : free k -> split k = [k].
Proof.
  induction k as [|c k IH]; [done|]. intros [Hc Hk]. simpl.
  rewrite decide_False by done. by rewrite IH.
Qed.

Lemma split_app (k s : string) :
  free k -> split (k +:+ String slash s) = k :: split s.
Proof.
  induction k as [|c k IH]; intros Hk.
  - rewrite append_nil_l. cbn [split]. by rewrite decide_True.
  - destruct Hk as [Hc Hk]. rewrite append_cons. cbn [split].
    rewrite decide_False by done. by rewrite IH.
Qed.

Lemma join_cons (k : string) (ks : list string) :
  ks <> [] -> join (k :: ks) = k +:+ String slash (join ks).
Proof.
  destruct ks as [|k' ks]; [done|]. intros _.
  change (join (k :: k' :: ks)) with (default_format k (join (k' :: ks))).
  unfold default_format. by rewrite append_assoc.
Qed.

Lemma split_join (ks : list string) :
  ks <> [] -> Forall free ks -> split (join ks) = ks.
Proof.
  induction ks as [|k ks IH]; [done|]. intros _ Hks.
  apply Forall_cons in Hks as [Hk Hks].
  destruct ks as [|k' ks]; [by apply split_free|].
  rewrite join_cons by done. rewrite split_app by done.
  by rewrite IH.
Qed.

Lemma rstrip_free (k : string) : free k -> rstrip k = k.
Proof.
  induction k as [|c k IH]; [done|]. intros [Hc Hk]. simpl.
  rewrite decide_False by done. by rewrite IH.
Qed.

Lemma rstrip_app (a k : string) : key_ok k -> rstrip (a +:+ k) = a +:+ k.
Proof.
  intros [Hne Hk]. induction a as [|c a IH]; [by apply rstrip_free|].
  rewrite append_cons. simpl. rewrite IH.
  destruct (decide (c = slash)); [|done].
  destruct (a +:+ k) eqn:E; [|done].
  destruct a; [by rewrite append_nil_l in E|by rewrite append_cons in E].
Qed.

Lemma join_last (ks : list string) (k : string) :
  exists a, join (ks ++ [k]) = a +:+ k.
Proof.
  induction ks as [|k0 ks [a IH]]; [by exists EmptyString|].
  exists (k0 +:+ String slash a). simpl app.
  rewrite join_cons by (by destruct ks).
  by rewrite IH, append_assoc, append_cons.
Qed.

Lemma join_head (k : string) (ks : list string) :
  key_ok k -> exists c s, c <> slash /\ join (k :: ks) = String c s.
Proof.
  intros [Hne Hk]. destruct k as [|c k]; [done|]. destruct Hk as [Hc _].
  destruct ks as [|k' ks]; [by exists c, k|].
  rewrite join_cons, append_cons by done. by eexists c, _.
Qed.

Lemma strip_join (ks : list string) :
  ks <> [] -> Forall key_ok ks ->
  strip (join ks) = join ks /\ strip (String slash (join ks)) = join ks.
Proof.
  intros Hne Hks.
  assert (Hr : forall a, rstrip (a +:+ join ks) = a +:+ join ks).
  { destruct (exists_last Hne) as (ks' & k & ->).
    destruct (join_last ks' k) as [b Hb]. intros a.
    rewrite Hb, <- append_assoc. apply rstrip_app.
    apply Forall_app in Hks as [_ Hk]. by apply List.Forall_inv in Hk. }
  destruct ks as [|k ks]; [done|].
  destruct (join_head k ks) as (c & s & Hc & Hj).
  { by apply Forall_cons in Hks as [? _]. }
  unfold strip. split.
  - rewrite <- (append_nil_l (join (k :: ks))) at 1.
    rewrite (Hr EmptyString), append_nil_l, Hj. cbn [lstrip].
    by rewrite decide_False.
  - change (String slash (join (k :: ks)))
      with (String slash EmptyString +:+ join (k :: ks)).
    rewrite Hr, append_cons, append_nil_l. cbn [lstrip].
    rewrite decide_True by done. rewrite Hj. cbn [lstrip].
    by rewrite decide_False.
Qed.

Lemma path_of_join (ks : list string) :
  ks <> [] -> path_of EmptyString ks = String slash (join ks).
Proof.
  assert (Hgen : forall ks p, ks <> [] ->
            path_of p ks = p +:+ String slash (join ks)).
  { clear ks. induction ks as [|k ks IH]; [done|]. intros p _.
    unfold path_of. simpl foldl. fold (path_of ((p +:+ "/") +:+ k) ks).
    destruct ks as [|k' ks].
    - simpl. by rewrite append_assoc.
    - rewrite IH by done. rewrite (join_cons k) by done.
      by rewrite !append_assoc, !append_cons, !append_nil_l. }
  intros Hne. by rewrite Hgen.
Qed.

(** The keys of a path are found again in both of its spellings, with and
    without the leading ["/"]. *)
Lemma split_strip_join (ks : list string) :
  ks <> [] -> Forall key_ok ks ->
  split (strip (join ks)) = ks
  /\ split (strip (path_of EmptyString ks)) = ks.
Proof.
  intros Hne Hks. destruct (strip_join ks Hne Hks) as [H1 H2].
  assert (Hfree : Forall free ks).
  { eapply Forall_impl; [exact Hks|]. by intros k [_ ?]. }
  rewrite path_of_join, H1, H2 by done. by rewrite split_join.
Qed.

Section Paths.
Context {V : Type}.
Implicit Types (t : tree V) (items : list (string * tree V)).

(** The items of a dictionary. *)
Definition dict_items t : list (string * tree V) :=
  match t with
  | Dict items => items
  | Leaf _ => []
  end.

(** The key lists that lead to the values that are not dictionaries, in
    iteration order. *)
Fixpoint paths t : list (list string * V) :=
  match t with
  | Leaf v => [([], v)]
  | Dict items =>
      items ≫= (fun it => map (fun p => (it.1 :: p.1, p.2)) (paths it.2))
  end.

Definition item_paths (it : string * tree V) : list (list string * V) :=
  map (fun p => (it.1 :: p.1, p.2)) (paths it.2).

(** The value reached by following the keys through dictionaries. *)
Fixpoint descend (ks : list string) t : option (tree V) :=
  match ks with
  | [] => Some t
  | k :: ks' =>
      match t with
      | Dict items => first_match k items ≫= descend ks'
      | Leaf _ => None
      end
  end.

(** A nested dictionary whose keys can be told apart in a path: at every
    level the keys are distinct, not empty and without ["/"]. *)
#[warnings="-register-all"]
Inductive wf : tree V -> Prop :=
| wf_Leaf v : wf (Leaf v)
| wf_Dict items :
    NoDup items.*1 -> Forall key_ok items.*1 ->
    Forall (fun it => wf it.2) items -> wf (Dict items).

Lemma paths_Dict items : paths (Dict items) = items ≫= item_paths.
Proof. reflexivity. Qed.

Lemma elem_of_item_paths (it : string * tree V) ks v :
  (ks, v) ∈ item_paths it <-> exists p, ks = it.1 :: p /\ (p, v) ∈ paths it.2.
Proof.
  unfold item_paths. rewrite list_elem_of_fmap. split.
  - intros ([p v'] & [= -> ->] & Hp). by exists p.
  - intros (p & -> & Hp). by exists (p, v).
Qed.

Lemma elem_of_paths_Dict items ks v :
  (ks, v) ∈ paths (Dict items)
  <-> exists it p, it ∈ items /\ ks = it.1 :: p /\ (p, v) ∈ paths it.2.
Proof.
  rewrite paths_Dict, list_elem_of_bind. split.
  - intros (it & (p & -> & Hp)%elem_of_item_paths & Hit). by exists it, p.
  - intros (it & p & Hit & -> & Hp). exists it. split; [|done].
    apply elem_of_item_paths. by exists p.
Qed.

Lemma first_match_in {A : Type} (k : string) (v : A) (d : list (string * A)) :
  NoDup d.*1 -> (k, v) ∈ d -> first_match k d = Some v.
Proof.
  induction d as [|[k' v'] d IH]; intros Hnd Hin.
  - by apply elem_of_nil in Hin.
  - apply NoDup_cons in Hnd as [Hk' Hnd]. cbn [first_match].
    apply elem_of_cons in Hin as [[= -> ->]|Hin].
    + by rewrite decide_True.
    + rewrite decide_False; [by apply IH|].
      intros ->. apply Hk'. apply list_elem_of_fmap. by exists (k, v).
Qed.

Lemma first_match_None {A : Type} (k : string) (d : list (string * A)) :
  k ∉ d.*1 -> first_match k d = None.
Proof.
  induction d as [|[k' v'] d IH]; [done|]. intros Hk. cbn [first_match].
  rewrite decide_False.
  - apply IH. intros Hin. apply Hk. by right.
  - intros ->. apply Hk. by left.
Qed.

(** [get_keys] lists the paths in iteration order. *)
Lemma get_keys_inner_paths t :
  forall key_path keys_list,
    get_keys_inner t key_path keys_list
    = keys_list ++ map (fun p => path_of key_path p.1) (paths t).
Proof.
  induction t as [v|items IH] using tree_induction; intros kp acc; [done|].
  rewrite paths_Dict. cbn [get_keys_inner].
  revert acc. induction IH as [|it items Hit _ IHl]; intros acc.
  - simpl. by rewrite app_nil_r.
  - cbn [foldl]. rewrite IHl, Hit. rewrite bind_cons, map_app, app_assoc.
    f_equal. f_equal. unfold item_paths. rewrite map_map. done.
Qed.

Lemma paths_keys_ok t ks v : wf t -> (ks, v) ∈ paths t -> Forall key_ok ks.
Proof.
  revert ks. induction t as [v'|items IH] using tree_induction; intros ks Hwf Hin.
  - apply list_elem_of_singleton in Hin as [= -> _]. constructor.
  - inversion Hwf as [|? Hnd Hkeys Hsub]; subst.
    apply elem_of_paths_Dict in Hin as (it & p & Hit & -> & Hp).
    constructor.
    + rewrite Forall_forall in Hkeys. apply Hkeys.
      apply list_elem_of_fmap. by exists it.
    + rewrite Forall_forall in IH, Hsub.
      apply (IH it Hit); [by apply Hsub|done].
Qed.

Lemma paths_Dict_not_nil items ks v : (ks, v) ∈ paths (Dict items) -> ks <> [].
Proof. by intros (it & p & _ & -> & _)%elem_of_paths_Dict. Qed.

Section Content.
Variable leaf_content : V -> list string -> result (tree V).

(** Every listed path leads [get_content] to its value. *)
Lemma get_content_paths t ks v :
  wf t -> (ks, v) ∈ paths t -> get_content leaf_content ks t = Ok (Leaf v).
Proof.
  revert ks. induction t as [v'|items IH] using tree_induction; intros ks Hwf Hin.
  - by apply list_elem_of_singleton in Hin as [= -> ->].
  - inversion Hwf as [|? Hnd Hkeys Hsub]; subst.
    apply elem_of_paths_Dict in Hin as (it & p & Hit & -> & Hp).
    cbn [get_content]. rewrite (first_match_in it.1 it.2 items).
    + rewrite Forall_forall in IH, Hsub.
      apply (IH it Hit); [by apply Hsub|done].
    + done.
    + by destruct it.
Qed.

Lemma get_content_descend (ks rest : list string) (k : string) t items :
  descend ks t = Some (Dict items) -> k ∉ items.*1 ->
  get_content leaf_content (ks ++ k :: rest) t = Raise NameError.
Proof.
  revert t. induction ks as [|k0 ks IH]; intros t Hd Hk.
  - injection Hd as ->. cbn [app get_content].
    by rewrite first_match_None.
  - destruct t as [v|items0]; [done|]. cbn [descend] in Hd.
    cbn [app get_content].
    destruct (first_match k0 items0) as [sub|]; [|done].
    by apply IH.
Qed.

End Content.

(** The paths of a well-formed dictionary are distinct. *)
Lemma paths_NoDup t : wf t -> NoDup (paths t).*1.
Proof.
  induction t as [v|items IH] using tree_induction; intros Hwf.
  - simpl. apply NoDup_singleton.
  - inversion Hwf as [|? Hnd Hkeys Hsub]; subst. clear Hwf Hkeys.
    rewrite paths_Dict.
    induction items as [|it items IHl]; [constructor|].
    apply Forall_cons in IH as [IHit IH].
    apply Forall_cons in Hsub as [Hit Hsub].
    rewrite fmap_cons in Hnd. apply NoDup_cons in Hnd as [Hfresh Hnd].
    rewrite bind_cons, fmap_app. apply NoDup_app. split; [|split].
    + unfold item_paths. rewrite <- list_fmap_compose.
      change ((fst ∘ (fun p : list string * V => (it.1 :: p.1, p.2))))
        with ((cons it.1) ∘ (fst : list string * V -> list string)).
      rewrite list_fmap_compose. apply NoDup_fmap_2; [|by apply IHit].
      by intros ? ? [= ->].
    + intros ks [[ks1 v1] [-> Hin1]]%list_elem_of_fmap
                [[ks2 v2] [E Hin2]]%list_elem_of_fmap. simpl in E.
      apply elem_of_item_paths in Hin1 as (p1 & -> & _).
      apply list_elem_of_bind in Hin2
        as (it' & (p2 & -> & _)%elem_of_item_paths & Hit').
      injection E as E _. apply Hfresh. rewrite E.
      apply list_elem_of_fmap. by exists it'.
    + by apply IHl.
Qed.

Definition flat_entry (p : list string * V) : string * tree V :=
  (join p.1, Leaf p.2).

(** No two paths of a well-formed dictionary are spelt alike. *)
Lemma flat_keys_NoDup items :
  wf (Dict items) -> NoDup (flat_entry <$> paths (Dict items)).*1.
Proof.
  intros Hwf. rewrite <- list_fmap_compose.
  change (fst ∘ flat_entry) with (join ∘ (fst : list string * V -> _)).
  rewrite list_fmap_compose. apply NoDup_fmap_2_strong; [|by apply paths_NoDup].
  intros ks1 ks2 [[k1 v1] [E1 Hin1]]%list_elem_of_fmap
                 [[k2 v2] [E2 Hin2]]%list_elem_of_fmap E.
  simpl in E1, E2. subst k1 k2.
  assert (Hfree : forall ks v, (ks, v) ∈ paths (Dict items) -> Forall free ks).
  { intros ks v Hin. eapply Forall_impl; [by eapply paths_keys_ok|].
    by intros k [_ ?]. }
  rewrite <- (split_join ks1), <- (split_join ks2), E; eauto using paths_Dict_not_nil.
Qed.

(** ** Assignment to fresh keys *)

Lemma setitem_keys {A : Type} (k : string) (v : A) (d : list (string * A)) :
  (setitem k v d).*1 = if decide (k ∈ d.*1) then d.*1 else d.*1 ++ [k].
Proof.
  induction d as [|[k' v'] d IH]; [done|]. cbn [setitem].
  destruct (decide (k' = k)) as [->|Hne].
  - rewrite decide_True by (by left). done.
  - rewrite !fmap_cons, IH. simpl.
    destruct (decide (k ∈ d.*1)) as [Hin|Hnin].
    + rewrite decide_True by (by right). done.
    + rewrite decide_False; [done|].
      intros [->|?]%elem_of_cons; done.
Qed.

Lemma setitem_fresh {A : Type} (k : string) (v : A) (d : list (string * A)) :
  k ∉ d.*1 -> setitem k v d = d ++ [(k, v)].
Proof.
  induction d as [|[k' v'] d IH]; [done|]. intros Hk. cbn [setitem].
  rewrite decide_False.
  - rewrite IH; [done|]. intros Hin. apply Hk. by right.
  - intros ->. apply Hk. by left.
Qed.

Lemma setitem_NoDup {A : Type} (k : string) (v : A) (d : list (string * A)) :
  NoDup d.*1 -> NoDup (setitem k v d).*1.
Proof.
  intros Hnd. rewrite setitem_keys. case_decide; [done|].
  apply NoDup_app. split; [done|]. split; [|apply NoDup_singleton].
  by intros k' Hk' ->%list_elem_of_singleton.
Qed.

Lemma setitem_Forall {A : Type} (P : A -> Prop) (k : string) (v : A)
    (d : list (string * A)) :
  P v -> Forall (fun it => P it.2) d -> Forall (fun it => P it.2) (setitem k v d).
Proof.
  intros Hv. induction 1 as [|[k' v'] d Hit Hd IH]; cbn [setitem].
  - by repeat constructor.
  - case_decide; constructor; done.
Qed.

Lemma foldl_setitem_fresh {A B : Type} (g : B -> string * A) (new : list B) :
  forall ret : list (string * A),
    NoDup (ret.*1 ++ (g <$> new).*1) ->
    foldl (fun ret x => setitem (g x).1 (g x).2 ret) ret new
    = ret ++ (g <$> new).
Proof.
  induction new as [|x new IH]; intros ret Hnd.
  - simpl. by rewrite app_nil_r.
  - cbn [foldl]. rewrite !fmap_cons in Hnd.
    rewrite setitem_fresh.
    + rewrite IH.
      * rewrite fmap_cons, <- app_assoc. by destruct (g x).
      * rewrite fmap_app. simpl. by rewrite <- app_assoc.
    + apply NoDup_app in Hnd as (_ & Hdis & _). intros Hin.
      apply (Hdis _ Hin). by left.
Qed.

End Paths.

Section Flatten.
Context {V : Type}.
Implicit Types (t : tree V) (items ret : list (string * tree V)).

Definition is_leaf t : Prop := exists v, t = Leaf v.

(** What [ret] is in [flatten_dict_data] at every moment: its keys are
    distinct and none of its values is a dictionary. *)
Definition flat items : Prop :=
  NoDup items.*1 /\ Forall (fun it => is_leaf it.2) items.

Lemma flatten_step_flat (fun_ : string -> string -> string) (i : string) t ret :
  Forall (fun it => is_leaf it.2) (dict_items t) ->
  flat ret -> flat (flatten_step fun_ i t ret).
Proof.
  intros Ht. destruct t as [v|tmp_items]; intros [Hnd Hall].
  - split; [by apply setitem_NoDup|].
    apply setitem_Forall; [by exists v|done].
  - cbn [flatten_step]. simpl in Ht. revert ret Hnd Hall.
    induction Ht as [|jv tmp_items Hjv _ IH]; intros ret Hnd Hall; [done|].
    cbn [foldl]. apply IH; [by apply setitem_NoDup|by apply setitem_Forall].
Qed.

Lemma flatten_flat t :
  forall fun_, flat (dict_items (flatten_dict_data fun_ t)).
Proof.
  induction t as [v|items IH] using tree_induction; intros fun_.
  - split; constructor.
  - cbn [flatten_dict_data dict_items].
    assert (Hgen : forall ret, flat ret ->
      flat (foldl (fun ret it =>
                     flatten_step fun_ it.1
                       (flatten_dict_data default_format it.2) ret)
                  ret items)).
    { induction IH as [|it items Hit _ IHl]; intros ret Hret; [done|].
      cbn [foldl]. apply IHl, flatten_step_flat; [|done].
      apply (Hit default_format). }
    apply Hgen. split; constructor.
Qed.

(** Flattening a flat dictionary changes nothing, whatever [fun] is. *)
Lemma flatten_flat_id (fun_ : string -> string -> string) items :
  flat items -> flatten_dict_data fun_ (Dict items) = Dict items.
Proof.
  intros [Hnd Hall]. cbn [flatten_dict_data]. f_equal.
  assert (Hgen : forall ret, NoDup (ret.*1 ++ items.*1) ->
    foldl (fun ret it =>
             flatten_step fun_ it.1
               (flatten_dict_data default_format it.2) ret)
          ret items = ret ++ items).
  { clear Hnd. induction Hall as [|[k t] items [v Hv] _ IH]; intros ret Hnd.
    - simpl. by rewrite app_nil_r.
    - simpl in Hv. subst t. cbn [foldl]. cbn [flatten_dict_data flatten_step fst snd].
      rewrite fmap_cons in Hnd. simpl in Hnd.
      rewrite setitem_fresh.
      + rewrite IH; [by rewrite <- app_assoc|].
        rewrite fmap_app. simpl. by rewrite <- app_assoc.
      + apply NoDup_app in Hnd as (_ & Hdis & _). intros Hin.
        apply (Hdis _ Hin). by left. }
  apply (Hgen []). done.
Qed.

Lemma join_pair (k : string) (ks : list string) :
  ks <> [] -> join (k :: ks) = default_format k (join ks).
Proof. by destruct ks. Qed.

(** The flattened dictionary of a well-formed dictionary: one entry for
    each path, in iteration order, under the joined keys. *)
Lemma flatten_paths t :
  wf t ->
  flatten_dict_data default_format t
  = match t with
    | Leaf v => Leaf v
    | Dict _ => Dict (flat_entry <$> paths t)
    end.
Proof.
  induction t as [v|items IH] using tree_induction; intros Hwf; [done|].
  pose proof (flat_keys_NoDup items Hwf) as Hnd.
  inversion Hwf as [|? _ _ Hsub]; subst. clear Hwf.
  rewrite paths_Dict in *. cbn [flatten_dict_data]. f_equal.
  assert (Hgen : forall ret,
    NoDup (ret.*1 ++ (flat_entry <$> (items ≫= item_paths)).*1) ->
    foldl (fun ret it =>
             flatten_step default_format it.1
               (flatten_dict_data default_format it.2) ret)
          ret items
    = ret ++ (flat_entry <$> (items ≫= item_paths))).
  { clear Hnd. induction items as [|it items IHl]; intros ret Hnd.
    - simpl. by rewrite app_nil_r.
    - apply Forall_cons in IH as [IHit IH].
      apply Forall_cons in Hsub as [Hit Hsub].
      rewrite bind_cons, !fmap_app, app_assoc in Hnd.
      cbn [foldl]. rewrite bind_cons, fmap_app, app_assoc.
      assert (Hstep :
        flatten_step default_format it.1
          (flatten_dict_data default_format it.2) ret
        = ret ++ (flat_entry <$> item_paths it)).
      { apply NoDup_app in Hnd as (Hnd & _ & _).
        rewrite (IHit Hit). destruct it as [k [v|sub]]; simpl fst; simpl snd.
        - cbn [flatten_step]. apply setitem_fresh.
          apply NoDup_app in Hnd as (_ & Hdis & _). intros Hin.
          apply (Hdis _ Hin). by left.
        - cbn [flatten_step].
          assert (E : flat_entry <$> item_paths (k, Dict sub)
                      = (fun jv : string * tree V =>
                           (default_format k jv.1, jv.2))
                          <$> (flat_entry <$> paths (Dict sub))).
          { unfold item_paths. simpl fst. simpl snd.
            rewrite <- !list_fmap_compose. apply Forall_fmap_ext_1.
            apply Forall_forall. intros [ks v] Hin. unfold flat_entry.
            simpl. f_equal. apply join_pair.
            by eapply paths_Dict_not_nil. }
          rewrite E in Hnd |- *.
          exact (foldl_setitem_fresh
                   (fun jv : string * tree V =>
                      (default_format k jv.1, jv.2)) _ ret Hnd). }
      rewrite Hstep. apply IHl; try done.
      by rewrite fmap_app. }
  apply (Hgen []). done.
Qed.

Section RoundTrip.
Variable leaf_content : V -> list string -> result (tree V).

(** Round trip: on a dictionary whose keys are distinct, not empty and
    without ["/"] at every level, [get_keys] lists as many paths as
    [flatten_dict_data] has entries; the path of position [n] is ["/"]
    followed by the key of the entry of position [n], and
    [get_key_content] returns the value of that entry, which is not a
    dictionary, for the path as well as for the key. *)
Theorem get_keys_round_trip items :
  wf (Dict items) ->
  let flattened := dict_items (flatten_dict_data default_format (Dict items)) in
  length (get_keys (Dict items) EmptyString) = length flattened
  /\ forall (n : nat) (path : string),
       get_keys (Dict items) EmptyString !! n = Some path ->
       exists key v,
         flattened !! n = Some (key, Leaf v)
         /\ path = String slash key
         /\ get_key_content leaf_content (Dict items) path = Ok (Leaf v)
         /\ get_key_content leaf_content (Dict items) key = Ok (Leaf v).
Proof.
  intros Hwf. cbv zeta. rewrite (flatten_paths _ Hwf). cbn [dict_items].
  unfold get_keys. rewrite get_keys_inner_paths, app_nil_l.
  split; [by rewrite !length_fmap|].
  intros n path Hn. apply list_lookup_fmap_Some in Hn as ([ks v] & -> & Hn).
  simpl fst.
  assert (Hin : (ks, v) ∈ paths (Dict items)) by (by eapply list_elem_of_lookup_2).
  assert (Hne : ks <> []) by (by eapply paths_Dict_not_nil).
  assert (Hok : Forall key_ok ks) by (by eapply paths_keys_ok).
  destruct (split_strip_join ks Hne Hok) as [Hj Hp].
  exists (join ks), v. split; [|split; [|split]].
  - by rewrite list_lookup_fmap, Hn.
  - by apply path_of_join.
  - unfold get_key_content. rewrite Hp. by apply get_content_paths.
  - unfold get_key_content. rewrite Hj. by apply get_content_paths.
Qed.

(** A key that is missing at some level of the path: when the keys before
    it lead through dictionaries to a dictionary without the key,
    [get_key_content] raises, for [ret] is read before any assignment
    ([UnboundLocalError], a [NameError]), whatever follows in the path. *)
Theorem get_key_content_missing_key t (ks rest : list string) (k : string)
    items :
  Forall key_ok (ks ++ k :: rest) ->
  descend ks t = Some (Dict items) -> k ∉ items.*1 ->
  get_key_content leaf_content t (path_of EmptyString (ks ++ k :: rest))
  = Raise NameError
  /\ get_key_content leaf_content t (join (ks ++ k :: rest)) = Raise NameError.
Proof.
  intros Hok Hd Hk.
  destruct (split_strip_join (ks ++ k :: rest)) as [Hj Hp];
    [by destruct ks|done|].
  unfold get_key_content. rewrite Hj, Hp.
  split; by eapply get_content_descend.
Qed.

End RoundTrip.

(** Whatever [fun] is, no value of the dictionary that
    [flatten_dict_data] returns is a dictionary, and flattening it again,
    with any [fun], returns it unchanged. *)
Theorem flatten_dict_data_idempotent (fun_ fun' : string -> string -> string) t :
  Forall (fun it => is_leaf it.2) (dict_items (flatten_dict_data fun_ t))
  /\ flatten_dict_data fun' (flatten_dict_data fun_ t)
     = flatten_dict_data fun_ t.
Proof.
  destruct (flatten_flat t fun_) as [Hnd Hall]. split; [done|].
  destruct t as [v|items]; [done|].
  cbn [flatten_dict_data dict_items] in *.
  by apply flatten_flat_id.
Qed.

End Flatten.

(** ** A data dictionary *)

Definition example_data : list (string * tree nat) :=
  [("particle"%string,
    Dict [("A"%string, Dict [("p"%string, Leaf 1); ("m"%string, Leaf 2)])]);
   ("weight"%string, Leaf 3)].

(** A value that is not a dictionary cannot be iterated in the example. *)
Definition scalar_content (v : nat) (keys : list string) : result (tree nat) :=
  Raise ValueError.

Ltac check_keys :=
  repeat match goal with
    | |- wf (Leaf _) => apply wf_Leaf
    | |- wf (Dict _) => apply wf_Dict
    | |- NoDup _ => apply (bool_decide_unpack _); by vm_compute
    | |- Forall _ [] => apply List.Forall_nil
    | |- Forall _ (_ :: _) => apply List.Forall_cons
    | |- key_ok _ => split; [done|cbn; repeat split; done]
    | |- _ => progress cbn
    end.

Lemma example_data_wf : wf (Dict example_data).
Proof. unfold example_data. check_keys. Qed.

Lemma get_keys_round_trip_witness :
  exists key v,
    dict_items (flatten_dict_data default_format (Dict example_data)) !! 1%nat
    = Some (key, Leaf v)
    /\ "/particle/A/m"%string = String slash key
    /\ get_key_content scalar_content (Dict example_data)
         "/particle/A/m"%string = Ok (Leaf v)
    /\ get_key_content scalar_content (Dict example_data) key = Ok (Leaf v).
Proof.
  destruct (get_keys_round_trip scalar_content example_data example_data_wf)
    as [_ Hn].
  apply (Hn 1%nat). reflexivity.
Defined.

(** The path [/particle/A/q/x]: the particle [A] has no entry [q]. *)
Definition missing_keys : list string :=
  ["particle"%string; "A"%string; "q"%string; "x"%string].

Lemma get_key_content_missing_key_witness :
  get_key_content scalar_content (Dict example_data)
    (path_of EmptyString missing_keys)
  = Raise NameError
  /\ get_key_content scalar_content (Dict example_data) (join missing_keys)
     = Raise NameError.
Proof.
  apply (get_key_content_missing_key scalar_content (Dict example_data)
           ["particle"%string; "A"%string] ["x"%string] "q"%string
           [("p"%string, Leaf 1); ("m"%string, Leaf 2)]).
  - cbn [app]. check_keys.
  - reflexivity.
  - apply (bool_decide_unpack _). by vm_compute.
Defined.

End Nested.
